(** * threecn math kernel: Ray.js and Plane.js

    A shallow embedding of [src/math/Ray.js] and [src/math/Plane.js].

    JavaScript numbers are IEEE 754 binary64 values.  The code below is
    written once, over an interface [Num] of the arithmetic and comparison
    operators the two files use, and is then read at two instances:

    - [FloatNum]: Rocq's primitive binary64 floats, i.e. the numbers the
      JavaScript engine really computes with (NaN, infinities, signed
      zeros, rounding); every definition evaluates there;
    - [RNum]: the real numbers, the "exact arithmetic" reading in which
      the geometric statements are made.  The code rounds where this
      reading does not, so a statement made in it is about the code in
      exact arithmetic and says so; what is stated for every [Num], or at
      [FloatNum], is about the code as it runs.

    Conventions of the embedding:

    - a method that mutates [this] and returns it becomes a function from
      the old receiver to the new one;
    - a method that writes its result into a caller-supplied [target] and
      returns it, or returns [null], becomes a function to [option]: the
      value written, or [None];
    - the module-level scratch vectors ([_vector], [_segCenter], [_diff],
      [_edge1], ...) are local to each call and become [let] bindings, in
      the order of the assignments of the source. *)

From Stdlib Require Import Bool ZArith Floats Reals Lra Psatz.

Declare Scope num_scope.
Delimit Scope num_scope with num.

(** ** The number interface *)

Class Num : Type := {
  num : Type;
  zero : num;                       (* 0 *)
  one : num;                        (* 1, 1.0 *)
  two : num;                        (* 2 *)
  half : num;                       (* 0.5 *)
  nadd : num -> num -> num;         (* a + b *)
  nsub : num -> num -> num;         (* a - b *)
  nmul : num -> num -> num;         (* a * b *)
  ndiv : num -> num -> num;         (* a / b *)
  nneg : num -> num;                (* - a *)
  nsqrt : num -> num;               (* Math.sqrt *)
  nabs : num -> num;                (* Math.abs *)
  nmax : num -> num -> num;         (* Math.max *)
  nmin : num -> num -> num;         (* Math.min *)
  nltb : num -> num -> bool;        (* a < b *)
  nleb : num -> num -> bool;        (* a <= b *)
  neqb : num -> num -> bool         (* a === b *)
}.

Infix "+" := nadd : num_scope.
Infix "-" := nsub : num_scope.
Infix "*" := nmul : num_scope.
Infix "/" := ndiv : num_scope.
Notation "- a" := (nneg a) : num_scope.
Notation "a <? b" := (nltb a b) (at level 70, no associativity) : num_scope.
Notation "a <=? b" := (nleb a b) (at level 70, no associativity) : num_scope.
Notation "a >? b" := (nltb b a)
  (at level 70, no associativity, only parsing) : num_scope.
Notation "a >=? b" := (nleb b a)
  (at level 70, no associativity, only parsing) : num_scope.
Notation "a =? b" := (neqb a b) (at level 70, no associativity) : num_scope.

(** JavaScript truthiness of a number, as used by [x || 1]: every number
    but [0], [-0] and [NaN] is truthy. *)
Definition truthy {N : Num} (a : num) : bool :=
  (negb (a =? zero) && (a =? a))%num.

(** ** Vector3 *)

Module Vector3.
Section WithNum.
Context {N : Num}.
Local Open Scope num_scope.

(** Modelled from the spec: [Vector3.js] is imported by [Ray.js] and
    [Plane.js] but is not among the sources; the spec lists it as the
    external "3-component vector type supplying vector arithmetic (add,
    subtract, scale, dot, cross, length, normalize, distance)".  The
    methods mutate their receiver and return it; here each returns the
    new value of the receiver. *)
Record t : Type := mk { x : num; y : num; z : num }.

(** Modelled from the spec: componentwise sum ([v.add(w)]). *)
Definition add (v w : t) : t :=
  mk (x v + x w) (y v + y w) (z v + z w).

(** Modelled from the spec: componentwise difference ([v.sub(w)]). *)
Definition sub (v w : t) : t :=
  mk (x v - x w) (y v - y w) (z v - z w).

(** Modelled from the spec: [target.subVectors(a, b)] stores [a - b]. *)
Definition subVectors (a b : t) : t := sub a b.

(** Modelled from the spec: scaling ([v.multiplyScalar(s)]). *)
Definition multiplyScalar (v : t) (s : num) : t :=
  mk (x v * s) (y v * s) (z v * s).

(** Modelled from the spec: [v.negate()]. *)
Definition negate (v : t) : t := mk (- x v) (- y v) (- z v).

(** Modelled from the spec: dot product. *)
Definition dot (v w : t) : num :=
  x v * x w + y v * y w + z v * z w.

(** Modelled from the spec: [target.crossVectors(a, b)] stores the cross
    product; it reads all six components before it writes, so the target
    may be one of the operands. *)
Definition crossVectors (a b : t) : t :=
  mk (y a * z b - z a * y b) (z a * x b - x a * z b) (x a * y b - y a * x b).

(** Modelled from the spec: [v.cross(w)] is [v.crossVectors(v, w)]. *)
Definition cross (v w : t) : t := crossVectors v w.

(** Modelled from the spec: squared length. *)
Definition lengthSq (v : t) : num :=
  x v * x v + y v * y v + z v * z v.

(** Modelled from the spec: length. *)
Definition length (v : t) : num := nsqrt (lengthSq v).

(** Modelled from the spec: [v.normalize()] is
    [v.divideScalar(v.length() || 1)], and [divideScalar(s)] multiplies
    by [1 / s]; a zero vector is left as it is. *)
Definition normalize (v : t) : t :=
  let l := length v in
  multiplyScalar v (one / (if truthy l then l else one)).

(** Modelled from the spec: squared distance between two points. *)
Definition distanceToSquared (v w : t) : num :=
  let dx := x v - x w in
  let dy := y v - y w in
  let dz := z v - z w in
  dx * dx + dy * dy + dz * dz.

(** Modelled from the spec: distance between two points. *)
Definition distanceTo (v w : t) : num := nsqrt (distanceToSquared v w).

(** Modelled from the spec: [this.copy(v)] takes the three components of
    [v]. *)
Definition copy (this v : t) : t := mk (x v) (y v) (z v).

(** Modelled from the spec: [this.equals(v)] compares the components with
    [===]. *)
Definition equals (this v : t) : bool :=
  (x v =? x this) && (y v =? y this) && (z v =? z this).

End WithNum.
End Vector3.

(** ** Sphere, Box3, Line3: the shapes the queries take *)

Module Sphere.
Section WithNum.
Context {N : Num}.
Local Open Scope num_scope.

(** Modelled from the spec: the external sphere type, a center and a
    radius. *)
Record t : Type := mk { center : Vector3.t; radius : num }.

(** Modelled from the spec: the sphere as a set of points, the closed ball
    of the given center and radius. *)
Definition containsPoint (s : t) (p : Vector3.t) : bool :=
  Vector3.distanceToSquared p (center s) <=? radius s * radius s.

End WithNum.
End Sphere.

Module Box3.
Section WithNum.
Context {N : Num}.

(** Modelled from the spec: the external axis-aligned box type, its
    minimal and maximal corner. *)
Record t : Type := mk { min : Vector3.t; max : Vector3.t }.

End WithNum.
End Box3.

Module Line3.
Section WithNum.
Context {N : Num}.

(** Modelled from the spec: the external segment type, "exposing [delta]
    (end - start) and its two endpoints". *)
Record t : Type := mk { start : Vector3.t; end_ : Vector3.t }.

(** Modelled from the spec: [line.delta(target)] stores [end - start]. *)
Definition delta (l : t) : Vector3.t := Vector3.subVectors (end_ l) (start l).

End WithNum.
End Line3.

(** ** Plane.js *)

Module Plane.
Section WithNum.
Context {N : Num}.
Local Open Scope num_scope.

(** [normal] is assumed (not checked) to be of unit length. *)
Record t : Type := mk { normal : Vector3.t; constant : num }.

(** The mutating methods return [this]; here they return the new value of
    the receiver. *)

Definition set (this : t) (normal : Vector3.t) (constant : num) : t :=
  mk normal constant.

Definition setComponents (this : t) (x y z w : num) : t :=
  mk (Vector3.mk x y z) w.

Definition setFromNormalAndCoplanarPoint (this : t)
    (normal point : Vector3.t) : t :=
  let this_normal := normal in
  mk this_normal (- Vector3.dot point this_normal).

Definition setFromCoplanarPoints (this : t) (a b c : Vector3.t) : t :=
  let normal :=
    Vector3.normalize
      (Vector3.cross (Vector3.subVectors c b) (Vector3.subVectors a b)) in
  setFromNormalAndCoplanarPoint this normal a.

Definition normalize (this : t) : t :=
  let inverseNormalLength := one / Vector3.length (normal this) in
  mk (Vector3.multiplyScalar (normal this) inverseNormalLength)
     (constant this * inverseNormalLength).

Definition negate (this : t) : t :=
  mk (Vector3.negate (normal this)) (constant this * - one).

Definition distanceToPoint (this : t) (point : Vector3.t) : num :=
  Vector3.dot (normal this) point + constant this.

Definition distanceToSphere (this : t) (sphere : Sphere.t) : num :=
  distanceToPoint this (Sphere.center sphere) - Sphere.radius sphere.

Definition projectPoint (this : t) (point : Vector3.t) : Vector3.t :=
  Vector3.add
    (Vector3.multiplyScalar (normal this) (- distanceToPoint this point))
    point.

(** [null] is [None]; otherwise the value written to [target]. *)
Definition intersectLine (this : t) (line : Line3.t) : option Vector3.t :=
  let direction := Line3.delta line in
  let denominator := Vector3.dot (normal this) direction in
  if denominator =? zero then
    if distanceToPoint this (Line3.start line) =? zero then
      Some (Line3.start line)
    else
      None
  else
    let t :=
      - (Vector3.dot (Line3.start line) (normal this) + constant this)
      / denominator in
    if (t <? zero) || (t >? one) then
      None
    else
      Some (Vector3.add (Vector3.multiplyScalar direction t) (Line3.start line)).

Definition intersectsLine (this : t) (line : Line3.t) : bool :=
  let startSign := distanceToPoint this (Line3.start line) in
  let endSign := distanceToPoint this (Line3.end_ line) in
  ((startSign <? zero) && (endSign >? zero))
  || ((endSign <? zero) && (startSign >? zero)).

Definition coplanarPoint (this : t) : Vector3.t :=
  Vector3.multiplyScalar (normal this) (- constant this).

Definition translate (this : t) (offset : Vector3.t) : t :=
  mk (normal this) (constant this - Vector3.dot offset (normal this)).

Definition copy (this plane : t) : t :=
  mk (Vector3.copy (normal this) (normal plane)) (constant plane).

Definition equals (this plane : t) : bool :=
  Vector3.equals (normal plane) (normal this)
  && (constant plane =? constant this).

(** [new this.constructor()]: the plane of the default arguments. *)
Definition default : t := mk (Vector3.mk one zero zero) zero.

Definition clone (this : t) : t := copy default this.

End WithNum.
End Plane.

(** ** Ray.js *)

Module Ray.
Section WithNum.
Context {N : Num}.
Local Open Scope num_scope.

(** [direction] is assumed (not checked) to be of unit length. *)
Record t : Type := mk { origin : Vector3.t; direction : Vector3.t }.

Definition at_ (this : t) (s : num) : Vector3.t :=
  Vector3.add (Vector3.multiplyScalar (direction this) s) (origin this).

Definition recast (this : t) (s : num) : t :=
  mk (at_ this s) (direction this).

Definition closestPointToPoint (this : t) (point : Vector3.t) : Vector3.t :=
  let target := Vector3.subVectors point (origin this) in
  let directionDistance := Vector3.dot target (direction this) in
  if directionDistance <? zero then
    origin this
  else
    Vector3.add
      (Vector3.multiplyScalar (direction this) directionDistance)
      (origin this).

Definition distanceSqToPoint (this : t) (point : Vector3.t) : num :=
  let directionDistance :=
    Vector3.dot (Vector3.subVectors point (origin this)) (direction this) in
  if directionDistance <? zero then
    Vector3.distanceToSquared (origin this) point
  else
    let _vector :=
      Vector3.add
        (Vector3.multiplyScalar (direction this) directionDistance)
        (origin this) in
    Vector3.distanceToSquared _vector point.

Definition distanceToPoint (this : t) (point : Vector3.t) : num :=
  nsqrt (distanceSqToPoint this point).

(** What [distanceSqToSegment] hands back: the number it returns and the
    contents of the two optional output vectors after the call ([None]
    when the argument was not supplied). *)
Record SegmentDistance : Type := mkSegmentDistance {
  sqrDist : num;
  pointOnRay : option Vector3.t;
  pointOnSegment : option Vector3.t
}.

Definition distanceSqToSegment (this : t) (v0 v1 : Vector3.t)
    (optionalPointOnRay optionalPointOnSegment : option Vector3.t)
    : SegmentDistance :=
  let _segCenter := Vector3.multiplyScalar (Vector3.add v0 v1) half in
  let _segDir := Vector3.normalize (Vector3.sub v1 v0) in
  let _diff := Vector3.sub (origin this) _segCenter in
  let segExtent := Vector3.distanceTo v0 v1 * half in
  let a01 := - Vector3.dot (direction this) _segDir in
  let b0 := Vector3.dot _diff (direction this) in
  let b1 := - Vector3.dot _diff _segDir in
  let c := Vector3.lengthSq _diff in
  let det := nabs (one - a01 * a01) in
  let '(s0, s1, sqrDist) :=
    if det >? zero then
      (* The ray and segment are not parallel. *)
      let s0 := a01 * b1 - b0 in
      let s1 := a01 * b0 - b1 in
      let extDet := segExtent * det in
      if s0 >=? zero then
        if s1 >=? - extDet then
          if s1 <=? extDet then
            (* region 0 *)
            let invDet := one / det in
            let s0 := s0 * invDet in
            let s1 := s1 * invDet in
            (s0, s1,
             s0 * (s0 + a01 * s1 + two * b0)
             + s1 * (a01 * s0 + s1 + two * b1) + c)
          else
            (* region 1 *)
            let s1 := segExtent in
            let s0 := nmax zero (- (a01 * s1 + b0)) in
            (s0, s1, - s0 * s0 + s1 * (s1 + two * b1) + c)
        else
          (* region 5 *)
          let s1 := - segExtent in
          let s0 := nmax zero (- (a01 * s1 + b0)) in
          (s0, s1, - s0 * s0 + s1 * (s1 + two * b1) + c)
      else
        if s1 <=? - extDet then
          (* region 4 *)
          let s0 := nmax zero (- (- a01 * segExtent + b0)) in
          let s1 :=
            if s0 >? zero then - segExtent
            else nmin (nmax (- segExtent) (- b1)) segExtent in
          (s0, s1, - s0 * s0 + s1 * (s1 + two * b1) + c)
        else if s1 <=? extDet then
          (* region 3 *)
          let s0 := zero in
          let s1 := nmin (nmax (- segExtent) (- b1)) segExtent in
          (s0, s1, s1 * (s1 + two * b1) + c)
        else
          (* region 2 *)
          let s0 := nmax zero (- (a01 * segExtent + b0)) in
          let s1 :=
            if s0 >? zero then segExtent
            else nmin (nmax (- segExtent) (- b1)) segExtent in
          (s0, s1, - s0 * s0 + s1 * (s1 + two * b1) + c)
    else
      (* Ray and segment are parallel. *)
      let s1 := if a01 >? zero then - segExtent else segExtent in
      let s0 := nmax zero (- (a01 * s1 + b0)) in
      (s0, s1, - s0 * s0 + s1 * (s1 + two * b1) + c) in
  mkSegmentDistance sqrDist
    (match optionalPointOnRay with
     | Some _ =>
         Some (Vector3.add (Vector3.multiplyScalar (direction this) s0)
                 (origin this))
     | None => None
     end)
    (match optionalPointOnSegment with
     | Some _ =>
         Some (Vector3.add (Vector3.multiplyScalar _segDir s1) _segCenter)
     | None => None
     end).

(** [null] is [None]; otherwise the value written to [target]. *)
Definition intersectSphere (this : t) (sphere : Sphere.t)
    : option Vector3.t :=
  let _vector := Vector3.subVectors (Sphere.center sphere) (origin this) in
  let tca := Vector3.dot _vector (direction this) in
  let d2 := Vector3.dot _vector _vector - tca * tca in
  let radius2 := Sphere.radius sphere * Sphere.radius sphere in
  if d2 >? radius2 then None
  else
    let thc := nsqrt (radius2 - d2) in
    (* t0 = first intersect point - entrance on front of sphere *)
    let t0 := tca - thc in
    (* t1 = second intersect point - exit point on back of sphere *)
    let t1 := tca + thc in
    if (t0 <? zero) && (t1 <? zero) then None
    else if t0 <? zero then Some (at_ this t1)
    else Some (at_ this t0).

Definition intersectsSphere (this : t) (sphere : Sphere.t) : bool :=
  distanceSqToPoint this (Sphere.center sphere)
  <=? Sphere.radius sphere * Sphere.radius sphere.

(** [null] is [None]. *)
Definition distanceToPlane (this : t) (plane : Plane.t) : option num :=
  let denominator := Vector3.dot (Plane.normal plane) (direction this) in
  if denominator =? zero then
    if Plane.distanceToPoint plane (origin this) =? zero then
      Some zero
    else
      None
  else
    let t :=
      - (Vector3.dot (origin this) (Plane.normal plane) + Plane.constant plane)
      / denominator in
    if t >=? zero then Some t else None.

Definition intersectPlane (this : t) (plane : Plane.t) : option Vector3.t :=
  match distanceToPlane this plane with
  | None => None
  | Some t => Some (at_ this t)
  end.

Definition intersectsPlane (this : t) (plane : Plane.t) : bool :=
  let distToPoint := Plane.distanceToPoint plane (origin this) in
  if distToPoint =? zero then true
  else
    let denominator := Vector3.dot (Plane.normal plane) (direction this) in
    if denominator * distToPoint <? zero then true
    else false.

(** [null] is [None]; otherwise the value written to [target]. *)
Definition intersectBox (this : t) (box : Box3.t) : option Vector3.t :=
  let invdirx := one / Vector3.x (direction this) in
  let invdiry := one / Vector3.y (direction this) in
  let invdirz := one / Vector3.z (direction this) in
  let origin := origin this in
  let '(tmin, tmax) :=
    if invdirx >=? zero then
      ((Vector3.x (Box3.min box) - Vector3.x origin) * invdirx,
       (Vector3.x (Box3.max box) - Vector3.x origin) * invdirx)
    else
      ((Vector3.x (Box3.max box) - Vector3.x origin) * invdirx,
       (Vector3.x (Box3.min box) - Vector3.x origin) * invdirx) in
  let '(tymin, tymax) :=
    if invdiry >=? zero then
      ((Vector3.y (Box3.min box) - Vector3.y origin) * invdiry,
       (Vector3.y (Box3.max box) - Vector3.y origin) * invdiry)
    else
      ((Vector3.y (Box3.max box) - Vector3.y origin) * invdiry,
       (Vector3.y (Box3.min box) - Vector3.y origin) * invdiry) in
  if (tmin >? tymax) || (tymin >? tmax) then None
  else
    (* These lines also handle the case where tmin or tmax is NaN
       (result of 0 * Infinity). x !== x returns true if x is NaN *)
    let tmin := if (tymin >? tmin) || negb (tmin =? tmin) then tymin else tmin in
    let tmax := if (tymax <? tmax) || negb (tmax =? tmax) then tymax else tmax in
    let '(tzmin, tzmax) :=
      if invdirz >=? zero then
        ((Vector3.z (Box3.min box) - Vector3.z origin) * invdirz,
         (Vector3.z (Box3.max box) - Vector3.z origin) * invdirz)
      else
        ((Vector3.z (Box3.max box) - Vector3.z origin) * invdirz,
         (Vector3.z (Box3.min box) - Vector3.z origin) * invdirz) in
    if (tmin >? tzmax) || (tzmin >? tmax) then None
    else
      let tmin := if (tzmin >? tmin) || negb (tmin =? tmin) then tzmin else tmin in
      let tmax := if (tzmax <? tmax) || negb (tmax =? tmax) then tzmax else tmax in
      (* return point closest to the ray (positive side) *)
      if tmax <? zero then None
      else Some (at_ this (if tmin >=? zero then tmin else tmax)).

Definition intersectsBox (this : t) (box : Box3.t) : bool :=
  match intersectBox this box with
  | None => false
  | Some _ => true
  end.

(** [null] is [None]; otherwise the value written to [target].  The source
    sets [sign], replaces [DdN] by its absolute value and falls through to
    the code after the three-way test; [continue] is that code, taking the
    two variables the test has set.  The scratch vectors [_edge2] and
    [_edge1] are overwritten by the two cross products, as in the source. *)
Definition intersectTriangle (this : t) (a b c : Vector3.t)
    (backfaceCulling : bool) : option Vector3.t :=
  let _edge1 := Vector3.subVectors b a in
  let _edge2 := Vector3.subVectors c a in
  let _normal := Vector3.crossVectors _edge1 _edge2 in
  let DdN := Vector3.dot (direction this) _normal in
  let continue (sign DdN : num) : option Vector3.t :=
    let _diff := Vector3.subVectors (origin this) a in
    let _edge2 := Vector3.crossVectors _diff _edge2 in
    let DdQxE2 := sign * Vector3.dot (direction this) _edge2 in
    (* b1 < 0, no intersection *)
    if DdQxE2 <? zero then None
    else
      let _edge1 := Vector3.cross _edge1 _diff in
      let DdE1xQ := sign * Vector3.dot (direction this) _edge1 in
      (* b2 < 0, no intersection *)
      if DdE1xQ <? zero then None
      (* b1+b2 > 1, no intersection *)
      else if DdQxE2 + DdE1xQ >? DdN then None
      else
        (* Line intersects triangle, check if ray does. *)
        let QdN := - sign * Vector3.dot _diff _normal in
        (* t < 0, no intersection *)
        if QdN <? zero then None
        (* Ray intersects triangle. *)
        else Some (at_ this (QdN / DdN)) in
  if DdN >? zero then
    if backfaceCulling then None
    else continue one DdN
  else if DdN <? zero then
    continue (- one) (- DdN)
  else
    None.

Definition set (this : t) (origin direction : Vector3.t) : t :=
  match this with
  | mk this_origin this_direction =>
      mk (Vector3.copy this_origin origin)
         (Vector3.copy this_direction direction)
  end.

Definition copy (this ray : t) : t :=
  mk (Vector3.copy (origin this) (origin ray))
     (Vector3.copy (direction this) (direction ray)).

Definition lookAt (this : t) (v : Vector3.t) : t :=
  mk (origin this)
     (Vector3.normalize
        (Vector3.sub (Vector3.copy (direction this) v) (origin this))).

Definition equals (this ray : t) : bool :=
  Vector3.equals (origin ray) (origin this)
  && Vector3.equals (direction ray) (direction this).

(** [new this.constructor()]: the ray of the default arguments. *)
Definition default : t :=
  mk (Vector3.mk zero zero zero) (Vector3.mk zero zero (- one)).

Definition clone (this : t) : t := copy default this.

End WithNum.
End Ray.

(** ** The two readings of the number interface *)

(** *** IEEE 754 binary64: JavaScript's numbers *)

(** [Math.max] returns NaN when an argument is NaN and orders [-0] below
    [+0]; [Math.min] likewise. *)
Definition js_max (a b : float) : float :=
  if PrimFloat.is_nan a || PrimFloat.is_nan b then PrimFloat.nan
  else if PrimFloat.ltb a b then b
  else if PrimFloat.ltb b a then a
  else if PrimFloat.get_sign a then b else a.

Definition js_min (a b : float) : float :=
  if PrimFloat.is_nan a || PrimFloat.is_nan b then PrimFloat.nan
  else if PrimFloat.ltb a b then a
  else if PrimFloat.ltb b a then b
  else if PrimFloat.get_sign a then a else b.

Definition FloatNum : Num := {|
  num := float;
  zero := 0%float;
  one := 1%float;
  two := 2%float;
  half := 0.5%float;
  nadd := PrimFloat.add;
  nsub := PrimFloat.sub;
  nmul := PrimFloat.mul;
  ndiv := PrimFloat.div;
  nneg := PrimFloat.opp;
  nsqrt := PrimFloat.sqrt;
  nabs := PrimFloat.abs;
  nmax := js_max;
  nmin := js_min;
  nltb := PrimFloat.ltb;
  nleb := PrimFloat.leb;
  neqb := PrimFloat.eqb
|}.

(** *** Exact arithmetic: the real numbers *)

Definition Rltb (a b : R) : bool := if Rlt_dec a b then true else false.
Definition Rleb (a b : R) : bool := if Rle_dec a b then true else false.
Definition Reqb (a b : R) : bool := if Req_dec_T a b then true else false.

Definition RNum : Num := {|
  num := R;
  zero := 0%R;
  one := 1%R;
  two := 2%R;
  half := (1 / 2)%R;
  nadd := Rplus;
  nsub := Rminus;
  nmul := Rmult;
  ndiv := Rdiv;
  nneg := Ropp;
  nsqrt := R_sqrt.sqrt;
  nabs := Rabs;
  nmax := Rmax;
  nmin := Rmin;
  nltb := Rltb;
  nleb := Rleb;
  neqb := Reqb
|}.

(** *** Laws of the comparison operators that hold in both readings *)

Class NumLaws (N : Num) : Prop := {
  nltb_nleb_false :
    forall a b : num, (a <? b)%num = true -> (b <=? a)%num = false;
  nleb_nltb_false :
    forall a b : num, (a <=? b)%num = true -> (b <? a)%num = false
}.

Lemma Rltb_true (a b : R) : Rltb a b = true <-> (a < b)%R.
Proof. unfold Rltb. destruct (Rlt_dec a b); split; intros; auto; discriminate. Qed.

Lemma Rltb_false (a b : R) : Rltb a b = false <-> (b <= a)%R.
Proof.
  unfold Rltb. destruct (Rlt_dec a b); split; intros; auto; try discriminate; lra.
Qed.

Lemma Rleb_true (a b : R) : Rleb a b = true <-> (a <= b)%R.
Proof. unfold Rleb. destruct (Rle_dec a b); split; intros; auto; discriminate. Qed.

Lemma Rleb_false (a b : R) : Rleb a b = false <-> (b < a)%R.
Proof.
  unfold Rleb. destruct (Rle_dec a b); split; intros; auto; try discriminate; lra.
Qed.

Lemma Reqb_true (a b : R) : Reqb a b = true <-> a = b.
Proof. unfold Reqb. destruct (Req_dec_T a b); split; intros; auto; discriminate. Qed.

Lemma Reqb_false (a b : R) : Reqb a b = false <-> a <> b.
Proof.
  unfold Reqb. destruct (Req_dec_T a b); split; intros; auto; try discriminate.
  contradiction.
Qed.

Lemma RNumLaws : NumLaws RNum.
Proof.
  split; cbn; intros a b.
  - rewrite Rltb_true, Rleb_false. auto.
  - rewrite Rleb_true, Rltb_false. auto.
Qed.

(** On binary64 the two laws say that [<] and [<=] never hold in opposite
    directions at once; both are false as soon as an operand is NaN. *)

Lemma compare_cont_swap (p q : positive) :
  Pos.compare_cont Eq q p = CompOpp (Pos.compare_cont Eq p q).
Proof. now rewrite (Pos.compare_cont_antisym p q Eq). Qed.

Lemma SFcompare_swap (a b : spec_float) (c : comparison) :
  SFcompare a b = Some c -> SFcompare b a = Some (CompOpp c).
Proof.
  destruct a as [sa|sa| |sa ma ea], b as [sb|sb| |sb mb eb]; cbn;
    try destruct sa; try destruct sb; try discriminate;
    intros [= <-]; try reflexivity;
    rewrite (Z.compare_antisym ea eb), (compare_cont_swap ma mb);
    destruct (ea ?= eb)%Z; cbn; try reflexivity;
    destruct (Pos.compare_cont Eq ma mb); reflexivity.
Qed.

Lemma FloatNumLaws : NumLaws FloatNum.
Proof.
  split; cbn; intros a b; rewrite ltb_spec, leb_spec; unfold SFltb, SFleb.
  - destruct (SFcompare (Prim2SF a) (Prim2SF b)) as [[ | | ]|] eqn:E;
      try discriminate.
    intros _. now rewrite (SFcompare_swap _ _ _ E).
  - destruct (SFcompare (Prim2SF a) (Prim2SF b)) as [[ | | ]|] eqn:E;
      try discriminate; intros _.
    + now rewrite (SFcompare_swap _ _ _ E).
    + now rewrite (SFcompare_swap _ _ _ E).
Qed.

(** Further laws, of the sign of a number: equal numbers are not ordered,
    [Math.abs] is the identity on positive numbers and the negation on
    negative ones, the negation of a negative number is positive, and a
    quotient by a positive number is negative only if its numerator is. *)
Class SignLaws (N : Num) : Prop := {
  neqb_nltb_false :
    forall a b : num,
      (a =? b)%num = true -> (a <? b)%num = false /\ (b <? a)%num = false;
  nabs_positive :
    forall a : num, (zero <? a)%num = true -> nabs a = a;
  nabs_negative :
    forall a : num, (a <? zero)%num = true -> nabs a = (- a)%num;
  nneg_negative :
    forall a : num, (a <? zero)%num = true -> (zero <? - a)%num = true;
  ndiv_negative :
    forall a b : num,
      (zero <? b)%num = true -> (a / b <? zero)%num = true ->
      (a <? zero)%num = true
}.

Lemma RSignLaws : SignLaws RNum.
Proof.
  split; cbn.
  - intros a b. rewrite Reqb_true, !Rltb_false. intros ->. split; lra.
  - intros a. rewrite Rltb_true. intros H. apply Rabs_pos_eq. lra.
  - intros a. rewrite Rltb_true. intros H. apply Rabs_left. exact H.
  - intros a. rewrite !Rltb_true. lra.
  - intros a b. rewrite !Rltb_true. intros Hb H.
    destruct (Rlt_dec a 0) as [|Hn]; [assumption|]. exfalso.
    assert (0 <= a * / b)%R.
    { apply Rmult_le_pos; [lra|]. left. now apply Rinv_0_lt_compat. }
    unfold Rdiv in H. lra.
Qed.

(** The sign of a double that compares above or below zero. *)
Lemma SFltb_zero_l (x : spec_float) :
  SFltb (S754_zero false) x = true ->
  x = S754_infinity false \/ exists m e, x = S754_finite false m e.
Proof.
  destruct x as [s|s| |s m e]; cbn; try destruct s; try discriminate; intros _.
  - now left.
  - right. now exists m, e.
Qed.

Lemma SFltb_zero_r (x : spec_float) :
  SFltb x (S754_zero false) = true ->
  x = S754_infinity true \/ exists m e, x = S754_finite true m e.
Proof.
  destruct x as [s|s| |s m e]; cbn; try destruct s; try discriminate; intros _.
  - now left.
  - right. now exists m, e.
Qed.

(** Rounding keeps the sign it is given. *)
Lemma binary_round_aux_sign (s : bool) (m e : Z) (l : location) :
  SFltb (binary_round_aux prec emax s m e l) (S754_zero false) = true ->
  s = true.
Proof.
  destruct s; [reflexivity|]. unfold binary_round_aux.
  destruct (shr_fexp prec emax m e l) as [mrs' e'].
  destruct (shr_fexp prec emax _ e' loc_Exact) as [mrs'' e''].
  destruct (shr_m mrs'') as [|p|p]; cbn; try discriminate.
  destruct (e'' <=? 971)%Z; cbn; discriminate.
Qed.

Lemma FloatSignLaws : SignLaws FloatNum.
Proof.
  split; cbn.
  - intros a b. rewrite eqb_spec, !ltb_spec. unfold SFeqb, SFltb.
    destruct (SFcompare (Prim2SF a) (Prim2SF b)) as [[ | | ]|] eqn:E;
      try discriminate.
    intros _. now rewrite (SFcompare_swap _ _ _ E).
  - intros a. rewrite ltb_spec. change (Prim2SF 0) with (S754_zero false).
    intros H. apply Prim2SF_inj. rewrite abs_spec.
    destruct (SFltb_zero_l _ H) as [-> | [m [e ->]]]; reflexivity.
  - intros a. rewrite ltb_spec. change (Prim2SF 0) with (S754_zero false).
    intros H. apply Prim2SF_inj. rewrite abs_spec, opp_spec.
    destruct (SFltb_zero_r _ H) as [-> | [m [e ->]]]; reflexivity.
  - intros a. rewrite !ltb_spec, opp_spec.
    change (Prim2SF 0) with (S754_zero false).
    intros H.
    destruct (SFltb_zero_r _ H) as [-> | [m [e ->]]]; reflexivity.
  - intros a b. rewrite !ltb_spec, div_spec.
    change (Prim2SF 0) with (S754_zero false).
    intros Hb.
    destruct (SFltb_zero_l _ Hb) as [-> | [mb [eb ->]]];
      destruct (Prim2SF a) as [sa|sa| |sa ma ea]; cbn;
      try destruct sa; try discriminate; try reflexivity.
    unfold SF64div, SFdiv.
    destruct (SFdiv_core_binary prec emax (Z.pos ma) ea (Z.pos mb) eb)
      as [[mz ez] lz].
    intros H. apply binary_round_aux_sign in H. discriminate.
Qed.

(** * Statements that hold in every reading *)

Section AnyNumbers.
Context {N : Num} {L : NumLaws N}.
Local Open Scope num_scope.

(** C6: with [denominator = dot plane.normal direction],
    [distanceToPlane] tests [denominator === 0] exactly.  When the test
    succeeds it returns 0 if [plane.distanceToPoint(origin) === 0] and
    null otherwise.  When it fails, whatever the size of the denominator,
    it computes [t = - (dot origin normal + constant) / denominator] and
    returns [t] if [t >= 0] and null if [t < 0]. *)
Theorem distanceToPlane_cases (r : Ray.t) (p : Plane.t) :
  let denominator := Vector3.dot (Plane.normal p) (Ray.direction r) in
  let t :=
    - (Vector3.dot (Ray.origin r) (Plane.normal p) + Plane.constant p)
    / denominator in
  ((denominator =? zero) = true ->
     ((Plane.distanceToPoint p (Ray.origin r) =? zero) = true ->
        Ray.distanceToPlane r p = Some zero)
     /\ ((Plane.distanceToPoint p (Ray.origin r) =? zero) = false ->
        Ray.distanceToPlane r p = None))
  /\ ((denominator =? zero) = false ->
     ((t >=? zero) = true -> Ray.distanceToPlane r p = Some t)
     /\ ((t <? zero) = true -> Ray.distanceToPlane r p = None)).
Proof.
  intros denominator t. unfold Ray.distanceToPlane.
  fold denominator. cbv zeta. fold t.
  split; intros ->; split; intros H.
  - now rewrite H.
  - now rewrite H.
  - now rewrite H.
  - now rewrite (nltb_nleb_false _ _ H).
Qed.

(** C7: with [denominator = dot plane.normal (end - start)],
    [intersectLine] returns, when [denominator === 0], the start point if
    [plane.distanceToPoint(start) === 0] and null otherwise; when the
    denominator is not zero it computes
    [t = - (dot start normal + constant) / denominator] and returns null
    if [t < 0] or [t > 1], and otherwise the point
    [(end - start) * t + start]. *)
Theorem intersectLine_cases (p : Plane.t) (line : Line3.t) :
  let direction := Vector3.sub (Line3.end_ line) (Line3.start line) in
  let denominator := Vector3.dot (Plane.normal p) direction in
  let t :=
    - (Vector3.dot (Line3.start line) (Plane.normal p) + Plane.constant p)
    / denominator in
  ((denominator =? zero) = true ->
     ((Plane.distanceToPoint p (Line3.start line) =? zero) = true ->
        Plane.intersectLine p line = Some (Line3.start line))
     /\ ((Plane.distanceToPoint p (Line3.start line) =? zero) = false ->
        Plane.intersectLine p line = None))
  /\ ((denominator =? zero) = false ->
     ((t <? zero) = true \/ (one <? t) = true ->
        Plane.intersectLine p line = None)
     /\ ((t <? zero) = false -> (one <? t) = false ->
        Plane.intersectLine p line
        = Some (Vector3.add (Vector3.multiplyScalar direction t)
                  (Line3.start line)))).
Proof.
  intros direction denominator t. unfold Plane.intersectLine.
  change (Line3.delta line) with direction.
  fold denominator. cbv zeta. fold t.
  split; intros ->; split.
  - now intros ->.
  - now intros ->.
  - intros [-> | ->]; [reflexivity|]. now rewrite orb_true_r.
  - now intros -> ->.
Qed.

End AnyNumbers.

(** * IEEE 754 binary64 *)

Section IEEE754.
Local Existing Instance FloatNum.
Local Open Scope num_scope.

Definition isNaN (a : float) : Prop := Prim2SF a = S754_nan.

Lemma SFcompare_refl (a : spec_float) :
  a <> S754_nan -> SFcompare a a = Some Eq.
Proof.
  destruct a as [s|s| |s m e]; cbn; try destruct s; try reflexivity;
    try congruence; intros _;
    now rewrite Z.compare_refl, Pos.compare_cont_refl.
Qed.

(** [x !== x] holds of NaN and of nothing else. *)
Lemma self_unequal_isNaN (a : float) : negb (a =? a) = true <-> isNaN a.
Proof.
  cbn. rewrite eqb_spec. unfold SFeqb, isNaN. split.
  - intros H. destruct (Prim2SF a) as [s|s| |s m e] eqn:E; try reflexivity;
      rewrite SFcompare_refl in H by discriminate; discriminate.
  - intros ->. reflexivity.
Qed.

(** Every comparison with NaN is false, in both directions. *)
Lemma isNaN_comparisons (a b : float) :
  isNaN a ->
  (a <? b) = false /\ (b <? a) = false
  /\ (a <=? b) = false /\ (b <=? a) = false
  /\ (a =? b) = false /\ (b =? a) = false.
Proof.
  unfold isNaN. intros H. cbn.
  rewrite !ltb_spec, !leb_spec, !eqb_spec. unfold SFltb, SFleb, SFeqb.
  rewrite H. cbn. destruct (Prim2SF b); repeat split; reflexivity.
Qed.

(** ** The slab method, as the specification words it *)

(** One axis: the ray parameters at which the ray crosses the two planes
    of the slab [lo, hi], ordered by the sign of the reciprocal of the
    direction component. *)
Definition slab (lo hi o d : float) : float * float :=
  let inv := one / d in
  if zero <=? inv then ((lo - o) * inv, (hi - o) * inv)
  else ((hi - o) * inv, (lo - o) * inv).

Definition slabX (r : Ray.t) (b : Box3.t) : float * float :=
  slab (Vector3.x (Box3.min b)) (Vector3.x (Box3.max b))
    (Vector3.x (Ray.origin r)) (Vector3.x (Ray.direction r)).

Definition slabY (r : Ray.t) (b : Box3.t) : float * float :=
  slab (Vector3.y (Box3.min b)) (Vector3.y (Box3.max b))
    (Vector3.y (Ray.origin r)) (Vector3.y (Ray.direction r)).

Definition slabZ (r : Ray.t) (b : Box3.t) : float * float :=
  slab (Vector3.z (Box3.min b)) (Vector3.z (Box3.max b))
    (Vector3.z (Ray.origin r)) (Vector3.z (Ray.direction r)).

(** The slab interval [s] is empty relative to the running interval. *)
Definition emptyAgainst (running s : float * float) : bool :=
  (snd s <? fst running) || (snd running <? fst s).

(** Narrowing the running interval by a slab; a NaN running bound is
    replaced by the slab's bound. *)
Definition narrowMin (tmin smin : float) : float :=
  if PrimFloat.is_nan tmin then smin
  else if tmin <? smin then smin else tmin.

Definition narrowMax (tmax smax : float) : float :=
  if PrimFloat.is_nan tmax then smax
  else if smax <? tmax then smax else tmax.

Definition narrow (running s : float * float) : float * float :=
  (narrowMin (fst running) (fst s), narrowMax (snd running) (snd s)).

Definition slabMethod (r : Ray.t) (b : Box3.t) : option Vector3.t :=
  if emptyAgainst (slabX r b) (slabY r b) then None
  else
    let xy := narrow (slabX r b) (slabY r b) in
    if emptyAgainst xy (slabZ r b) then None
    else
      let xyz := narrow xy (slabZ r b) in
      let tmin := fst xyz in
      let tmax := snd xyz in
      if tmax <? zero then None
      else Some (Ray.at_ r (if zero <=? tmin then tmin else tmax)).

(** ** Concrete inputs *)

Definition vec (a b c : float) : Vector3.t := Vector3.mk a b c.

(** The default ray: from the world origin, looking down the z axis. *)
Definition ray_down : Ray.t := Ray.mk (vec 0 0 0) (vec 0 0 (-1)).
Definition sphere_ahead : Sphere.t := Sphere.mk (vec 0 0 (-5)) 1%float.
Definition sphere_behind : Sphere.t := Sphere.mk (vec 0 0 5) 1%float.

(** A ray that starts on the face [z = 1] and on the edge plane [x = -1]
    of the box [-1, 1]^3 and runs along the face [x = -1]. *)
Definition ray_grazing : Ray.t := Ray.mk (vec (-1) 0.5 1) (vec 0 0 (-1)).
Definition unit_box : Box3.t := Box3.mk (vec (-1) (-1) (-1)) (vec 1 1 1).

(** The two assignments [if (s > t || t !== t) t = s] and
    [if (s < t || t !== t) t = s] of the source are the two narrowings. *)
Lemma narrowMin_code (t s : float) :
  (if (s >? t) || negb (t =? t) then s else t) = narrowMin t s.
Proof.
  unfold narrowMin, PrimFloat.is_nan. cbn.
  destruct (PrimFloat.eqb t t), (PrimFloat.ltb t s); reflexivity.
Qed.

Lemma narrowMax_code (t s : float) :
  (if (s <? t) || negb (t =? t) then s else t) = narrowMax t s.
Proof.
  unfold narrowMax, PrimFloat.is_nan. cbn.
  destruct (PrimFloat.eqb t t), (PrimFloat.ltb s t); reflexivity.
Qed.

Lemma intersectBox_is_slabMethod (r : Ray.t) (b : Box3.t) :
  Ray.intersectBox r b = slabMethod r b.
Proof.
  unfold Ray.intersectBox, slabMethod, slabX, slabY, slabZ, slab,
    emptyAgainst, narrow.
  destruct (zero <=? one / Vector3.x (Ray.direction r));
  destruct (zero <=? one / Vector3.y (Ray.direction r));
  destruct (zero <=? one / Vector3.z (Ray.direction r));
  cbv beta iota zeta; cbn [fst snd];
    rewrite !narrowMin_code, !narrowMax_code; reflexivity.
Qed.

(** C4: [intersectBox] is the slab method on the reciprocals of the
    direction components.  It returns null when the y slab is empty
    against the x slab, when the z slab is empty against the interval
    narrowed so far, or when the final [tmax] is negative; otherwise it
    returns [at tmin] when [tmin >= 0] and [at tmax] when [tmin < 0].  A
    NaN bound ([0 * Infinity]) in the running interval is replaced by the
    next slab's bound, and a NaN bound of the next slab leaves the running
    one in place, every comparison with NaN being false.  The ray
    from (-1, 0.5, 1) along (0, 0, -1) meets the box [-1, 1]^3 at
    (-1, 0.5, 1): its x slab is (NaN, +Infinity), the NaN gives way to the
    -Infinity of the y slab, and the final interval is (-0, 2). *)
Theorem intersectBox_slab_method :
  (forall (r : Ray.t) (b : Box3.t),
     let xy := narrow (slabX r b) (slabY r b) in
     let tmin := fst (narrow xy (slabZ r b)) in
     let tmax := snd (narrow xy (slabZ r b)) in
     Ray.intersectBox r b = slabMethod r b
     /\ (emptyAgainst (slabX r b) (slabY r b) = true ->
         Ray.intersectBox r b = None)
     /\ (emptyAgainst xy (slabZ r b) = true -> Ray.intersectBox r b = None)
     /\ ((tmax <? zero) = true -> Ray.intersectBox r b = None)
     /\ (emptyAgainst (slabX r b) (slabY r b) = false ->
         emptyAgainst xy (slabZ r b) = false ->
         (tmax <? zero) = false ->
         ((tmin >=? zero) = true -> Ray.intersectBox r b = Some (Ray.at_ r tmin))
         /\ ((tmin <? zero) = true -> Ray.intersectBox r b = Some (Ray.at_ r tmax))))
  /\ (forall t s : float,
        isNaN t ->
        narrowMin t s = s /\ narrowMax t s = s
        /\ narrowMin s t = s /\ narrowMax s t = s
        /\ (t <? s) = false /\ (s <? t) = false)
  /\ isNaN (zero * (one / zero))
  /\ slabX ray_grazing unit_box = (PrimFloat.nan, PrimFloat.infinity)
  /\ narrow (slabX ray_grazing unit_box) (slabY ray_grazing unit_box)
     = (PrimFloat.neg_infinity, PrimFloat.infinity)
  /\ narrow (narrow (slabX ray_grazing unit_box) (slabY ray_grazing unit_box))
       (slabZ ray_grazing unit_box)
     = (PrimFloat.neg_zero, 2%float)
  /\ Ray.intersectBox ray_grazing unit_box = Some (vec (-1) 0.5 1).
Proof.
  split; [|split; [|split; [|split; [|split; [|split]]]]].
  - intros r b xy tmin tmax.
    rewrite intersectBox_is_slabMethod. unfold slabMethod.
    fold xy. cbv zeta. fold tmin tmax.
    cbn [nltb nleb zero FloatNum].
    destruct (emptyAgainst (slabX r b) (slabY r b)),
      (emptyAgainst xy (slabZ r b)), (PrimFloat.ltb tmax 0) eqn:E;
      repeat split; intros; try reflexivity; try discriminate.
    + match goal with H : PrimFloat.leb _ _ = true |- _ => now rewrite H end.
    + match goal with H : PrimFloat.ltb tmin _ = true |- _ =>
        pose proof (nltb_nleb_false (NumLaws := FloatNumLaws) _ _ H) as L
      end.
      change (PrimFloat.leb 0 tmin = false) in L. now rewrite L.
  - intros t s H.
    destruct (isNaN_comparisons t s H) as [H1 [H2 _]].
    pose proof H as Hnan. apply self_unequal_isNaN in Hnan.
    change (PrimFloat.is_nan t = true) in Hnan.
    cbn [nltb FloatNum] in H1, H2. cbn [nltb FloatNum].
    unfold narrowMin, narrowMax. cbn [nltb FloatNum]. rewrite Hnan, H1, H2.
    repeat split.
    + destruct (PrimFloat.is_nan s) eqn:Es; [|reflexivity].
      change (negb (s =? s) = true) in Es. apply self_unequal_isNaN in Es.
      apply Prim2SF_inj. unfold isNaN in *. congruence.
    + destruct (PrimFloat.is_nan s) eqn:Es; [|reflexivity].
      change (negb (s =? s) = true) in Es. apply self_unequal_isNaN in Es.
      apply Prim2SF_inj. unfold isNaN in *. congruence.
  - reflexivity.
  - reflexivity.
  - reflexivity.
  - reflexivity.
  - reflexivity.
Qed.

(** A ray that is almost, but not exactly, parallel to the plane [z = 0]:
    the exact test sends it to the division, which yields [2^1000]. *)
Definition plane_xy : Plane.t := Plane.mk (vec 0 0 1) 0%float.
Definition ray_near_parallel : Ray.t :=
  Ray.mk (vec 0 0 1) (vec 1 0 (-0x1p-1000)).

Lemma distanceToPlane_cases_witness :
  NumLaws FloatNum
  /\ Ray.distanceToPlane ray_near_parallel plane_xy = Some 0x1p1000%float.
Proof.
  split; [exact FloatNumLaws|].
  exact (proj1 (proj2 (distanceToPlane_cases (L := FloatNumLaws)
                         ray_near_parallel plane_xy) eq_refl) eq_refl).
Defined.

(** On binary64 the two sphere tests can part through rounding alone.
    With the sphere of center (0, 0, 2^-600) and radius 2^-601, entirely
    behind the origin of [ray_down], both squares underflow to zero:
    [intersectsSphere] compares 0 with 0 and answers true, whereas
    [intersectSphere] finds [t0 = t1 = - 2^-600 < 0] and answers null.  In
    exact arithmetic no such sphere exists ([sphere_tests_agree] below). *)
Definition sphere_tiny_behind : Sphere.t :=
  Sphere.mk (vec 0 0 0x1p-600) 0x1p-601%float.

Remark sphere_tests_part_by_underflow :
  Vector3.dot (Ray.direction ray_down) (Ray.direction ray_down) = one
  /\ (Vector3.dot
        (Vector3.sub (Sphere.center sphere_tiny_behind) (Ray.origin ray_down))
        (Ray.direction ray_down)
      + Sphere.radius sphere_tiny_behind <? zero) = true
  /\ Ray.intersectsSphere ray_down sphere_tiny_behind = true
  /\ Ray.intersectSphere ray_down sphere_tiny_behind = None.
Proof. repeat split; reflexivity. Qed.

(** A segment through the plane [z = 0], and one lying in it. *)
Definition line_through : Line3.t := Line3.mk (vec 0 0 1) (vec 0 0 (-3)).
Definition line_within : Line3.t := Line3.mk (vec 1 2 0) (vec 3 2 0).
Definition line_above : Line3.t := Line3.mk (vec 0 0 1) (vec 0 0 3).

Example intersectLine_examples :
  Plane.intersectLine plane_xy line_through = Some (vec 0 0 0)
  /\ Plane.intersectLine plane_xy line_within = Some (vec 1 2 0)
  /\ Plane.intersectLine plane_xy line_above = None.
Proof. repeat split; reflexivity. Qed.

(** A triangle in the plane [z = -3] around the z axis, seen from its
    front and from its back by [ray_down]. *)
Example intersectTriangle_examples :
  Ray.intersectTriangle ray_down
    (vec (-1) (-1) (-3)) (vec 1 (-1) (-3)) (vec 0 1 (-3)) true
  = Some (vec 0 0 (-3))
  /\ Ray.intersectTriangle ray_down
       (vec (-1) (-1) (-3)) (vec 0 1 (-3)) (vec 1 (-1) (-3)) true
     = None
  /\ Ray.intersectTriangle ray_down
       (vec (-1) (-1) (-3)) (vec 0 1 (-3)) (vec 1 (-1) (-3)) false
     = Some (vec 0 0 (-3)).
Proof. repeat split; reflexivity. Qed.

Example distanceSqToSegment_example :
  Ray.distanceSqToSegment ray_down (vec 1 (-1) (-2)) (vec 1 1 (-2))
    (Some (vec 0 0 0)) (Some (vec 0 0 0))
  = Ray.mkSegmentDistance 1%float (Some (vec 0 0 (-2))) (Some (vec 1 0 (-2))).
Proof. reflexivity. Qed.

(** ** Copies and comparisons *)

Definition hasNaN (v : Vector3.t) : Prop :=
  isNaN (Vector3.x v) \/ isNaN (Vector3.y v) \/ isNaN (Vector3.z v).

Lemma self_equal_false (a : float) : (a =? a) = false <-> isNaN a.
Proof. rewrite <- self_unequal_isNaN. apply iff_sym, negb_true_iff. Qed.

Lemma vector_equals_self (v : Vector3.t) :
  Vector3.equals v v = false <-> hasNaN v.
Proof.
  destruct v as [a b c]. unfold Vector3.equals, hasNaN.
  cbn [Vector3.x Vector3.y Vector3.z].
  rewrite !andb_false_iff, !self_equal_false. tauto.
Qed.

(** X25: on binary64 a ray is unequal to its own [clone], for [equals],
    exactly when a component of its origin or of its direction is NaN. *)
Theorem ray_clone_unequal_iff_NaN (r : Ray.t) :
  Ray.equals (Ray.clone r) r = false
  <-> hasNaN (Ray.origin r) \/ hasNaN (Ray.direction r).
Proof.
  destruct r as [o d]. unfold Ray.equals, Ray.clone, Ray.copy.
  cbn [Ray.origin Ray.direction].
  rewrite andb_false_iff, <- !vector_equals_self.
  destruct o as [ox oy oz], d as [dx dy dz]. reflexivity.
Qed.

(** X26: on binary64 a plane is unequal to its own [clone], for [equals],
    exactly when a component of its normal, or its constant, is NaN. *)
Theorem plane_clone_unequal_iff_NaN (p : Plane.t) :
  Plane.equals (Plane.clone p) p = false
  <-> hasNaN (Plane.normal p) \/ isNaN (Plane.constant p).
Proof.
  destruct p as [n c]. unfold Plane.equals, Plane.clone, Plane.copy.
  cbn [Plane.normal Plane.constant].
  rewrite andb_false_iff, <- vector_equals_self, <- self_equal_false.
  destruct n as [nx ny nz]. reflexivity.
Qed.

End IEEE754.

(** * Exact arithmetic *)

Section ExactArithmetic.
Local Existing Instance RNum.
Local Open Scope R_scope.

(** ** Vectors over the reals *)

Ltac rsimpl := cbn in *; change (@num RNum) with R in *.

(** Turn the outcome of a comparison into the (in)equality it decides. *)
Ltac rprop :=
  repeat match goal with
  | H : Rltb _ _ = true |- _ => apply Rltb_true in H
  | H : Rltb _ _ = false |- _ => apply Rltb_false in H
  | H : Rleb _ _ = true |- _ => apply Rleb_true in H
  | H : Rleb _ _ = false |- _ => apply Rleb_false in H
  | H : Reqb _ _ = true |- _ => apply Reqb_true in H
  | H : Reqb _ _ = false |- _ => apply Reqb_false in H
  | |- Rltb _ _ = true => apply Rltb_true
  | |- Rltb _ _ = false => apply Rltb_false
  | |- Rleb _ _ = true => apply Rleb_true
  | |- Rleb _ _ = false => apply Rleb_false
  | |- Reqb _ _ = true => apply Reqb_true
  | |- Reqb _ _ = false => apply Reqb_false
  end.

Ltac vsimpl :=
  unfold Vector3.cross, Vector3.crossVectors, Vector3.subVectors, Vector3.sub,
    Vector3.add, Vector3.multiplyScalar, Vector3.negate, Vector3.dot,
    Vector3.lengthSq, Vector3.distanceToSquared in *;
  rsimpl.

Definition unitLength (v : Vector3.t) : Prop := Vector3.dot v v = 1.

Lemma sqrt_sq_nonneg (a : R) : 0 <= a -> 0 <= sqrt a /\ sqrt a * sqrt a = a.
Proof.
  intros Ha. split.
  - apply sqrt_pos.
  - now apply sqrt_sqrt.
Qed.

Lemma lengthSq_nonneg (v : Vector3.t) : 0 <= Vector3.lengthSq v.
Proof. destruct v as [a b c]. cbn. nra. Qed.

Lemma length_nonzero_pos (v : Vector3.t) :
  Vector3.length v <> 0 -> 0 < Vector3.length v.
Proof.
  intros H. unfold Vector3.length in *. cbn in *.
  pose proof (sqrt_pos (Vector3.lengthSq v)). cbn in *. lra.
Qed.

Lemma truthy_R (a : R) : truthy a = negb (Reqb a 0).
Proof.
  unfold truthy. cbn. replace (Reqb a a) with true.
  - now rewrite andb_true_r.
  - symmetry. now apply Reqb_true.
Qed.

(** Normalising multiplies by [1 / length], or by [1] for the zero vector. *)
Lemma normalize_scale (v : Vector3.t) :
  exists k : R,
    Vector3.normalize v = Vector3.multiplyScalar v k
    /\ (Vector3.lengthSq v <> 0 -> 0 < k /\ k * k * Vector3.lengthSq v = 1).
Proof.
  unfold Vector3.normalize. rewrite truthy_R.
  destruct (Reqb (Vector3.length v) 0) eqn:E; cbn [negb].
  - exists (1 / 1). split; [reflexivity|].
    intros Hne. exfalso. apply Reqb_true in E.
    unfold Vector3.length in E. cbn in E.
    apply sqrt_eq_0 in E; [contradiction | apply lengthSq_nonneg].
  - exists (1 / Vector3.length v). split; [reflexivity|].
    intros _. apply Reqb_false in E.
    pose proof (length_nonzero_pos v E) as Hpos.
    destruct (sqrt_sq_nonneg _ (lengthSq_nonneg v)) as [_ Hsq].
    change (sqrt (Vector3.lengthSq v)) with (Vector3.length v) in Hsq.
    split.
    + apply Rdiv_lt_0_compat; lra.
    + rewrite <- Hsq. field. lra.
Qed.

(** ** Plane *)

(** C10: for a plane whose normal has nonzero length, [normalize]
    multiplies the normal and the constant by the same positive factor
    [1 / |normal|]; hence every signed distance is multiplied by that
    factor, its sign is preserved, and the points at signed distance zero
    are the same: the normalized plane is the same geometric plane. *)
Theorem normalize_same_plane (p : Plane.t) :
  Vector3.length (Plane.normal p) <> 0 ->
  let k := 1 / Vector3.length (Plane.normal p) in
  0 < k
  /\ Plane.normal (Plane.normalize p)
     = Vector3.multiplyScalar (Plane.normal p) k
  /\ Plane.constant (Plane.normalize p) = Plane.constant p * k
  /\ forall q : Vector3.t,
       let d := Plane.distanceToPoint p q in
       let d' := Plane.distanceToPoint (Plane.normalize p) q in
       d' = k * d
       /\ (0 < d' <-> 0 < d) /\ (d' < 0 <-> d < 0) /\ (d' = 0 <-> d = 0).
Proof.
  intros Hlen k.
  assert (Hk : 0 < k).
  { apply Rdiv_lt_0_compat; [lra | now apply length_nonzero_pos]. }
  split; [exact Hk|]. split; [reflexivity|]. split; [reflexivity|].
  intros q d d'.
  assert (Hd : d' = k * d).
  { subst d d'. unfold Plane.normalize. fold k.
    destruct p as [[nx ny nz] c], q as [qx qy qz]. subst k. rsimpl. ring. }
  split; [exact Hd|]. rewrite Hd.
  repeat split; intros; nra.
Qed.

Definition plane_2z_plus_4 : Plane.t :=
  Plane.mk (Vector3.mk 0 0 2) 4.

Lemma normalize_same_plane_witness :
  Vector3.length (Plane.normal plane_2z_plus_4) <> 0
  /\ 0 < 1 / Vector3.length (Plane.normal plane_2z_plus_4).
Proof.
  assert (H : Vector3.length (Plane.normal plane_2z_plus_4) <> 0).
  { cbn. apply Rgt_not_eq. apply sqrt_lt_R0. lra. }
  split; [exact H|].
  exact (proj1 (normalize_same_plane plane_2z_plus_4 H)).
Defined.

(** C8: after [setFromCoplanarPoints a b c] the normal is
    [normalize (cross (c - b) (a - b))], the constant is [- dot a normal],
    and the three points are at signed distance zero from the plane; for
    points that are not collinear the normal moreover has unit length. *)
Theorem setFromCoplanarPoints_distance_zero (this : Plane.t)
    (a b c : Vector3.t) :
  Vector3.cross (Vector3.subVectors c b) (Vector3.subVectors a b)
    <> Vector3.mk 0 0 0 ->
  let plane := Plane.setFromCoplanarPoints this a b c in
  Plane.normal plane
    = Vector3.normalize
        (Vector3.cross (Vector3.subVectors c b) (Vector3.subVectors a b))
  /\ Plane.constant plane = - Vector3.dot a (Plane.normal plane)
  /\ Plane.distanceToPoint plane a = 0
  /\ Plane.distanceToPoint plane b = 0
  /\ Plane.distanceToPoint plane c = 0
  /\ unitLength (Plane.normal plane).
Proof.
  intros Hnc plane. subst plane. unfold Plane.setFromCoplanarPoints.
  destruct (normalize_scale
              (Vector3.cross (Vector3.subVectors c b) (Vector3.subVectors a b)))
    as [k [Hn Hk]].
  rewrite Hn.
  destruct a as [ax ay az], b as [bx by_ bz], c as [cx cy cz].
  rsimpl.
  split; [reflexivity|]. split; [reflexivity|].
  split; [ring|]. split; [ring|]. split; [ring|].
  unfold unitLength. cbn.
  assert (Hne : (cy - by_) * (az - bz) - (cz - bz) * (ay - by_) <> 0
                \/ (cz - bz) * (ax - bx) - (cx - bx) * (az - bz) <> 0
                \/ (cx - bx) * (ay - by_) - (cy - by_) * (ax - bx) <> 0).
  { destruct (Req_dec ((cy - by_) * (az - bz) - (cz - bz) * (ay - by_)) 0)
      as [E1|]; [|auto].
    destruct (Req_dec ((cz - bz) * (ax - bx) - (cx - bx) * (az - bz)) 0)
      as [E2|]; [|auto].
    destruct (Req_dec ((cx - bx) * (ay - by_) - (cy - by_) * (ax - bx)) 0)
      as [E3|]; [|auto].
    exfalso. apply Hnc. vsimpl. f_equal; assumption. }
  destruct Hk as [_ Hk].
  - set (u := (cy - by_) * (az - bz) - (cz - bz) * (ay - by_)) in *.
    set (v := (cz - bz) * (ax - bx) - (cx - bx) * (az - bz)) in *.
    set (w := (cx - bx) * (ay - by_) - (cy - by_) * (ax - bx)) in *.
    destruct Hne as [H|[H|H]]; nra.
  - rewrite <- Hk. ring.
Qed.

Definition pt_100 : Vector3.t := Vector3.mk 1 0 0.
Definition pt_000 : Vector3.t := Vector3.mk 0 0 0.
Definition pt_010 : Vector3.t := Vector3.mk 0 1 0.

Lemma setFromCoplanarPoints_distance_zero_witness :
  Vector3.cross (Vector3.subVectors pt_010 pt_000)
    (Vector3.subVectors pt_100 pt_000)
    <> Vector3.mk 0 0 0
  /\ Plane.distanceToPoint
       (Plane.setFromCoplanarPoints plane_2z_plus_4 pt_100 pt_000 pt_010)
       pt_010
     = 0.
Proof.
  assert (H : Vector3.cross (Vector3.subVectors pt_010 pt_000)
                (Vector3.subVectors pt_100 pt_000) <> Vector3.mk 0 0 0).
  { cbn. intros [= _ _ E]. lra. }
  split; [exact H|].
  exact (proj1 (proj2 (proj2 (proj2 (proj2
    (setFromCoplanarPoints_distance_zero
       plane_2z_plus_4 pt_100 pt_000 pt_010 H)))))).
Defined.

(** In exact arithmetic the parameter [distanceToPlane] returns is not
    negative and leads to a point of the plane. *)
Lemma distanceToPlane_sound (r : Ray.t) (p : Plane.t) (t : R) :
  Ray.distanceToPlane r p = Some t ->
  0 <= t /\ Plane.distanceToPoint p (Ray.at_ r t) = 0.
Proof.
  unfold Ray.distanceToPlane, Plane.distanceToPoint, Ray.at_.
  destruct r as [[ox oy oz] [dx dy dz]], p as [[nx ny nz] k]. vsimpl.
  destruct (Reqb (nx * dx + ny * dy + nz * dz) 0) eqn:Eden; rprop.
  - destruct (Reqb (nx * ox + ny * oy + nz * oz + k) 0) eqn:Edist;
      [|discriminate].
    rprop. intros [= <-]. split; lra.
  - destruct (Rleb 0 _) eqn:Et; [|discriminate].
    rprop. intros [= <-]. split; [exact Et|]. field. exact Eden.
Qed.

(** In exact arithmetic the point [intersectLine] returns lies on the
    plane and between the endpoints of the segment. *)
Lemma intersectLine_sound (p : Plane.t) (line : Line3.t) (q : Vector3.t) :
  Plane.intersectLine p line = Some q ->
  Plane.distanceToPoint p q = 0
  /\ exists t : R,
       0 <= t <= 1
       /\ q = Vector3.add (Line3.start line)
                (Vector3.multiplyScalar
                   (Vector3.sub (Line3.end_ line) (Line3.start line)) t).
Proof.
  unfold Plane.intersectLine, Plane.distanceToPoint, Line3.delta.
  destruct line as [[sx sy sz] [ex ey ez]], p as [[nx ny nz] k]. vsimpl.
  destruct (Reqb (nx * (ex - sx) + ny * (ey - sy) + nz * (ez - sz)) 0)
    eqn:Eden; rprop.
  - destruct (Reqb (nx * sx + ny * sy + nz * sz + k) 0) eqn:Edist;
      [|discriminate].
    rprop. intros [= <-]. split; [exact Edist|].
    exists 0. split; [lra|]. f_equal; ring.
  - set (t := - (sx * nx + sy * ny + sz * nz + k)
              / (nx * (ex - sx) + ny * (ey - sy) + nz * (ez - sz))).
    destruct (Rltb t 0) eqn:E0; [discriminate|].
    destruct (Rltb 1 t) eqn:E1; [discriminate|].
    rprop. cbn [orb]. intros [= <-]. split.
    + cbn [Vector3.x Vector3.y Vector3.z]. unfold t. field. exact Eden.
    + exists t. split; [lra|]. f_equal; ring.
Qed.

(** ** Ray and sphere *)

(** The sphere lies entirely behind (ahead of) the ray's origin when each
    of its points has a negative (positive) coordinate along the ray. *)
Definition entirelyBehind (r : Ray.t) (s : Sphere.t) : Prop :=
  forall p : Vector3.t,
    Sphere.containsPoint s p = true ->
    Vector3.dot (Vector3.sub p (Ray.origin r)) (Ray.direction r) < 0.

Definition entirelyAhead (r : Ray.t) (s : Sphere.t) : Prop :=
  forall p : Vector3.t,
    Sphere.containsPoint s p = true ->
    0 < Vector3.dot (Vector3.sub p (Ray.origin r)) (Ray.direction r).

(** For a unit direction the clamped squared distance of [distanceSqToPoint]
    is [|v|^2 - tca^2] ahead of the origin and [|v|^2] behind it, where
    [v = point - origin] and [tca = dot v direction]. *)
Lemma distanceSqToPoint_unit (r : Ray.t) (q : Vector3.t) :
  unitLength (Ray.direction r) ->
  let v := Vector3.subVectors q (Ray.origin r) in
  let tca := Vector3.dot v (Ray.direction r) in
  Ray.distanceSqToPoint r q
  = if Rltb tca 0 then Vector3.dot v v else Vector3.dot v v - tca * tca.
Proof.
  intros U v tca. subst v tca. unfold Ray.distanceSqToPoint.
  destruct r as [[ox oy oz] [dx dy dz]], q as [qx qy qz].
  unfold unitLength in U. vsimpl.
  destruct (Rltb _ 0); [ring|].
  set (tca := (qx - ox) * dx + (qy - oy) * dy + (qz - oz) * dz).
  replace ((dx * tca + ox - qx) * (dx * tca + ox - qx)
           + (dy * tca + oy - qy) * (dy * tca + oy - qy)
           + (dz * tca + oz - qz) * (dz * tca + oz - qz))
    with ((qx - ox) * (qx - ox) + (qy - oy) * (qy - oy) + (qz - oz) * (qz - oz)
          - tca * tca + tca * tca * (dx * dx + dy * dy + dz * dz - 1)).
  - rewrite U. ring.
  - unfold tca. ring.
Qed.

(** In exact arithmetic the cheap test and the constructive test give the
    same answer for every sphere, whatever its position. *)
Lemma sphere_tests_agree (r : Ray.t) (s : Sphere.t) :
  unitLength (Ray.direction r) ->
  Ray.intersectsSphere r s = true <-> Ray.intersectSphere r s <> None.
Proof.
  intros U. unfold Ray.intersectsSphere.
  rewrite (distanceSqToPoint_unit r (Sphere.center s) U).
  unfold Ray.intersectSphere. cbv zeta.
  set (v := Vector3.subVectors (Sphere.center s) (Ray.origin r)).
  set (tca := Vector3.dot v (Ray.direction r)).
  set (vv := Vector3.dot v v).
  set (r2 := (Sphere.radius s * Sphere.radius s)%num).
  change (@num RNum) with R in *. cbn [nltb nleb nsub nadd nmul nsqrt zero RNum].
  set (d2 := vv - tca * tca).
  destruct (Rltb r2 d2) eqn:E1; rprop.
  - split; [|congruence]. intros H. exfalso.
    destruct (Rltb tca 0) eqn:E2; rprop; subst d2; nra.
  - destruct (sqrt_sq_nonneg (r2 - d2)) as [Hp Hs]; [lra|].
    set (thc := sqrt (r2 - d2)) in *.
    destruct (Rltb tca 0) eqn:E2, (Rltb (tca - thc) 0) eqn:E3,
      (Rltb (tca + thc) 0) eqn:E4; cbn [andb]; rprop;
      (split; [intros H; rprop; try discriminate; exfalso; subst d2; nra
              | intros H; rprop; try congruence; subst d2; nra]).
Qed.

(** In exact arithmetic and for a unit direction, the point
    [intersectSphere] returns is on the ray, not behind its origin, and on
    the surface of the sphere. *)
Lemma intersectSphere_sound (r : Ray.t) (s : Sphere.t) (p : Vector3.t) :
  unitLength (Ray.direction r) ->
  Ray.intersectSphere r s = Some p ->
  exists t : R,
    0 <= t /\ p = Ray.at_ r t
    /\ Vector3.distanceToSquared p (Sphere.center s)
       = Sphere.radius s * Sphere.radius s.
Proof.
  intros U. unfold Ray.intersectSphere. cbv zeta.
  set (v := Vector3.subVectors (Sphere.center s) (Ray.origin r)).
  set (tca := Vector3.dot v (Ray.direction r)).
  set (vv := Vector3.dot v v).
  set (r2 := (Sphere.radius s * Sphere.radius s)%num).
  change (@num RNum) with R in *. cbn [nltb nleb nsub nadd nmul nsqrt zero RNum].
  destruct (Rltb r2 (vv - tca * tca)) eqn:E1; [discriminate|]. rprop.
  destruct (sqrt_sq_nonneg (r2 - (vv - tca * tca))) as [Hp Hs]; [lra|].
  set (thc := sqrt (r2 - (vv - tca * tca))) in *.
  assert (Hsurface : forall t : R,
             (t - tca) * (t - tca) = thc * thc ->
             Vector3.distanceToSquared (Ray.at_ r t) (Sphere.center s) = r2).
  { intros t Ht. unfold Ray.at_.
    assert (E : Vector3.distanceToSquared
                  (Vector3.add (Vector3.multiplyScalar (Ray.direction r) t)
                     (Ray.origin r)) (Sphere.center s)
                = (t - tca) * (t - tca) - tca * tca + vv
                  + t * t * (Vector3.dot (Ray.direction r) (Ray.direction r) - 1)).
    { subst tca vv v. clear.
      destruct r as [[ox oy oz] [dx dy dz]], s as [[cx cy cz] rad]. vsimpl. ring. }
    rewrite E, U, Ht, Hs. change (@num RNum) with R. ring. }
  destruct (Rltb (tca - thc) 0) eqn:E2, (Rltb (tca + thc) 0) eqn:E3;
    cbn [andb]; try discriminate; rprop; intros [= <-].
  - exists (tca + thc). repeat split; [lra | apply Hsurface; ring].
  - exists (tca - thc). repeat split; [lra | apply Hsurface; ring].
  - exists (tca - thc). repeat split; [lra | apply Hsurface; ring].
Qed.

(** With a unit direction, [dot v v - tca^2] is the squared distance from
    the point to the ray's supporting line, hence not negative. *)
Lemma d2_nonneg (v d : Vector3.t) :
  unitLength d ->
  0 <= Vector3.dot v v - Vector3.dot v d * Vector3.dot v d.
Proof.
  destruct v as [a b c], d as [dx dy dz]. unfold unitLength. vsimpl.
  intros U.
  replace ((a * a + b * b + c * c)
           - (a * dx + b * dy + c * dz) * (a * dx + b * dy + c * dz))
    with ((a * a + b * b + c * c) * (dx * dx + dy * dy + dz * dz)
          - (a * dx + b * dy + c * dz) * (a * dx + b * dy + c * dz))
    by (rewrite U; ring).
  replace ((a * a + b * b + c * c) * (dx * dx + dy * dy + dz * dz)
           - (a * dx + b * dy + c * dz) * (a * dx + b * dy + c * dz))
    with ((b * dz - c * dy) * (b * dz - c * dy)
          + (c * dx - a * dz) * (c * dx - a * dz)
          + (a * dy - b * dx) * (a * dy - b * dx)) by ring.
  generalize (b * dz - c * dy), (c * dx - a * dz), (a * dy - b * dx).
  intros p q r. nra.
Qed.

(** A sphere entirely behind the origin has its center further behind
    than its radius. *)
Lemma entirelyBehind_tca (r : Ray.t) (s : Sphere.t) :
  unitLength (Ray.direction r) ->
  entirelyBehind r s ->
  let tca :=
    Vector3.dot (Vector3.subVectors (Sphere.center s) (Ray.origin r))
      (Ray.direction r) in
  tca + Sphere.radius s < 0 /\ tca - Sphere.radius s < 0.
Proof.
  intros U B. cbv zeta.
  pose proof (B (Vector3.add (Sphere.center s)
                   (Vector3.multiplyScalar (Ray.direction r) (Sphere.radius s)))) as B1.
  pose proof (B (Vector3.sub (Sphere.center s)
                   (Vector3.multiplyScalar (Ray.direction r) (Sphere.radius s)))) as B2.
  destruct r as [[ox oy oz] [dx dy dz]], s as [[cx cy cz] rad].
  unfold Sphere.containsPoint, unitLength in *. vsimpl.
  assert (E : rad * (dx * dx + dy * dy + dz * dz) = rad) by (rewrite U; ring).
  split.
  - assert (H : Rleb ((cx + dx * rad - cx) * (cx + dx * rad - cx)
                      + (cy + dy * rad - cy) * (cy + dy * rad - cy)
                      + (cz + dz * rad - cz) * (cz + dz * rad - cz)) (rad * rad) = true).
    { rprop.
      match goal with |- ?l <= _ =>
        replace l with (rad * rad * (dx * dx + dy * dy + dz * dz)) by ring end.
      rewrite U. lra. }
    specialize (B1 H). lra.
  - assert (H : Rleb ((cx - dx * rad - cx) * (cx - dx * rad - cx)
                      + (cy - dy * rad - cy) * (cy - dy * rad - cy)
                      + (cz - dz * rad - cz) * (cz - dz * rad - cz)) (rad * rad) = true).
    { rprop.
      match goal with |- ?l <= _ =>
        replace l with (rad * rad * (dx * dx + dy * dy + dz * dz)) by ring end.
      rewrite U. lra. }
    specialize (B2 H). lra.
Qed.

(** In exact arithmetic, for a ray of unit direction and a sphere entirely
    behind its origin, [intersectsSphere] is false and [intersectSphere]
    is null; the clamped distance that [intersectsSphere] tests is then the
    distance from the origin to the center, and it exceeds the radius. *)
Theorem sphere_behind_both_miss (r : Ray.t) (s : Sphere.t) :
  unitLength (Ray.direction r) ->
  entirelyBehind r s ->
  Ray.intersectsSphere r s = false
  /\ Ray.intersectSphere r s = None
  /\ Ray.distanceSqToPoint r (Sphere.center s)
     = Vector3.distanceToSquared (Ray.origin r) (Sphere.center s)
  /\ Sphere.radius s * Sphere.radius s
     < Ray.distanceSqToPoint r (Sphere.center s).
Proof.
  intros U B.
  pose proof (entirelyBehind_tca r s U B) as [B1 B2].
  pose proof (d2_nonneg (Vector3.subVectors (Sphere.center s) (Ray.origin r))
                (Ray.direction r) U) as Hd2.
  pose proof (sphere_tests_agree r s U) as Agree.
  pose proof (distanceSqToPoint_unit r (Sphere.center s) U) as Hdist.
  cbv zeta in *.
  set (v := Vector3.subVectors (Sphere.center s) (Ray.origin r)) in *.
  set (tca := Vector3.dot v (Ray.direction r)) in *.
  assert (Htca : Rltb tca 0 = true) by (rprop; lra).
  rewrite Htca in Hdist.
  assert (Hfar : Sphere.radius s * Sphere.radius s
                 < Ray.distanceSqToPoint r (Sphere.center s)).
  { rewrite Hdist. change (@num RNum) with R in *. nra. }
  assert (Hfalse : Ray.intersectsSphere r s = false).
  { unfold Ray.intersectsSphere. cbn [nleb nmul RNum]. rprop. exact Hfar. }
  repeat split.
  - exact Hfalse.
  - destruct (Ray.intersectSphere r s) eqn:E; [|reflexivity].
    assert (Ray.intersectsSphere r s = true) by (apply Agree; discriminate).
    congruence.
  - rewrite Hdist. subst v.
    destruct r as [[ox oy oz] [dx dy dz]], s as [[cx cy cz] rad]. vsimpl. ring.
  - exact Hfar.
Qed.

(** In exact arithmetic no ray of unit direction and sphere entirely
    behind its origin make the two tests disagree: where they do disagree
    on binary64, rounding is at work. *)
Lemma sphere_behind_never_disagree :
  ~ exists (r : Ray.t) (s : Sphere.t),
      unitLength (Ray.direction r)
      /\ entirelyBehind r s
      /\ ((Ray.intersectsSphere r s = true /\ Ray.intersectSphere r s = None)
          \/ (Ray.intersectsSphere r s = false
              /\ Ray.intersectSphere r s <> None)).
Proof.
  intros [r [s [U [_ D]]]].
  pose proof (sphere_tests_agree r s U) as [A1 A2].
  destruct D as [[Ht Hn]|[Hf Hs]].
  - now apply A1.
  - apply A2 in Hs. congruence.
Qed.

(** C2 (as amended): in exact real arithmetic, for a ray of unit
    direction and a sphere entirely ahead of its origin, [intersectSphere]
    returns a point exactly when [intersectsSphere] is true. *)
Theorem sphere_ahead_tests_agree (r : Ray.t) (s : Sphere.t) :
  unitLength (Ray.direction r) ->
  entirelyAhead r s ->
  Ray.intersectSphere r s <> None <-> Ray.intersectsSphere r s = true.
Proof.
  intros U _. symmetry. now apply sphere_tests_agree.
Qed.

(** Concrete inputs of the exact reading. *)
Definition ray_down_exact : Ray.t :=
  Ray.mk (Vector3.mk 0 0 0) (Vector3.mk 0 0 (-1)).
Definition sphere_ahead_exact : Sphere.t := Sphere.mk (Vector3.mk 0 0 (-5)) 1.
Definition sphere_behind_exact : Sphere.t := Sphere.mk (Vector3.mk 0 0 5) 1.

Lemma intersectSphere_ahead_exact :
  Ray.intersectSphere ray_down_exact sphere_ahead_exact
  = Some (Vector3.mk 0 0 (-4)).
Proof.
  unfold Ray.intersectSphere, Ray.at_, ray_down_exact, sphere_ahead_exact.
  vsimpl.
  replace (1 * 1 - ((0 - 0) * (0 - 0) + (0 - 0) * (0 - 0) + (-5 - 0) * (-5 - 0)
                    - ((0 - 0) * 0 + (0 - 0) * 0 + (-5 - 0) * -1)
                      * ((0 - 0) * 0 + (0 - 0) * 0 + (-5 - 0) * -1)))
    with 1 by ring.
  rewrite sqrt_1.
  assert (E1 : Rltb (1 * 1)
                 ((0 - 0) * (0 - 0) + (0 - 0) * (0 - 0) + (-5 - 0) * (-5 - 0)
                  - ((0 - 0) * 0 + (0 - 0) * 0 + (-5 - 0) * -1)
                    * ((0 - 0) * 0 + (0 - 0) * 0 + (-5 - 0) * -1)) = false)
    by (rprop; lra).
  assert (E2 : Rltb ((0 - 0) * 0 + (0 - 0) * 0 + (-5 - 0) * -1 - 1) 0 = false)
    by (rprop; lra).
  rewrite E1, E2. cbn [andb]. f_equal. f_equal; ring.
Qed.

Lemma intersectSphere_behind_exact :
  Ray.intersectSphere ray_down_exact sphere_behind_exact = None.
Proof.
  unfold Ray.intersectSphere, Ray.at_, ray_down_exact, sphere_behind_exact.
  vsimpl.
  replace (1 * 1 - ((0 - 0) * (0 - 0) + (0 - 0) * (0 - 0) + (5 - 0) * (5 - 0)
                    - ((0 - 0) * 0 + (0 - 0) * 0 + (5 - 0) * -1)
                      * ((0 - 0) * 0 + (0 - 0) * 0 + (5 - 0) * -1)))
    with 1 by ring.
  rewrite sqrt_1.
  assert (E1 : Rltb (1 * 1)
                 ((0 - 0) * (0 - 0) + (0 - 0) * (0 - 0) + (5 - 0) * (5 - 0)
                  - ((0 - 0) * 0 + (0 - 0) * 0 + (5 - 0) * -1)
                    * ((0 - 0) * 0 + (0 - 0) * 0 + (5 - 0) * -1)) = false)
    by (rprop; lra).
  assert (E2 : Rltb ((0 - 0) * 0 + (0 - 0) * 0 + (5 - 0) * -1 - 1) 0 = true)
    by (rprop; lra).
  assert (E3 : Rltb ((0 - 0) * 0 + (0 - 0) * 0 + (5 - 0) * -1 + 1) 0 = true)
    by (rprop; lra).
  now rewrite E1, E2, E3.
Qed.

Lemma ray_down_exact_unit : unitLength (Ray.direction ray_down_exact).
Proof. unfold unitLength. vsimpl. ring. Defined.

Lemma sphere_behind_exact_behind : entirelyBehind ray_down_exact sphere_behind_exact.
Proof.
  intros [px py pz]. unfold Sphere.containsPoint. vsimpl. intros H. rprop. nra.
Defined.

Lemma sphere_ahead_exact_ahead : entirelyAhead ray_down_exact sphere_ahead_exact.
Proof.
  intros [px py pz]. unfold Sphere.containsPoint. vsimpl. intros H. rprop. nra.
Defined.

Lemma sphere_behind_both_miss_witness :
  unitLength (Ray.direction ray_down_exact)
  /\ entirelyBehind ray_down_exact sphere_behind_exact
  /\ Ray.intersectsSphere ray_down_exact sphere_behind_exact = false
  /\ Ray.intersectSphere ray_down_exact sphere_behind_exact = None.
Proof.
  split; [exact ray_down_exact_unit|].
  split; [exact sphere_behind_exact_behind|].
  pose proof (sphere_behind_both_miss ray_down_exact sphere_behind_exact
                ray_down_exact_unit sphere_behind_exact_behind) as [H1 [H2 _]].
  split; assumption.
Defined.

Lemma sphere_ahead_tests_agree_witness :
  unitLength (Ray.direction ray_down_exact)
  /\ entirelyAhead ray_down_exact sphere_ahead_exact
  /\ (Ray.intersectSphere ray_down_exact sphere_ahead_exact <> None
      <-> Ray.intersectsSphere ray_down_exact sphere_ahead_exact = true).
Proof.
  split; [exact ray_down_exact_unit|].
  split; [exact sphere_ahead_exact_ahead|].
  exact (sphere_ahead_tests_agree ray_down_exact sphere_ahead_exact
           ray_down_exact_unit sphere_ahead_exact_ahead).
Defined.

(** ** Ray and triangle *)

Lemma div_pos_neg (q d : R) : 0 < d -> (q / d < 0 <-> q < 0).
Proof.
  intros Hd. unfold Rdiv.
  pose proof (Rinv_0_lt_compat d Hd) as Hi.
  split; intros H; [|nra].
  destruct (Rlt_dec q 0) as [|Hn]; [assumption|].
  exfalso. assert (0 <= q * / d) by (apply Rmult_le_pos; lra). lra.
Qed.

(** ** Ray and segment *)

(** What C9 says of the outcome of [distanceSqToSegment]: [p] and [q] are
    the points written to the two output vectors, [s0] and [s1] their
    parameters on the ray and on the segment. *)
Definition closestPair (r : Ray.t) (v0 v1 : Vector3.t)
    (res : Ray.SegmentDistance) (s0 s1 : R) (p q : Vector3.t) : Prop :=
  let segCenter := Vector3.multiplyScalar (Vector3.add v0 v1) (1 / 2) in
  let segDir := Vector3.normalize (Vector3.sub v1 v0) in
  let segExtent := Vector3.distanceTo v0 v1 * (1 / 2) in
  Ray.pointOnRay res = Some p
  /\ Ray.pointOnSegment res = Some q
  /\ Ray.sqrDist res = Vector3.distanceToSquared p q
  /\ p = Ray.at_ r s0
  /\ 0 <= s0
  /\ q = Vector3.add (Vector3.multiplyScalar segDir s1) segCenter
  /\ - segExtent <= s1 <= segExtent.

Lemma sum_squares_zero (a b c : R) :
  a * a + b * b + c * c = 0 -> a = 0 /\ b = 0 /\ c = 0.
Proof.
  intros E.
  pose proof (Rle_0_sqr a) as Ha. pose proof (Rle_0_sqr b) as Hb.
  pose proof (Rle_0_sqr c) as Hc. unfold Rsqr in *.
  assert (Ea : a * a = 0) by lra. assert (Eb : b * b = 0) by lra.
  assert (Ec : c * c = 0) by lra.
  apply Rmult_integral in Ea, Eb, Ec. tauto.
Qed.

Lemma distinct_lengthSq (v0 v1 : Vector3.t) :
  v0 <> v1 -> Vector3.lengthSq (Vector3.sub v1 v0) <> 0.
Proof.
  destruct v0 as [a b c], v1 as [a' b' c']. vsimpl. intros Hne E.
  apply Hne. apply sum_squares_zero in E. destruct E as [Ea [Eb Ec]].
  f_equal; lra.
Qed.

Lemma normalize_unit (v : Vector3.t) :
  Vector3.lengthSq v <> 0 -> unitLength (Vector3.normalize v).
Proof.
  intros Hne. destruct (normalize_scale v) as [k [-> Hk]].
  destruct (Hk Hne) as [_ E]. unfold unitLength.
  destruct v as [a b c]. vsimpl. rewrite <- E. ring.
Qed.

(** The squared distance between the point of parameter [s0] on the ray
    and the point of offset [s1] on the segment's line is the quadratic
    form the source minimises. *)
Lemma quadratic_form (o d ctr e : Vector3.t) (s0 s1 : R) :
  unitLength d -> unitLength e ->
  let diff := Vector3.sub o ctr in
  let a01 := - Vector3.dot d e in
  let b0 := Vector3.dot diff d in
  let b1 := - Vector3.dot diff e in
  let c := Vector3.lengthSq diff in
  Vector3.distanceToSquared
    (Vector3.add (Vector3.multiplyScalar d s0) o)
    (Vector3.add (Vector3.multiplyScalar e s1) ctr)
  = s0 * s0 + s1 * s1 + 2 * a01 * s0 * s1 + 2 * b0 * s0 + 2 * b1 * s1 + c.
Proof.
  destruct o as [ox oy oz], d as [dx dy dz], ctr as [cx cy cz], e as [ex ey ez].
  unfold unitLength. vsimpl. intros U V.
  match goal with |- ?l = ?r =>
    replace l with (r + s0 * s0 * (dx * dx + dy * dy + dz * dz - 1)
                    + s1 * s1 * (ex * ex + ey * ey + ez * ez - 1)) by ring
  end.
  rewrite U, V. ring.
Qed.

Lemma closestPair_intro (r : Ray.t) (v0 v1 : Vector3.t) (s0 s1 d : R) :
  unitLength (Ray.direction r) -> v0 <> v1 ->
  let segCenter := Vector3.multiplyScalar (Vector3.add v0 v1) (1 / 2) in
  let segDir := Vector3.normalize (Vector3.sub v1 v0) in
  let segExtent := Vector3.distanceTo v0 v1 * (1 / 2) in
  let diff := Vector3.sub (Ray.origin r) segCenter in
  let a01 := - Vector3.dot (Ray.direction r) segDir in
  let b0 := Vector3.dot diff (Ray.direction r) in
  let b1 := - Vector3.dot diff segDir in
  let c := Vector3.lengthSq diff in
  0 <= s0 ->
  - segExtent <= s1 <= segExtent ->
  d = s0 * s0 + s1 * s1 + 2 * a01 * s0 * s1 + 2 * b0 * s0 + 2 * b1 * s1 + c ->
  closestPair r v0 v1
    (Ray.mkSegmentDistance d
       (Some (Vector3.add (Vector3.multiplyScalar (Ray.direction r) s0)
                (Ray.origin r)))
       (Some (Vector3.add (Vector3.multiplyScalar segDir s1) segCenter)))
    s0 s1
    (Ray.at_ r s0)
    (Vector3.add (Vector3.multiplyScalar segDir s1) segCenter).
Proof.
  intros U Hne segCenter segDir segExtent diff a01 b0 b1 c H0 H1 Hd.
  unfold closestPair. fold segCenter segDir segExtent.
  cbn [Ray.pointOnRay Ray.pointOnSegment Ray.sqrDist].
  repeat split; try reflexivity; try tauto.
  rewrite Hd. unfold Ray.at_. symmetry.
  apply (quadratic_form (Ray.origin r) (Ray.direction r) segCenter segDir s0 s1 U).
  apply normalize_unit. now apply distinct_lengthSq.
Qed.

(** The scalar facts behind the regions of [distanceSqToSegment]; [Q] is
    the quadratic form of [quadratic_form]. *)

Lemma clamp_bounds (ext y : R) :
  0 <= ext -> - ext <= Rmin (Rmax (- ext) y) ext <= ext.
Proof.
  intros H. unfold Rmin, Rmax.
  destruct (Rle_dec (- ext) y); destruct (Rle_dec _ ext); lra.
Qed.

(** The segment parameter is fixed and the ray parameter is the clamped
    minimiser for it (regions 1 and 5, and the parallel case). *)
Lemma endpoint_region (a01 b0 b1 c s1 : R) :
  let s0 := Rmax 0 (- (a01 * s1 + b0)) in
  0 <= s0
  /\ - s0 * s0 + s1 * (s1 + 2 * b1) + c
     = s0 * s0 + s1 * s1 + 2 * a01 * s0 * s1 + 2 * b0 * s0 + 2 * b1 * s1 + c.
Proof.
  cbv zeta. unfold Rmax.
  destruct (Rle_dec 0 (- (a01 * s1 + b0))); split; try lra; ring.
Qed.

(** The ray parameter is clamped against the endpoint [e] of the segment;
    when the clamp is active the segment parameter is free again (regions
    2 and 4). *)
Lemma corner_region (a01 b0 b1 c ext e X : R) :
  X = - (a01 * e + b0) ->
  e = ext \/ e = - ext ->
  0 <= ext ->
  let s0 := Rmax 0 X in
  let s1 := if Rltb 0 s0 then e else Rmin (Rmax (- ext) (- b1)) ext in
  0 <= s0
  /\ - ext <= s1 <= ext
  /\ - s0 * s0 + s1 * (s1 + 2 * b1) + c
     = s0 * s0 + s1 * s1 + 2 * a01 * s0 * s1 + 2 * b0 * s0 + 2 * b1 * s1 + c.
Proof.
  intros HX He Hext. cbv zeta.
  pose proof (clamp_bounds ext (- b1) Hext) as Hc.
  assert (Hs0 : Rmax 0 X = if Rle_dec 0 X then X else 0) by reflexivity.
  rewrite Hs0. clear Hs0.
  destruct (Rle_dec 0 X) as [Hle|Hnle].
  - destruct (Rltb 0 X) eqn:E; rprop.
    + split; [lra|]. split; [lra|]. rewrite HX. ring.
    + assert (H0 : X = 0) by lra.
      split; [lra|]. split; [exact Hc|]. rewrite H0. ring.
  - assert (E : Rltb 0 0 = false) by (rprop; lra). rewrite E.
    split; [lra|]. split; [exact Hc|]. ring.
Qed.

Lemma distanceSqToSegment_closestPair (r : Ray.t) (v0 v1 pr ps : Vector3.t) :
  unitLength (Ray.direction r) ->
  v0 <> v1 ->
  exists (s0 s1 : R) (p q : Vector3.t),
    closestPair r v0 v1 (Ray.distanceSqToSegment r v0 v1 (Some pr) (Some ps))
      s0 s1 p q.
Proof.
  intros U Hne. unfold Ray.distanceSqToSegment.
  cbv zeta. change (@num RNum) with R in *.
  cbn [nltb nleb nsub nadd nmul ndiv nneg nabs nmax nmin zero one two half RNum].
  set (segCenter := Vector3.multiplyScalar (Vector3.add v0 v1) (1 / 2)).
  set (segDir := Vector3.normalize (Vector3.sub v1 v0)).
  set (segExtent := Vector3.distanceTo v0 v1 * (1 / 2)).
  set (diff := Vector3.sub (Ray.origin r) segCenter).
  set (a01 := - Vector3.dot (Ray.direction r) segDir).
  set (b0 := Vector3.dot diff (Ray.direction r)).
  set (b1 := - Vector3.dot diff segDir).
  set (c := Vector3.lengthSq diff).
  assert (Hext : 0 <= segExtent).
  { unfold segExtent, Vector3.distanceTo. cbn [nsqrt RNum].
    pose proof (sqrt_pos (Vector3.distanceToSquared v0 v1)). lra. }
  pose proof (Rabs_pos (1 - a01 * a01)) as Hdet.
  set (det := Rabs (1 - a01 * a01)) in *.
  destruct (Rltb 0 det) eqn:Edet; rprop.
  - destruct (Rleb 0 (a01 * b1 - b0)) eqn:Es0; rprop.
    + destruct (Rleb (- (segExtent * det)) (a01 * b0 - b1)) eqn:Elo; rprop.
      * destruct (Rleb (a01 * b0 - b1) (segExtent * det)) eqn:Ehi; rprop.
        -- (* region 0 *)
           cbv beta iota. do 4 eexists.
           apply closestPair_intro; [exact U | exact Hne | | | ].
           all: fold segCenter segDir segExtent diff; fold a01 b0 b1 c.
           all: assert (Hk : 0 < 1 / det) by (apply Rdiv_lt_0_compat; lra).
           all: assert (Hdk : segExtent * det * (1 / det) = segExtent)
                  by (field; lra).
           all: set (k := 1 / det) in *.
           ++ apply Rmult_le_pos; lra.
           ++ assert (0 <= (a01 * b0 - b1 + segExtent * det) * k)
                by (apply Rmult_le_pos; lra).
              assert (0 <= (segExtent * det - (a01 * b0 - b1)) * k)
                by (apply Rmult_le_pos; lra).
              lra.
           ++ ring.
        -- (* region 1 *)
           cbv beta iota. do 4 eexists.
           apply closestPair_intro; [exact U | exact Hne | | | ].
           all: fold segCenter segDir segExtent diff; fold a01 b0 b1 c.
           all: destruct (endpoint_region a01 b0 b1 c segExtent) as [G1 G3].
           ++ exact G1.
           ++ lra.
           ++ exact G3.
      * (* region 5 *)
        cbv beta iota. do 4 eexists.
        apply closestPair_intro; [exact U | exact Hne | | | ].
        all: fold segCenter segDir segExtent diff; fold a01 b0 b1 c.
        all: destruct (endpoint_region a01 b0 b1 c (- segExtent)) as [G1 G3].
        -- exact G1.
        -- lra.
        -- exact G3.
    + destruct (Rleb (a01 * b0 - b1) (- (segExtent * det))) eqn:Elo; rprop.
      * (* region 4 *)
        cbv beta iota. do 4 eexists.
        apply closestPair_intro; [exact U | exact Hne | | | ].
        all: fold segCenter segDir segExtent diff; fold a01 b0 b1 c.
        all: assert (HX : - (- a01 * segExtent + b0)
                          = - (a01 * - segExtent + b0)) by ring.
        all: destruct (corner_region a01 b0 b1 c segExtent (- segExtent)
                         (- (- a01 * segExtent + b0)) HX
                         (or_intror eq_refl) Hext) as [G1 [G2 G3]].
        -- exact G1.
        -- exact G2.
        -- exact G3.
      * destruct (Rleb (a01 * b0 - b1) (segExtent * det)) eqn:Ehi; rprop.
        -- (* region 3 *)
           cbv beta iota. do 4 eexists.
           apply closestPair_intro; [exact U | exact Hne | | | ].
           all: fold segCenter segDir segExtent diff; fold a01 b0 b1 c.
           ++ lra.
           ++ now apply clamp_bounds.
           ++ ring.
        -- (* region 2 *)
           cbv beta iota. do 4 eexists.
           apply closestPair_intro; [exact U | exact Hne | | | ].
           all: fold segCenter segDir segExtent diff; fold a01 b0 b1 c.
           all: destruct (corner_region a01 b0 b1 c segExtent segExtent
                            (- (a01 * segExtent + b0)) eq_refl
                            (or_introl eq_refl) Hext) as [G1 [G2 G3]].
           ++ exact G1.
           ++ exact G2.
           ++ exact G3.
  - (* parallel *)
    cbv beta iota. do 4 eexists.
    apply closestPair_intro; [exact U | exact Hne | | | ].
    all: fold segCenter segDir segExtent diff; fold a01 b0 b1 c.
    all: destruct (endpoint_region a01 b0 b1 c
                     (if Rltb 0 a01 then - segExtent else segExtent))
           as [G1 G3].
    + exact G1.
    + destruct (Rltb 0 a01); lra.
    + exact G3.
Qed.

(** A point of the segment's line whose offset from the midpoint is at
    most the half length lies between the two endpoints. *)
Lemma offset_between (v0 v1 : Vector3.t) (s1 : R) :
  v0 <> v1 ->
  - (Vector3.distanceTo v0 v1 * (1 / 2)) <= s1
    <= Vector3.distanceTo v0 v1 * (1 / 2) ->
  exists lam : R,
    0 <= lam <= 1
    /\ Vector3.add
         (Vector3.multiplyScalar (Vector3.normalize (Vector3.sub v1 v0)) s1)
         (Vector3.multiplyScalar (Vector3.add v0 v1) (1 / 2))
       = Vector3.add v0 (Vector3.multiplyScalar (Vector3.sub v1 v0) lam).
Proof.
  intros Hne Hs1.
  pose proof (distinct_lengthSq v0 v1 Hne) as Hlen.
  destruct (normalize_scale (Vector3.sub v1 v0)) as [k [-> Hk]].
  destruct (Hk Hlen) as [Hkpos Hkk]. clear Hk.
  assert (Esq : Vector3.distanceToSquared v0 v1
                = Vector3.lengthSq (Vector3.sub v1 v0)).
  { destruct v0 as [a b c], v1 as [a' b' c']. vsimpl. ring. }
  unfold Vector3.distanceTo in Hs1. cbn [nsqrt RNum] in Hs1.
  rewrite Esq in Hs1.
  destruct (sqrt_sq_nonneg _ (lengthSq_nonneg (Vector3.sub v1 v0)))
    as [HL HLL].
  set (l := sqrt (Vector3.lengthSq (Vector3.sub v1 v0))) in *.
  assert (Hkl : k * l = 1).
  { assert (Hsq : (k * l) * (k * l) = 1).
    { replace ((k * l) * (k * l)) with (k * k * (l * l)) by ring.
      now rewrite HLL. }
    assert (Hnn : 0 <= k * l) by (apply Rmult_le_pos; lra).
    assert (Hz : (k * l - 1) * (k * l + 1) = 0) by (ring_simplify; lra).
    apply Rmult_integral in Hz. lra. }
  exists (1 / 2 + k * s1). split.
  - assert (0 <= k * (s1 + l * (1 / 2))) by (apply Rmult_le_pos; lra).
    assert (0 <= k * (l * (1 / 2) - s1)) by (apply Rmult_le_pos; lra).
    lra.
  - clear. destruct v0 as [a b c], v1 as [a' b' c']. vsimpl. f_equal; field.
Qed.

(** C9: for a ray of unit direction and a segment with distinct
    endpoints, called with both output vectors, [distanceSqToSegment]
    returns the squared distance between the two points it writes; the
    point written for the ray is [origin + s0 * direction] with
    [s0 >= 0], and the point written for the segment is at an offset [s1]
    from the midpoint with [-extent <= s1 <= extent], hence between [v0]
    and [v1]. *)
Theorem distanceSqToSegment_closest_points (r : Ray.t)
    (v0 v1 pr ps : Vector3.t) :
  unitLength (Ray.direction r) ->
  v0 <> v1 ->
  let res := Ray.distanceSqToSegment r v0 v1 (Some pr) (Some ps) in
  let segCenter := Vector3.multiplyScalar (Vector3.add v0 v1) (1 / 2) in
  let segDir := Vector3.normalize (Vector3.sub v1 v0) in
  let segExtent := Vector3.distanceTo v0 v1 * (1 / 2) in
  exists (s0 s1 lam : R) (p q : Vector3.t),
    Ray.pointOnRay res = Some p
    /\ Ray.pointOnSegment res = Some q
    /\ Ray.sqrDist res = Vector3.distanceToSquared p q
    /\ p = Vector3.add (Vector3.multiplyScalar (Ray.direction r) s0)
             (Ray.origin r)
    /\ 0 <= s0
    /\ q = Vector3.add (Vector3.multiplyScalar segDir s1) segCenter
    /\ - segExtent <= s1 <= segExtent
    /\ q = Vector3.add v0 (Vector3.multiplyScalar (Vector3.sub v1 v0) lam)
    /\ 0 <= lam <= 1.
Proof.
  intros U Hne res segCenter segDir segExtent.
  destruct (distanceSqToSegment_closestPair r v0 v1 pr ps U Hne)
    as [s0 [s1 [p [q H]]]].
  unfold closestPair in H. cbv zeta in H.
  destruct H as [Hp [Hq [Hd [Ep [Hs0 [Eq Hs1]]]]]].
  destruct (offset_between v0 v1 s1 Hne Hs1) as [lam [Hlam Elam]].
  exists s0, s1, lam, p, q.
  repeat split; try assumption; try tauto.
  now rewrite Eq.
Qed.

Definition seg_start : Vector3.t := Vector3.mk 1 (-1) (-2).
Definition seg_end : Vector3.t := Vector3.mk 1 1 (-2).

Lemma distanceSqToSegment_closest_points_witness :
  unitLength (Ray.direction ray_down_exact)
  /\ seg_start <> seg_end
  /\ exists (s0 s1 lam : R) (p q : Vector3.t),
       Ray.sqrDist
         (Ray.distanceSqToSegment ray_down_exact seg_start seg_end
            (Some pt_000) (Some pt_000))
       = Vector3.distanceToSquared p q
       /\ p = Ray.at_ ray_down_exact s0 /\ 0 <= s0
       /\ q = Vector3.add seg_start
                (Vector3.multiplyScalar (Vector3.sub seg_end seg_start) lam)
       /\ 0 <= lam <= 1.
Proof.
  assert (Hne : seg_start <> seg_end).
  { intros [= E]. lra. }
  split; [exact ray_down_exact_unit|]. split; [exact Hne|].
  destruct (distanceSqToSegment_closest_points ray_down_exact seg_start seg_end
              pt_000 pt_000 ray_down_exact_unit Hne)
    as [s0 [s1 [lam [p [q [_ [_ [Hd [Ep [Hs0 [_ [_ [Eq Hlam]]]]]]]]]]]]].
  exists s0, s1, lam, p, q. repeat split; try assumption; tauto.
Defined.

(** * Further properties of the code, in exact arithmetic *)

(** ** Plane: orientation, translation, construction *)

Lemma vector_eq (a b c a' b' c' : R) :
  a = a' -> b = b' -> c = c' -> Vector3.mk a b c = Vector3.mk a' b' c'.
Proof. intros -> -> ->. reflexivity. Qed.

(** X1: [negate] reverses the orientation and nothing else: every signed
    distance changes sign, so the points of the plane are the same, and
    negating twice gives the plane back. *)
Theorem negate_flips_side (p : Plane.t) :
  (forall q : Vector3.t,
     Plane.distanceToPoint (Plane.negate p) q = - Plane.distanceToPoint p q)
  /\ (forall q : Vector3.t,
       Plane.distanceToPoint (Plane.negate p) q = 0
       <-> Plane.distanceToPoint p q = 0)
  /\ Plane.negate (Plane.negate p) = p.
Proof.
  assert (H : forall q : Vector3.t,
             Plane.distanceToPoint (Plane.negate p) q
             = - Plane.distanceToPoint p q).
  { intros [qx qy qz]. destruct p as [[nx ny nz] c].
    unfold Plane.distanceToPoint, Plane.negate. vsimpl. ring. }
  split; [exact H|]. split.
  - intros q. rewrite H. split; intros; lra.
  - destruct p as [[nx ny nz] c]. unfold Plane.negate. vsimpl.
    f_equal; [apply vector_eq|]; ring.
Qed.

(** X2: [translate] moves the plane by the offset: a point shifted by the
    offset is as far from the translated plane as the point was from the
    plane.  An offset along the plane changes nothing, and two
    translations compose to the translation by the sum. *)
Theorem translate_moves_plane (p : Plane.t) (offset : Vector3.t) :
  (forall q : Vector3.t,
     Plane.distanceToPoint (Plane.translate p offset) (Vector3.add q offset)
     = Plane.distanceToPoint p q)
  /\ (Vector3.dot offset (Plane.normal p) = 0 -> Plane.translate p offset = p)
  /\ (forall offset' : Vector3.t,
       Plane.translate (Plane.translate p offset) offset'
       = Plane.translate p (Vector3.add offset offset')).
Proof.
  destruct p as [[nx ny nz] c], offset as [ox oy oz].
  unfold Plane.translate, Plane.distanceToPoint. vsimpl.
  split; [|split].
  - intros [qx qy qz]. vsimpl. ring.
  - intros H. f_equal. rewrite H. ring.
  - intros [ox' oy' oz']. vsimpl. f_equal. ring.
Qed.

(** X3: the plane that [setFromNormalAndCoplanarPoint] builds has the
    given normal, and the signed distance of a point [q] to it is
    [dot normal (q - point)]: the plane passes through [point]. *)
Theorem setFromNormalAndCoplanarPoint_through_point (this : Plane.t)
    (normal point : Vector3.t) :
  let plane := Plane.setFromNormalAndCoplanarPoint this normal point in
  Plane.normal plane = normal
  /\ Plane.distanceToPoint plane point = 0
  /\ forall q : Vector3.t,
       Plane.distanceToPoint plane q = Vector3.dot normal (Vector3.sub q point).
Proof.
  destruct normal as [nx ny nz], point as [px py pz].
  unfold Plane.setFromNormalAndCoplanarPoint, Plane.distanceToPoint. vsimpl.
  split; [reflexivity|]. split; [ring|].
  intros [qx qy qz]. vsimpl. ring.
Qed.

(** X4: for a normal of nonzero length, [normalize] yields a unit normal,
    and normalizing once more changes nothing. *)
Theorem normalize_unit_idempotent (p : Plane.t) :
  Vector3.length (Plane.normal p) <> 0 ->
  unitLength (Plane.normal (Plane.normalize p))
  /\ Plane.normalize (Plane.normalize p) = Plane.normalize p.
Proof.
  intros Hlen.
  pose proof (length_nonzero_pos _ Hlen) as Hpos.
  destruct (sqrt_sq_nonneg _ (lengthSq_nonneg (Plane.normal p))) as [_ Hsq].
  change (sqrt (Vector3.lengthSq (Plane.normal p)))
    with (Vector3.length (Plane.normal p)) in Hsq.
  set (l := Vector3.length (Plane.normal p)) in *.
  assert (Hunit : unitLength (Plane.normal (Plane.normalize p))).
  { unfold unitLength, Plane.normalize. fold l. cbn [Plane.normal].
    destruct p as [[nx ny nz] c]. unfold Vector3.lengthSq in Hsq.
    cbn [Plane.normal] in *. vsimpl.
    set (m := sqrt (nx * nx + ny * ny + nz * nz)) in *.
    replace (nx * (1 / m) * (nx * (1 / m)) + ny * (1 / m) * (ny * (1 / m))
             + nz * (1 / m) * (nz * (1 / m)))
      with ((nx * nx + ny * ny + nz * nz) * (1 / m) * (1 / m)) by ring.
    rewrite <- Hsq. field. lra. }
  split; [exact Hunit|].
  assert (Hl1 : Vector3.length (Plane.normal (Plane.normalize p)) = 1).
  { unfold Vector3.length. cbn [nsqrt RNum].
    replace (Vector3.lengthSq (Plane.normal (Plane.normalize p))) with 1
      by (symmetry; exact Hunit).
    apply sqrt_1. }
  unfold Plane.normalize at 1. rewrite Hl1.
  destruct (Plane.normalize p) as [[nx ny nz] c]. vsimpl.
  f_equal; [apply vector_eq|]; field.
Qed.

Lemma normalize_unit_idempotent_witness :
  Vector3.length (Plane.normal plane_2z_plus_4) <> 0
  /\ unitLength (Plane.normal (Plane.normalize plane_2z_plus_4)).
Proof.
  assert (H : Vector3.length (Plane.normal plane_2z_plus_4) <> 0).
  { cbn. apply Rgt_not_eq. apply sqrt_lt_R0. lra. }
  split; [exact H|].
  exact (proj1 (normalize_unit_idempotent plane_2z_plus_4 H)).
Defined.

(** ** Plane: projection and distance *)

(** With a unit normal, the signed distance of a point is at most its
    distance to any point of the plane. *)
Lemma plane_distance_lower_bound (p : Plane.t) (q x : Vector3.t) :
  unitLength (Plane.normal p) ->
  Plane.distanceToPoint p x = 0 ->
  Plane.distanceToPoint p q * Plane.distanceToPoint p q
  <= Vector3.distanceToSquared q x.
Proof.
  intros U Hx.
  pose proof (d2_nonneg (Vector3.sub q x) (Plane.normal p) U) as H.
  assert (E : Vector3.dot (Vector3.sub q x) (Plane.normal p)
              = Plane.distanceToPoint p q).
  { unfold Plane.distanceToPoint in *.
    destruct p as [[nx ny nz] c], q as [qx qy qz], x as [xx xy xz].
    vsimpl. lra. }
  rewrite E in H.
  assert (E2 : Vector3.dot (Vector3.sub q x) (Vector3.sub q x)
               = Vector3.distanceToSquared q x).
  { destruct q as [qx qy qz], x as [xx xy xz]. vsimpl. ring. }
  rewrite E2 in H. change (@num RNum) with R in *. lra.
Qed.

Lemma projectPoint_on_plane (p : Plane.t) (q : Vector3.t) :
  unitLength (Plane.normal p) ->
  Plane.distanceToPoint p (Plane.projectPoint p q) = 0
  /\ Vector3.distanceToSquared q (Plane.projectPoint p q)
     = Plane.distanceToPoint p q * Plane.distanceToPoint p q.
Proof.
  unfold unitLength, Plane.projectPoint, Plane.distanceToPoint.
  destruct p as [[nx ny nz] c], q as [qx qy qz]. vsimpl. intros U.
  set (d := nx * qx + ny * qy + nz * qz + c).
  split.
  - match goal with |- ?l = 0 =>
      replace l with (d * (1 - (nx * nx + ny * ny + nz * nz)))
        by (unfold d; ring)
    end.
    rewrite U. ring.
  - match goal with |- ?l = _ =>
      replace l with (d * d * (nx * nx + ny * ny + nz * nz)) by ring
    end.
    rewrite U. ring.
Qed.

(** X5: with a unit normal, [projectPoint] returns the point of the plane
    nearest to the given point: it lies on the plane, its distance to the
    point is the absolute signed distance, no point of the plane is
    nearer, and projecting again changes nothing. *)
Theorem projectPoint_nearest (p : Plane.t) (q : Vector3.t) :
  unitLength (Plane.normal p) ->
  Plane.distanceToPoint p (Plane.projectPoint p q) = 0
  /\ Vector3.distanceToSquared q (Plane.projectPoint p q)
     = Plane.distanceToPoint p q * Plane.distanceToPoint p q
  /\ (forall x : Vector3.t,
       Plane.distanceToPoint p x = 0 ->
       Vector3.distanceToSquared q (Plane.projectPoint p q)
       <= Vector3.distanceToSquared q x)
  /\ Plane.projectPoint p (Plane.projectPoint p q) = Plane.projectPoint p q.
Proof.
  intros U. destruct (projectPoint_on_plane p q U) as [H0 Hd].
  split; [exact H0|]. split; [exact Hd|]. split.
  - intros x Hx. rewrite Hd. now apply plane_distance_lower_bound.
  - unfold Plane.projectPoint at 1. rewrite H0.
    destruct (Plane.projectPoint p q) as [x y z], p as [[nx ny nz] c].
    vsimpl. apply vector_eq; ring.
Qed.

Definition plane_z_plus_4 : Plane.t := Plane.mk (Vector3.mk 0 0 1) 4.

Lemma plane_z_plus_4_unit : unitLength (Plane.normal plane_z_plus_4).
Proof. unfold unitLength. vsimpl. ring. Defined.

Lemma projectPoint_nearest_witness :
  unitLength (Plane.normal plane_z_plus_4)
  /\ Plane.distanceToPoint plane_z_plus_4
       (Plane.projectPoint plane_z_plus_4 pt_100) = 0.
Proof.
  split; [exact plane_z_plus_4_unit|].
  exact (proj1 (projectPoint_nearest plane_z_plus_4 pt_100 plane_z_plus_4_unit)).
Defined.

(** X6: with a unit normal, [coplanarPoint] is the projection of the world
    origin: it lies on the plane and no point of the plane is nearer to
    the world origin. *)
Theorem coplanarPoint_nearest_to_origin (p : Plane.t) :
  unitLength (Plane.normal p) ->
  Plane.coplanarPoint p = Plane.projectPoint p pt_000
  /\ Plane.distanceToPoint p (Plane.coplanarPoint p) = 0
  /\ forall x : Vector3.t,
       Plane.distanceToPoint p x = 0 ->
       Vector3.lengthSq (Plane.coplanarPoint p) <= Vector3.lengthSq x.
Proof.
  intros U.
  assert (E : Plane.coplanarPoint p = Plane.projectPoint p pt_000).
  { unfold Plane.coplanarPoint, Plane.projectPoint, Plane.distanceToPoint.
    destruct p as [[nx ny nz] c]. vsimpl. apply vector_eq; ring. }
  destruct (projectPoint_on_plane p pt_000 U) as [H0 Hd].
  split; [exact E|]. rewrite E. split; [exact H0|].
  intros x Hx.
  pose proof (plane_distance_lower_bound p pt_000 x U Hx) as Hlow.
  rewrite <- Hd in Hlow.
  assert (El : forall v : Vector3.t,
             Vector3.distanceToSquared pt_000 v = Vector3.lengthSq v).
  { intros [a b c]. unfold pt_000. vsimpl. ring. }
  now rewrite !El in Hlow.
Qed.

Lemma coplanarPoint_nearest_to_origin_witness :
  unitLength (Plane.normal plane_z_plus_4)
  /\ Plane.distanceToPoint plane_z_plus_4 (Plane.coplanarPoint plane_z_plus_4)
     = 0.
Proof.
  split; [exact plane_z_plus_4_unit|].
  exact (proj1 (proj2 (coplanarPoint_nearest_to_origin plane_z_plus_4
                         plane_z_plus_4_unit))).
Defined.

(** X7: with a unit normal and a radius that is not negative,
    [distanceToSphere] is positive exactly when every point of the sphere
    is strictly on the side the normal points to. *)
Theorem distanceToSphere_positive_side (p : Plane.t) (s : Sphere.t) :
  unitLength (Plane.normal p) ->
  0 <= Sphere.radius s ->
  0 < Plane.distanceToSphere p s
  <-> forall x : Vector3.t,
        Sphere.containsPoint s x = true -> 0 < Plane.distanceToPoint p x.
Proof.
  intros U Hr. split.
  - intros Hpos x Hx.
    pose proof (d2_nonneg (Vector3.sub x (Sphere.center s)) (Plane.normal p) U)
      as Hcs.
    unfold Sphere.containsPoint in Hx. cbn [nleb nmul RNum] in Hx. rprop.
    unfold Plane.distanceToSphere, Plane.distanceToPoint in *.
    destruct p as [[nx ny nz] c], s as [[cx cy cz] rad], x as [xx xy xz].
    vsimpl.
    set (w := (xx - cx) * nx + (xy - cy) * ny + (xz - cz) * nz) in *.
    assert (Hw : w * w <= rad * rad) by lra.
    assert (Hlow : - rad <= w).
    { destruct (Rle_dec (- rad) w) as [|Hn]; [assumption|].
      exfalso. assert (0 < (- rad - w)) by lra.
      assert (0 < (- rad - w) * (- rad - w + 2 * rad))
        by (apply Rmult_lt_0_compat; lra).
      lra. }
    unfold w in Hlow. lra.
  - intros H.
    specialize (H (Vector3.sub (Sphere.center s)
                     (Vector3.multiplyScalar (Plane.normal p) (Sphere.radius s)))).
    unfold Sphere.containsPoint, Plane.distanceToSphere, Plane.distanceToPoint,
      unitLength in *.
    destruct p as [[nx ny nz] c], s as [[cx cy cz] rad]. vsimpl.
    assert (E : rad * (nx * nx + ny * ny + nz * nz) = rad) by (rewrite U; ring).
    assert (Hin : Rleb ((cx - nx * rad - cx) * (cx - nx * rad - cx)
                        + (cy - ny * rad - cy) * (cy - ny * rad - cy)
                        + (cz - nz * rad - cz) * (cz - nz * rad - cz))
                    (rad * rad) = true).
    { rprop.
      match goal with |- ?l <= _ =>
        replace l with (rad * rad * (nx * nx + ny * ny + nz * nz)) by ring end.
      rewrite U. lra. }
    specialize (H Hin). lra.
Qed.

Definition sphere_ahead_of_plane : Sphere.t := Sphere.mk (Vector3.mk 0 0 0) 1.

Lemma distanceToSphere_positive_side_witness :
  unitLength (Plane.normal plane_z_plus_4)
  /\ 0 <= Sphere.radius sphere_ahead_of_plane
  /\ (0 < Plane.distanceToSphere plane_z_plus_4 sphere_ahead_of_plane
      <-> forall x : Vector3.t,
            Sphere.containsPoint sphere_ahead_of_plane x = true ->
            0 < Plane.distanceToPoint plane_z_plus_4 x).
Proof.
  assert (Hr : 0 <= Sphere.radius sphere_ahead_of_plane) by (cbn; lra).
  split; [exact plane_z_plus_4_unit|]. split; [exact Hr|].
  exact (distanceToSphere_positive_side plane_z_plus_4 sphere_ahead_of_plane
           plane_z_plus_4_unit Hr).
Defined.

(** ** Plane and segment, ray and plane *)

Lemma div_nonneg_iff (q d : R) : d <> 0 -> (0 <= q / d <-> 0 <= q * d).
Proof.
  intros Hd.
  assert (Hdd : 0 < d * d) by (destruct (Rtotal_order d 0) as [?|[?|?]]; nra).
  assert (E : q / d * (d * d) = q * d) by (field; exact Hd).
  split; intros H.
  - rewrite <- E. apply Rmult_le_pos; lra.
  - destruct (Rle_dec 0 (q / d)) as [|Hn]; [assumption|]. exfalso.
    assert (0 < - (q / d) * (d * d)) by (apply Rmult_lt_0_compat; lra).
    lra.
Qed.

(** Along a segment the signed distance is affine in the parameter. *)
Lemma distance_along_segment (p : Plane.t) (a b : Vector3.t) (t : R) :
  Plane.distanceToPoint p
    (Vector3.add a (Vector3.multiplyScalar (Vector3.sub b a) t))
  = Plane.distanceToPoint p a
    + t * Vector3.dot (Plane.normal p) (Vector3.sub b a).
Proof.
  unfold Plane.distanceToPoint.
  destruct p as [[nx ny nz] c], a as [ax ay az], b as [bx by_ bz].
  vsimpl. ring.
Qed.

Lemma intersectLine_complete (p : Plane.t) (line : Line3.t) :
  Plane.intersectLine p line = None ->
  forall t : R,
    0 <= t <= 1 ->
    Plane.distanceToPoint p
      (Vector3.add (Line3.start line)
         (Vector3.multiplyScalar
            (Vector3.sub (Line3.end_ line) (Line3.start line)) t))
    <> 0.
Proof.
  intros Hnone t Ht. rewrite distance_along_segment.
  revert Hnone. unfold Plane.intersectLine, Line3.delta, Vector3.subVectors.
  cbv zeta.
  set (den := Vector3.dot (Plane.normal p)
                (Vector3.sub (Line3.end_ line) (Line3.start line))).
  assert (Ed : Vector3.dot (Line3.start line) (Plane.normal p)
               + Plane.constant p
               = Plane.distanceToPoint p (Line3.start line)).
  { unfold Plane.distanceToPoint.
    destruct p as [[nx ny nz] c], line as [[sx sy sz] e]. vsimpl. ring. }
  change (@num RNum) with R in *.
  cbn [nltb nleb neqb nadd nmul ndiv nneg zero one RNum].
  change (@num RNum) with R in *. rewrite Ed.
  set (ds := Plane.distanceToPoint p (Line3.start line)) in *.
  destruct (Reqb den 0) eqn:Eden; rprop.
  - destruct (Reqb ds 0) eqn:Eds; [discriminate|]. rprop.
    intros _. rewrite Eden. lra.
  - assert (Et0 : - ds / den * den = - ds) by (field; exact Eden).
    destruct (Rltb (- ds / den) 0) eqn:E0; rprop.
    + intros _ H. assert (Ett : (t - - ds / den) * den = 0) by lra.
      apply Rmult_integral in Ett. lra.
    + destruct (Rltb 1 (- ds / den)) eqn:E1; [|discriminate]. rprop.
      intros _ H. assert (Ett : (t - - ds / den) * den = 0) by lra.
      apply Rmult_integral in Ett. lra.
Qed.

(** X8: [intersectLine] finds the crossing of the segment with the plane:
    a returned point lies on the plane and between the endpoints, and
    when null is returned no point of the segment lies on the plane. *)
Theorem intersectLine_hits_segment (p : Plane.t) (line : Line3.t) :
  (forall q : Vector3.t,
     Plane.intersectLine p line = Some q ->
     Plane.distanceToPoint p q = 0
     /\ exists t : R,
          0 <= t <= 1
          /\ q = Vector3.add (Line3.start line)
                   (Vector3.multiplyScalar
                      (Vector3.sub (Line3.end_ line) (Line3.start line)) t))
  /\ (Plane.intersectLine p line = None ->
      forall t : R,
        0 <= t <= 1 ->
        Plane.distanceToPoint p
          (Vector3.add (Line3.start line)
             (Vector3.multiplyScalar
                (Vector3.sub (Line3.end_ line) (Line3.start line)) t))
        <> 0).
Proof.
  split.
  - intros q. apply intersectLine_sound.
  - apply intersectLine_complete.
Qed.

(** X9: [intersectsLine] holds exactly when the two endpoints are strictly
    on opposite sides of the plane, so an endpoint on the plane never
    counts; it does not depend on the order of the endpoints; and when it
    holds, [intersectLine] returns a point. *)
Theorem intersectsLine_strict_crossing (p : Plane.t) (line : Line3.t) :
  let ds := Plane.distanceToPoint p (Line3.start line) in
  let de := Plane.distanceToPoint p (Line3.end_ line) in
  (Plane.intersectsLine p line = true <-> ds * de < 0)
  /\ Plane.intersectsLine p (Line3.mk (Line3.end_ line) (Line3.start line))
     = Plane.intersectsLine p line
  /\ (Plane.intersectsLine p line = true ->
      exists q : Vector3.t, Plane.intersectLine p line = Some q).
Proof.
  intros ds de.
  assert (Hiff : Plane.intersectsLine p line = true <-> ds * de < 0).
  { unfold Plane.intersectsLine. fold ds de.
    cbn [nltb zero RNum]. change (@num RNum) with R in *.
    destruct (Rltb ds 0) eqn:E1, (Rltb 0 de) eqn:E2, (Rltb de 0) eqn:E3,
      (Rltb 0 ds) eqn:E4; cbn [andb orb]; rprop;
      split; intros H; try reflexivity; try discriminate; try nra;
      exfalso; nra. }
  split; [exact Hiff|]. split.
  - unfold Plane.intersectsLine. cbn [Line3.start Line3.end_]. apply orb_comm.
  - intros H. apply Hiff in H.
    destruct (Plane.intersectLine p line) as [q|] eqn:E; [now exists q|].
    exfalso.
    assert (Hne : ds - de <> 0) by nra.
    assert (Ht : 0 <= ds / (ds - de) <= 1).
    { assert (E1 : ds / (ds - de) * (ds - de) = ds) by (field; exact Hne).
      assert (E2 : (1 - ds / (ds - de)) * (ds - de) = - de)
        by (field; exact Hne).
      split.
      - apply div_nonneg_iff; [exact Hne | nra].
      - assert (0 <= - de / (ds - de))
          by (apply div_nonneg_iff; [exact Hne | nra]).
        assert (- de / (ds - de) = 1 - ds / (ds - de)) by (field; exact Hne).
        lra. }
    apply (intersectLine_complete p line E (ds / (ds - de)) Ht).
    rewrite distance_along_segment. fold ds.
    assert (Ede : Vector3.dot (Plane.normal p)
                    (Vector3.sub (Line3.end_ line) (Line3.start line))
                  = de - ds).
    { subst ds de. unfold Plane.distanceToPoint.
      destruct p as [[nx ny nz] c], line as [[sx sy sz] [ex ey ez]].
      vsimpl. ring. }
    rewrite Ede. change (@num RNum) with R in *. field. exact Hne.
Qed.

(** Along a ray the signed distance is affine in the parameter. *)
Lemma distance_along_ray (r : Ray.t) (p : Plane.t) (t : R) :
  Plane.distanceToPoint p (Ray.at_ r t)
  = Plane.distanceToPoint p (Ray.origin r)
    + t * Vector3.dot (Plane.normal p) (Ray.direction r).
Proof.
  unfold Plane.distanceToPoint, Ray.at_.
  destruct p as [[nx ny nz] c], r as [[ox oy oz] [dx dy dz]].
  vsimpl. ring.
Qed.

Lemma distanceToPlane_origin_term (r : Ray.t) (p : Plane.t) :
  Vector3.dot (Ray.origin r) (Plane.normal p) + Plane.constant p
  = Plane.distanceToPoint p (Ray.origin r).
Proof.
  unfold Plane.distanceToPoint.
  destruct p as [[nx ny nz] c], r as [[ox oy oz] d]. vsimpl. ring.
Qed.

(** What [distanceToPlane] returns, in terms of the signed distance [d0]
    of the origin and of [den = dot normal direction]. *)
Lemma distanceToPlane_exact (r : Ray.t) (p : Plane.t) :
  let d0 := Plane.distanceToPoint p (Ray.origin r) in
  let den := Vector3.dot (Plane.normal p) (Ray.direction r) in
  Ray.distanceToPlane r p
  = if Reqb den 0 then (if Reqb d0 0 then Some 0 else None)
    else if Rleb 0 (- d0 / den) then Some (- d0 / den) else None.
Proof.
  intros d0 den. unfold Ray.distanceToPlane. cbv zeta.
  rewrite distanceToPlane_origin_term. reflexivity.
Qed.

(** X10: [intersectPlane] returns the first point of the ray on the plane:
    the point is [at t] for some [t >= 0], it lies on the plane, and no
    earlier point of the ray does; when null is returned, no point of the
    ray lies on the plane. *)
Theorem intersectPlane_first_hit (r : Ray.t) (p : Plane.t) :
  (forall q : Vector3.t,
     Ray.intersectPlane r p = Some q ->
     exists t : R,
       0 <= t /\ q = Ray.at_ r t
       /\ Plane.distanceToPoint p q = 0
       /\ forall t' : R,
            0 <= t' -> Plane.distanceToPoint p (Ray.at_ r t') = 0 -> t <= t')
  /\ (Ray.intersectPlane r p = None ->
      forall t : R, 0 <= t -> Plane.distanceToPoint p (Ray.at_ r t) <> 0).
Proof.
  unfold Ray.intersectPlane. rewrite distanceToPlane_exact. cbv zeta.
  set (d0 := Plane.distanceToPoint p (Ray.origin r)).
  set (den := Vector3.dot (Plane.normal p) (Ray.direction r)).
  assert (Hat : forall t : R,
             Plane.distanceToPoint p (Ray.at_ r t) = d0 + t * den).
  { intros t. apply distance_along_ray. }
  change (@num RNum) with R in *.
  destruct (Reqb den 0) eqn:Eden; rprop.
  - destruct (Reqb d0 0) eqn:Ed0; rprop.
    + split; [|discriminate]. intros q [= <-]. exists 0.
      split; [lra|]. split; [reflexivity|]. split.
      * rewrite Hat. rewrite Ed0. ring.
      * intros t' Ht' _. exact Ht'.
    + split; [discriminate|]. intros _ t Ht. rewrite Hat, Eden. lra.
  - assert (Et0 : - d0 / den * den = - d0) by (field; exact Eden).
    assert (Huniq : forall t : R, d0 + t * den = 0 -> t = - d0 / den).
    { intros t H. assert (Ett : (t - - d0 / den) * den = 0) by lra.
      apply Rmult_integral in Ett. lra. }
    destruct (Rleb 0 (- d0 / den)) eqn:Et; rprop.
    + split; [|discriminate]. intros q [= <-]. exists (- d0 / den).
      split; [exact Et|]. split; [reflexivity|]. split.
      * rewrite Hat. lra.
      * intros t' _ H. rewrite Hat in H. apply Huniq in H. lra.
    + split; [discriminate|]. intros _ t Ht H. rewrite Hat in H.
      apply Huniq in H. lra.
Qed.

(** X11: [intersectsPlane] is true exactly when [intersectPlane] returns a
    point. *)
Theorem intersectsPlane_iff_intersectPlane (r : Ray.t) (p : Plane.t) :
  Ray.intersectsPlane r p = true <-> Ray.intersectPlane r p <> None.
Proof.
  unfold Ray.intersectsPlane, Ray.intersectPlane.
  rewrite distanceToPlane_exact. cbv zeta.
  set (d0 := Plane.distanceToPoint p (Ray.origin r)).
  set (den := Vector3.dot (Plane.normal p) (Ray.direction r)).
  change (@num RNum) with R in *. cbn [nltb neqb nmul zero RNum].
  destruct (Reqb den 0) eqn:Eden; rprop.
  - rewrite Eden.
    destruct (Reqb d0 0) eqn:Ed0; [split; [discriminate|reflexivity]|].
    assert (E : Rltb (0 * d0) 0 = false) by (rprop; lra). rewrite E.
    split; [discriminate|congruence].
  - pose proof (div_nonneg_iff (- d0) den Eden) as Hdiv.
    destruct (Reqb d0 0) eqn:Ed0; rprop.
    + assert (E : Rleb 0 (- d0 / den) = true).
      { rprop. apply Hdiv. rewrite Ed0. lra. }
      rewrite E. split; [discriminate|reflexivity].
    + destruct (Rltb (den * d0) 0) eqn:Es; rprop.
      * assert (E : Rleb 0 (- d0 / den) = true) by (rprop; apply Hdiv; lra).
        rewrite E. split; [discriminate|reflexivity].
      * assert (E : Rleb 0 (- d0 / den) = false).
        { rprop. destruct (Rle_dec 0 (- d0 / den)) as [Hle|Hn]; [|lra].
          exfalso. apply Hdiv in Hle.
          assert (den * d0 = 0) by lra.
          apply Rmult_integral in H. tauto. }
        rewrite E. split; [discriminate|congruence].
Qed.

(** ** Ray: closest point, distance, recasting, aiming *)

(** With a unit direction, the squared distance from the point of
    parameter [t] to [q] is a quadratic in [t] with vertex at
    [dot (q - origin) direction]. *)
Lemma distance_along_ray_sq (r : Ray.t) (q : Vector3.t) (t : R) :
  unitLength (Ray.direction r) ->
  let v := Vector3.subVectors q (Ray.origin r) in
  Vector3.distanceToSquared (Ray.at_ r t) q
  = t * t - 2 * t * Vector3.dot v (Ray.direction r) + Vector3.dot v v.
Proof.
  unfold unitLength, Ray.at_.
  destruct r as [[ox oy oz] [dx dy dz]], q as [qx qy qz]. vsimpl. intros U.
  match goal with |- ?l = ?r =>
    replace l with (r + t * t * (dx * dx + dy * dy + dz * dz - 1)) by ring
  end.
  rewrite U. ring.
Qed.

Lemma closestPointToPoint_param (r : Ray.t) (q : Vector3.t) :
  let dd :=
    Vector3.dot (Vector3.subVectors q (Ray.origin r)) (Ray.direction r) in
  Ray.closestPointToPoint r q = Ray.at_ r (if Rltb dd 0 then 0 else dd).
Proof.
  unfold Ray.closestPointToPoint. cbv zeta. cbn [nltb zero RNum].
  destruct (Rltb _ 0); [|reflexivity].
  unfold Ray.at_. destruct r as [[ox oy oz] [dx dy dz]]. vsimpl.
  apply vector_eq; ring.
Qed.

Lemma distanceSqToPoint_closest (r : Ray.t) (q : Vector3.t) :
  Ray.distanceSqToPoint r q
  = Vector3.distanceToSquared (Ray.closestPointToPoint r q) q.
Proof.
  unfold Ray.distanceSqToPoint, Ray.closestPointToPoint. cbv zeta.
  destruct (_ <? _)%num; reflexivity.
Qed.

Lemma closest_minimal (r : Ray.t) (q : Vector3.t) (t : R) :
  unitLength (Ray.direction r) ->
  0 <= t ->
  Ray.distanceSqToPoint r q <= Vector3.distanceToSquared (Ray.at_ r t) q.
Proof.
  intros U Ht. rewrite distanceSqToPoint_closest, closestPointToPoint_param.
  cbv zeta. rewrite !(distance_along_ray_sq r q _ U). cbv zeta.
  set (dd := Vector3.dot (Vector3.subVectors q (Ray.origin r))
               (Ray.direction r)).
  set (vv := Vector3.dot (Vector3.subVectors q (Ray.origin r))
               (Vector3.subVectors q (Ray.origin r))).
  change (@num RNum) with R in *.
  destruct (Rltb dd 0) eqn:E; rprop.
  - assert (0 <= t * (t - 2 * dd)) by (apply Rmult_le_pos; lra). lra.
  - pose proof (Rle_0_sqr (t - dd)) as Hsq. unfold Rsqr in Hsq. lra.
Qed.

Lemma distanceToSquared_zero (a b : Vector3.t) :
  Vector3.distanceToSquared a b = 0 -> a = b.
Proof.
  destruct a as [ax ay az], b as [bx by_ bz]. vsimpl. intros H.
  apply sum_squares_zero in H. destruct H as [H1 [H2 H3]].
  apply vector_eq; lra.
Qed.

Lemma distanceToSquared_nonneg (a b : Vector3.t) :
  0 <= Vector3.distanceToSquared a b.
Proof.
  destruct a as [ax ay az], b as [bx by_ bz]. vsimpl.
  pose proof (Rle_0_sqr (ax - bx)) as H1.
  pose proof (Rle_0_sqr (ay - by_)) as H2.
  pose proof (Rle_0_sqr (az - bz)) as H3.
  unfold Rsqr in *. lra.
Qed.

(** X12: for a unit direction, [closestPointToPoint] returns the point of
    the ray nearest to the given point: it is [at t] for some [t >= 0],
    [distanceSqToPoint] is its squared distance to the point, and no
    point of the ray is nearer. *)
Theorem closestPointToPoint_nearest (r : Ray.t) (q : Vector3.t) :
  unitLength (Ray.direction r) ->
  (exists t : R, 0 <= t /\ Ray.closestPointToPoint r q = Ray.at_ r t)
  /\ Ray.distanceSqToPoint r q
     = Vector3.distanceToSquared (Ray.closestPointToPoint r q) q
  /\ forall t : R,
       0 <= t ->
       Vector3.distanceToSquared (Ray.closestPointToPoint r q) q
       <= Vector3.distanceToSquared (Ray.at_ r t) q.
Proof.
  intros U. split; [|split].
  - rewrite closestPointToPoint_param. cbv zeta.
    destruct (Rltb _ 0) eqn:E; rprop; eexists; (split; [|reflexivity]); lra.
  - apply distanceSqToPoint_closest.
  - intros t Ht. rewrite <- distanceSqToPoint_closest.
    now apply closest_minimal.
Qed.

Lemma closestPointToPoint_nearest_witness :
  unitLength (Ray.direction ray_down_exact)
  /\ Ray.distanceSqToPoint ray_down_exact pt_100
     = Vector3.distanceToSquared
         (Ray.closestPointToPoint ray_down_exact pt_100) pt_100.
Proof.
  split; [exact ray_down_exact_unit|].
  exact (proj1 (proj2 (closestPointToPoint_nearest ray_down_exact pt_100
                         ray_down_exact_unit))).
Defined.

(** X13: for a unit direction, [distanceSqToPoint] is never negative, and
    it is zero exactly for the points of the ray. *)
Theorem distanceSqToPoint_zero_iff_on_ray (r : Ray.t) (q : Vector3.t) :
  unitLength (Ray.direction r) ->
  0 <= Ray.distanceSqToPoint r q
  /\ (Ray.distanceSqToPoint r q = 0
      <-> exists t : R, 0 <= t /\ q = Ray.at_ r t).
Proof.
  intros U.
  assert (Hnn : 0 <= Ray.distanceSqToPoint r q).
  { rewrite distanceSqToPoint_closest. apply distanceToSquared_nonneg. }
  split; [exact Hnn|]. split.
  - intros H. rewrite distanceSqToPoint_closest in H.
    apply distanceToSquared_zero in H. rewrite <- H.
    rewrite closestPointToPoint_param. cbv zeta.
    destruct (Rltb _ 0) eqn:E; rprop; eexists; (split; [|reflexivity]); lra.
  - intros [t [Ht ->]].
    pose proof (closest_minimal r (Ray.at_ r t) t U Ht) as Hmin.
    assert (E : Vector3.distanceToSquared (Ray.at_ r t) (Ray.at_ r t) = 0).
    { destruct (Ray.at_ r t) as [a b c]. vsimpl. ring. }
    rewrite E in Hmin. change (@num RNum) with R in *. lra.
Qed.

Lemma distanceSqToPoint_zero_iff_on_ray_witness :
  unitLength (Ray.direction ray_down_exact)
  /\ 0 <= Ray.distanceSqToPoint ray_down_exact pt_100.
Proof.
  split; [exact ray_down_exact_unit|].
  exact (proj1 (distanceSqToPoint_zero_iff_on_ray ray_down_exact pt_100
                  ray_down_exact_unit)).
Defined.

(** X14: for a unit direction, [intersectsSphere] is true exactly when
    some point of the ray lies in the closed ball of the sphere. *)
Theorem intersectsSphere_iff_ray_meets_ball (r : Ray.t) (s : Sphere.t) :
  unitLength (Ray.direction r) ->
  Ray.intersectsSphere r s = true
  <-> exists t : R, 0 <= t /\ Sphere.containsPoint s (Ray.at_ r t) = true.
Proof.
  intros U. unfold Ray.intersectsSphere, Sphere.containsPoint.
  cbn [nleb nmul RNum]. split.
  - intros H. rewrite distanceSqToPoint_closest in H.
    rewrite closestPointToPoint_param in H. cbv zeta in H.
    eexists. split; [|exact H].
    destruct (Rltb _ 0) eqn:E; rprop; lra.
  - intros [t [Ht H]]. rprop.
    pose proof (closest_minimal r (Sphere.center s) t U Ht).
    change (@num RNum) with R in *. lra.
Qed.

Lemma intersectsSphere_iff_ray_meets_ball_witness :
  unitLength (Ray.direction ray_down_exact)
  /\ (Ray.intersectsSphere ray_down_exact sphere_ahead_exact = true
      <-> exists t : R,
            0 <= t
            /\ Sphere.containsPoint sphere_ahead_exact
                 (Ray.at_ ray_down_exact t) = true).
Proof.
  split; [exact ray_down_exact_unit|].
  exact (intersectsSphere_iff_ray_meets_ball ray_down_exact sphere_ahead_exact
           ray_down_exact_unit).
Defined.

(** X15: [recast] moves the origin along the ray and keeps the direction:
    the point of parameter [b] on the recast ray is the point of
    parameter [a + b] on the ray, recasting twice is recasting by the
    sum, and recasting by zero changes nothing. *)
Theorem recast_adds_parameters (r : Ray.t) (a : R) :
  Ray.direction (Ray.recast r a) = Ray.direction r
  /\ (forall b : R, Ray.at_ (Ray.recast r a) b = Ray.at_ r (a + b))
  /\ (forall b : R, Ray.recast (Ray.recast r a) b = Ray.recast r (a + b))
  /\ Ray.recast r 0 = r.
Proof.
  destruct r as [[ox oy oz] [dx dy dz]]. unfold Ray.recast, Ray.at_. vsimpl.
  split; [reflexivity|]. split; [|split].
  - intros b. apply vector_eq; ring.
  - intros b. f_equal. apply vector_eq; ring.
  - f_equal. apply vector_eq; ring.
Qed.

Lemma normalize_times_length (v : Vector3.t) :
  Vector3.lengthSq v <> 0 ->
  Vector3.multiplyScalar (Vector3.normalize v) (Vector3.length v) = v.
Proof.
  intros Hlen.
  destruct (normalize_scale v) as [k [-> Hk]].
  destruct (Hk Hlen) as [Hkpos Hkk]. clear Hk.
  destruct (sqrt_sq_nonneg _ (lengthSq_nonneg v)) as [HL HLL].
  unfold Vector3.length. cbn [nsqrt RNum].
  set (l := sqrt (Vector3.lengthSq v)) in *.
  assert (Hkl : k * l = 1).
  { assert (Hsq : (k * l) * (k * l) = 1).
    { replace ((k * l) * (k * l)) with (k * k * (l * l)) by ring.
      now rewrite HLL. }
    assert (Hnn : 0 <= k * l) by (apply Rmult_le_pos; lra).
    assert (Hz : (k * l - 1) * (k * l + 1) = 0) by (ring_simplify; lra).
    apply Rmult_integral in Hz. lra. }
  clearbody l. clear - Hkl. destruct v as [a b c]. vsimpl.
  apply vector_eq.
  - replace (a * k * l) with (a * (k * l)) by ring. rewrite Hkl. ring.
  - replace (b * k * l) with (b * (k * l)) by ring. rewrite Hkl. ring.
  - replace (c * k * l) with (c * (k * l)) by ring. rewrite Hkl. ring.
Qed.

(** X16: [lookAt] keeps the origin and, for a target other than the
    origin, makes the direction a unit vector under which the ray passes
    through the target, at the parameter equal to its distance from the
    origin. *)
Theorem lookAt_aims_at_target (r : Ray.t) (v : Vector3.t) :
  v <> Ray.origin r ->
  Ray.origin (Ray.lookAt r v) = Ray.origin r
  /\ unitLength (Ray.direction (Ray.lookAt r v))
  /\ Ray.at_ (Ray.lookAt r v) (Vector3.distanceTo (Ray.origin r) v) = v.
Proof.
  intros Hne.
  assert (Hne' : Ray.origin r <> v) by congruence.
  pose proof (distinct_lengthSq (Ray.origin r) v Hne') as Hlen.
  assert (Ec : Vector3.copy (Ray.direction r) v = v) by now destruct v.
  unfold Ray.lookAt, Ray.at_. cbn [Ray.origin Ray.direction]. rewrite Ec.
  split; [reflexivity|]. split; [now apply normalize_unit|].
  assert (El : Vector3.distanceTo (Ray.origin r) v
               = Vector3.length (Vector3.sub v (Ray.origin r))).
  { unfold Vector3.distanceTo, Vector3.length. f_equal.
    destruct (Ray.origin r) as [ox oy oz], v as [a b c]. vsimpl. ring. }
  rewrite El, (normalize_times_length _ Hlen).
  destruct (Ray.origin r) as [ox oy oz], v as [a b c]. vsimpl.
  apply vector_eq; ring.
Qed.

Lemma lookAt_aims_at_target_witness :
  pt_100 <> Ray.origin ray_down_exact
  /\ unitLength (Ray.direction (Ray.lookAt ray_down_exact pt_100)).
Proof.
  assert (H : pt_100 <> Ray.origin ray_down_exact).
  { intros [= E]. lra. }
  split; [exact H|].
  exact (proj1 (proj2 (lookAt_aims_at_target ray_down_exact pt_100 H))).
Defined.

(** ** Ray and sphere: the first hit *)

(** X17: for a unit direction, [intersectSphere] returns the first point
    of the ray on the surface of the sphere: the point is [at t] with
    [t >= 0], it is at distance [radius] from the center, and no earlier
    point of the ray is; when null is returned, every point of the ray is
    strictly outside the sphere. *)
Theorem intersectSphere_first_hit (r : Ray.t) (s : Sphere.t) :
  unitLength (Ray.direction r) ->
  (forall q : Vector3.t,
     Ray.intersectSphere r s = Some q ->
     exists t : R,
       0 <= t /\ q = Ray.at_ r t
       /\ Vector3.distanceToSquared q (Sphere.center s)
          = Sphere.radius s * Sphere.radius s
       /\ forall t' : R,
            0 <= t' ->
            Vector3.distanceToSquared (Ray.at_ r t') (Sphere.center s)
            = Sphere.radius s * Sphere.radius s ->
            t <= t')
  /\ (Ray.intersectSphere r s = None ->
      forall t : R,
        0 <= t ->
        Sphere.radius s * Sphere.radius s
        < Vector3.distanceToSquared (Ray.at_ r t) (Sphere.center s)).
Proof.
  intros U.
  pose proof (fun t => distance_along_ray_sq r (Sphere.center s) t U) as Hat.
  cbv zeta in Hat.
  unfold Ray.intersectSphere. cbv zeta.
  set (v := Vector3.subVectors (Sphere.center s) (Ray.origin r)) in *.
  set (tca := Vector3.dot v (Ray.direction r)) in *.
  set (vv := Vector3.dot v v) in *.
  set (r2 := (Sphere.radius s * Sphere.radius s)%num).
  change (@num RNum) with R in *.
  cbn [nltb nleb nsub nadd nmul nsqrt zero RNum].
  change (Sphere.radius s * Sphere.radius s) with r2.
  assert (Hsq : forall t : R,
             Vector3.distanceToSquared (Ray.at_ r t) (Sphere.center s)
             = (t - tca) * (t - tca) + (vv - tca * tca)).
  { intros t. rewrite Hat. change (@num RNum) with R. ring. }
  clear Hat. change (@num RNum) with R in *.
  destruct (Rltb r2 (vv - tca * tca)) eqn:E1; rprop.
  - split; [discriminate|]. intros _ t Ht. rewrite Hsq.
    pose proof (Rle_0_sqr (t - tca)) as H. unfold Rsqr in H. lra.
  - destruct (sqrt_sq_nonneg (r2 - (vv - tca * tca))) as [Hp Hs]; [lra|].
    set (thc := sqrt (r2 - (vv - tca * tca))) in *.
    assert (Hroots : forall t : R,
               (t - tca) * (t - tca) + (vv - tca * tca) = r2 ->
               t = tca - thc \/ t = tca + thc).
    { intros t H.
      assert (Hz : (t - (tca - thc)) * (t - (tca + thc)) = 0)
        by (ring_simplify; ring_simplify in H; ring_simplify in Hs; lra).
      apply Rmult_integral in Hz. destruct Hz; [left|right]; lra. }
    assert (Hon : forall t : R,
               t = tca - thc \/ t = tca + thc ->
               (t - tca) * (t - tca) + (vv - tca * tca) = r2).
    { intros t [-> | ->]; ring_simplify; ring_simplify in Hs; lra. }
    destruct (Rltb (tca - thc) 0) eqn:E2, (Rltb (tca + thc) 0) eqn:E3;
      cbn [andb]; rprop.
    + split; [discriminate|]. intros _ t Ht. rewrite Hsq.
      assert (0 < (t - tca - thc) * (t - tca + thc))
        by (apply Rmult_lt_0_compat; lra).
      ring_simplify in H. ring_simplify in Hs. ring_simplify. lra.
    + split; [|discriminate]. intros q [= <-]. exists (tca + thc).
      split; [lra|]. split; [reflexivity|]. split.
      * rewrite Hsq. apply Hon. now right.
      * intros t' Ht' H. rewrite Hsq in H. apply Hroots in H. lra.
    + lra.
    + split; [|discriminate]. intros q [= <-]. exists (tca - thc).
      split; [lra|]. split; [reflexivity|]. split.
      * rewrite Hsq. apply Hon. now left.
      * intros t' Ht' H. rewrite Hsq in H. apply Hroots in H. lra.
Qed.

Lemma intersectSphere_first_hit_witness :
  unitLength (Ray.direction ray_down_exact)
  /\ (Ray.intersectSphere ray_down_exact sphere_behind_exact = None ->
      forall t : R,
        0 <= t ->
        Sphere.radius sphere_behind_exact * Sphere.radius sphere_behind_exact
        < Vector3.distanceToSquared (Ray.at_ ray_down_exact t)
            (Sphere.center sphere_behind_exact)).
Proof.
  split; [exact ray_down_exact_unit|].
  exact (proj2 (intersectSphere_first_hit ray_down_exact sphere_behind_exact
                  ray_down_exact_unit)).
Defined.

(** ** Ray and box: the slab method finds the box *)

(** Modelled from the spec: the box as a set of points, the points whose
    coordinates lie between those of the two corners. *)
Definition insideBox (b : Box3.t) (q : Vector3.t) : Prop :=
  Vector3.x (Box3.min b) <= Vector3.x q <= Vector3.x (Box3.max b)
  /\ Vector3.y (Box3.min b) <= Vector3.y q <= Vector3.y (Box3.max b)
  /\ Vector3.z (Box3.min b) <= Vector3.z q <= Vector3.z (Box3.max b).

(** The two parameters at which a line of nonzero direction component [d]
    crosses the planes of the slab [lo, hi], as [intersectBox] orders
    them. *)
Definition slabInterval (lo hi o d : R) : R * R :=
  if Rleb 0 (1 / d) then ((lo - o) * (1 / d), (hi - o) * (1 / d))
  else ((hi - o) * (1 / d), (lo - o) * (1 / d)).

(** The part of [intersectBox] that follows the computation of the three
    slabs, without the tests for NaN, which never succeed on reals. *)
Definition slabResult {A : Type} (xm xM ym yM zm zM : R) (f : R -> A)
    : option A :=
  if Rltb yM xm || Rltb xM ym then None
  else
    let tmin := if Rltb xm ym then ym else xm in
    let tmax := if Rltb yM xM then yM else xM in
    if Rltb zM tmin || Rltb tmax zm then None
    else
      let tmin := if Rltb tmin zm then zm else tmin in
      let tmax := if Rltb zM tmax then zM else tmax in
      if Rltb tmax 0 then None
      else Some (f (if Rleb 0 tmin then tmin else tmax)).

Lemma Reqb_refl (a : R) : Reqb a a = true.
Proof. now apply Reqb_true. Qed.

Lemma intersectBox_slabResult (r : Ray.t) (b : Box3.t) :
  let sx := slabInterval (Vector3.x (Box3.min b)) (Vector3.x (Box3.max b))
              (Vector3.x (Ray.origin r)) (Vector3.x (Ray.direction r)) in
  let sy := slabInterval (Vector3.y (Box3.min b)) (Vector3.y (Box3.max b))
              (Vector3.y (Ray.origin r)) (Vector3.y (Ray.direction r)) in
  let sz := slabInterval (Vector3.z (Box3.min b)) (Vector3.z (Box3.max b))
              (Vector3.z (Ray.origin r)) (Vector3.z (Ray.direction r)) in
  Ray.intersectBox r b
  = slabResult (fst sx) (snd sx) (fst sy) (snd sy) (fst sz) (snd sz)
      (Ray.at_ r).
Proof.
  unfold Ray.intersectBox, slabResult, slabInterval.
  change (@num RNum) with R.
  cbn [nltb nleb neqb nsub nmul ndiv zero one RNum].
  destruct (Rleb 0 (1 / Vector3.x (Ray.direction r)));
  destruct (Rleb 0 (1 / Vector3.y (Ray.direction r)));
  destruct (Rleb 0 (1 / Vector3.z (Ray.direction r)));
  cbv beta iota zeta; cbn [fst snd];
    rewrite !Reqb_refl; cbn [negb]; rewrite !orb_false_r; reflexivity.
Qed.

Lemma mult_pos_sign (a k : R) : 0 < k -> (0 <= a * k <-> 0 <= a).
Proof.
  intros Hk. split; intros H.
  - destruct (Rle_dec 0 a) as [|Hn]; [assumption|]. exfalso.
    assert (0 < - a * k) by (apply Rmult_lt_0_compat; lra). lra.
  - apply Rmult_le_pos; lra.
Qed.

(** On one axis, the points of the line between the two planes of the
    slab are those whose parameter lies between the two crossings. *)
Lemma slabInterval_spec (lo hi o d : R) :
  d <> 0 -> lo <= hi ->
  fst (slabInterval lo hi o d) <= snd (slabInterval lo hi o d)
  /\ forall t : R,
       lo <= d * t + o <= hi
       <-> fst (slabInterval lo hi o d) <= t <= snd (slabInterval lo hi o d).
Proof.
  intros Hd Hlohi. unfold slabInterval.
  assert (Hinv : 1 / d * d = 1) by (field; exact Hd).
  set (k := 1 / d) in *.
  assert (Elo : forall t : R, t - (lo - o) * k = (d * t + o - lo) * k).
  { intros t. replace (t - (lo - o) * k)
                with (t * (k * d) - (lo - o) * k) by (rewrite Hinv; ring).
    ring. }
  assert (Ehi : forall t : R, (hi - o) * k - t = (hi - (d * t + o)) * k).
  { intros t. replace ((hi - o) * k - t)
                with ((hi - o) * k - t * (k * d)) by (rewrite Hinv; ring).
    ring. }
  destruct (Rleb 0 k) eqn:Ek; rprop; cbn [fst snd].
  - assert (Hk : 0 < k).
    { destruct (Req_dec k 0) as [E0|]; [|lra]. rewrite E0 in Hinv. lra. }
    split.
    + assert (0 <= (hi - lo) * k) by (apply Rmult_le_pos; lra). lra.
    + intros t.
      pose proof (mult_pos_sign (d * t + o - lo) k Hk) as H1.
      pose proof (mult_pos_sign (hi - (d * t + o)) k Hk) as H2.
      specialize (Elo t). specialize (Ehi t). split; intros H; lra.
  - assert (Hk : 0 < - k) by lra.
    assert (Elo' : forall t : R,
               (lo - o) * k - t = (d * t + o - lo) * - k)
      by (intros t; specialize (Elo t); lra).
    assert (Ehi' : forall t : R,
               t - (hi - o) * k = (hi - (d * t + o)) * - k)
      by (intros t; specialize (Ehi t); lra).
    split.
    + assert (0 <= (hi - lo) * - k) by (apply Rmult_le_pos; lra). lra.
    + intros t.
      pose proof (mult_pos_sign (d * t + o - lo) (- k) Hk) as H1.
      pose proof (mult_pos_sign (hi - (d * t + o)) (- k) Hk) as H2.
      specialize (Elo' t). specialize (Ehi' t). split; intros H; lra.
Qed.

(** Three nonempty intervals: their intersection is the interval that
    [slabResult] narrows down to, and [slabResult] returns the value at
    its lower end if that is not negative, else at its upper end if that
    is not negative, else nothing. *)
Lemma slabResult_spec {A : Type} (xm xM ym yM zm zM : R) (f : R -> A) :
  xm <= xM -> ym <= yM -> zm <= zM ->
  exists tmin tmax : R,
    (forall t : R,
       (xm <= t <= xM /\ ym <= t <= yM /\ zm <= t <= zM)
       <-> tmin <= t <= tmax)
    /\ (tmax < tmin \/ tmax < 0 ->
        slabResult xm xM ym yM zm zM f = None)
    /\ (tmin <= tmax -> 0 <= tmin ->
        slabResult xm xM ym yM zm zM f = Some (f tmin))
    /\ (tmin <= tmax -> tmin < 0 -> 0 <= tmax ->
        slabResult xm xM ym yM zm zM f = Some (f tmax)).
Proof.
  intros Hx Hy Hz.
  exists (if Rltb (if Rltb xm ym then ym else xm) zm then zm
          else if Rltb xm ym then ym else xm),
         (if Rltb zM (if Rltb yM xM then yM else xM) then zM
          else if Rltb yM xM then yM else xM).
  unfold slabResult.
  destruct (Rltb xm ym) eqn:E1, (Rltb yM xM) eqn:E2; rprop;
  match goal with
  | |- context [Rltb ?a zm] => destruct (Rltb a zm) eqn:E3
  end;
  match goal with
  | |- context [Rltb zM ?a] => destruct (Rltb zM a) eqn:E4
  end; rprop;
  match goal with
  | |- context [Rltb yM xm || Rltb xM ym] =>
      destruct (Rltb yM xm) eqn:E5, (Rltb xM ym) eqn:E6
  end; cbn [orb]; rprop;
  repeat match goal with
  | |- context [Rltb ?a ?b] =>
      lazymatch goal with
      | H : a < b |- _ => fail
      | H : b <= a |- _ => fail
      | _ => let E := fresh "E" in destruct (Rltb a b) eqn:E; rprop
      end
  end; cbn [orb];
  repeat match goal with
  | |- context [Rleb ?a ?b] =>
      let E := fresh "E" in destruct (Rleb a b) eqn:E; rprop
  end;
  (split; [intros t; split; intros; lra|]);
  repeat split; intros; try reflexivity; try (exfalso; lra);
  try (match goal with H : _ \/ _ |- _ => destruct H end; exfalso; lra).
Qed.

Lemma insideBox_at (r : Ray.t) (b : Box3.t) (t : R) :
  insideBox b (Ray.at_ r t)
  <-> (Vector3.x (Box3.min b)
       <= Vector3.x (Ray.direction r) * t + Vector3.x (Ray.origin r)
       <= Vector3.x (Box3.max b))
      /\ (Vector3.y (Box3.min b)
          <= Vector3.y (Ray.direction r) * t + Vector3.y (Ray.origin r)
          <= Vector3.y (Box3.max b))
      /\ (Vector3.z (Box3.min b)
          <= Vector3.z (Ray.direction r) * t + Vector3.z (Ray.origin r)
          <= Vector3.z (Box3.max b)).
Proof. unfold insideBox, Ray.at_. vsimpl. reflexivity. Qed.

(** X18: for a box with [min <= max] and a direction none of whose
    components is zero, the parameters of the points of the line that lie
    in the box form an interval [tmin, tmax], and [intersectBox] returns
    the entry point [at tmin] when it is not behind the origin, otherwise
    the exit point [at tmax] when that is not behind the origin, and null
    when the interval is empty or entirely behind the origin. *)
Theorem intersectBox_entry_or_exit (r : Ray.t) (b : Box3.t) :
  Vector3.x (Ray.direction r) <> 0 ->
  Vector3.y (Ray.direction r) <> 0 ->
  Vector3.z (Ray.direction r) <> 0 ->
  Vector3.x (Box3.min b) <= Vector3.x (Box3.max b) ->
  Vector3.y (Box3.min b) <= Vector3.y (Box3.max b) ->
  Vector3.z (Box3.min b) <= Vector3.z (Box3.max b) ->
  exists tmin tmax : R,
    (forall t : R, insideBox b (Ray.at_ r t) <-> tmin <= t <= tmax)
    /\ (tmax < tmin \/ tmax < 0 -> Ray.intersectBox r b = None)
    /\ (tmin <= tmax -> 0 <= tmin ->
        Ray.intersectBox r b = Some (Ray.at_ r tmin))
    /\ (tmin <= tmax -> tmin < 0 -> 0 <= tmax ->
        Ray.intersectBox r b = Some (Ray.at_ r tmax)).
Proof.
  intros Hdx Hdy Hdz Hbx Hby Hbz.
  rewrite intersectBox_slabResult. cbv zeta.
  destruct (slabInterval_spec _ _ (Vector3.x (Ray.origin r)) _ Hdx Hbx)
    as [Hx Hxt].
  destruct (slabInterval_spec _ _ (Vector3.y (Ray.origin r)) _ Hdy Hby)
    as [Hy Hyt].
  destruct (slabInterval_spec _ _ (Vector3.z (Ray.origin r)) _ Hdz Hbz)
    as [Hz Hzt].
  destruct (slabResult_spec _ _ _ _ _ _ (Ray.at_ r) Hx Hy Hz)
    as [tmin [tmax [Hiff Hres]]].
  exists tmin, tmax. split; [|exact Hres].
  intros t. rewrite insideBox_at, <- Hiff, <- Hxt, <- Hyt, <- Hzt.
  change (@num RNum) with R. reflexivity.
Qed.

Definition ray_through_box : Ray.t :=
  Ray.mk (Vector3.mk (-3) 0 0) (Vector3.mk 1 1 1).
Definition box_pm1 : Box3.t :=
  Box3.mk (Vector3.mk (-1) (-1) (-1)) (Vector3.mk 1 1 1).

Lemma intersectBox_entry_or_exit_witness :
  Vector3.x (Ray.direction ray_through_box) <> 0
  /\ Vector3.y (Ray.direction ray_through_box) <> 0
  /\ Vector3.z (Ray.direction ray_through_box) <> 0
  /\ Vector3.x (Box3.min box_pm1) <= Vector3.x (Box3.max box_pm1)
  /\ Vector3.y (Box3.min box_pm1) <= Vector3.y (Box3.max box_pm1)
  /\ Vector3.z (Box3.min box_pm1) <= Vector3.z (Box3.max box_pm1)
  /\ exists tmin tmax : R,
       forall t : R,
         insideBox box_pm1 (Ray.at_ ray_through_box t) <-> tmin <= t <= tmax.
Proof.
  assert (H1 : Vector3.x (Ray.direction ray_through_box) <> 0) by (cbn; lra).
  assert (H2 : Vector3.y (Ray.direction ray_through_box) <> 0) by (cbn; lra).
  assert (H3 : Vector3.z (Ray.direction ray_through_box) <> 0) by (cbn; lra).
  assert (H4 : Vector3.x (Box3.min box_pm1) <= Vector3.x (Box3.max box_pm1))
    by (cbn; lra).
  assert (H5 : Vector3.y (Box3.min box_pm1) <= Vector3.y (Box3.max box_pm1))
    by (cbn; lra).
  assert (H6 : Vector3.z (Box3.min box_pm1) <= Vector3.z (Box3.max box_pm1))
    by (cbn; lra).
  repeat (split; [assumption|]).
  destruct (intersectBox_entry_or_exit ray_through_box box_pm1
              H1 H2 H3 H4 H5 H6) as [tmin [tmax [H _]]].
  exists tmin, tmax. exact H.
Defined.

(** X19: under the same assumptions, [intersectsBox] is true exactly when
    some point of the ray lies in the box. *)
Theorem intersectsBox_iff_ray_meets_box (r : Ray.t) (b : Box3.t) :
  Vector3.x (Ray.direction r) <> 0 ->
  Vector3.y (Ray.direction r) <> 0 ->
  Vector3.z (Ray.direction r) <> 0 ->
  Vector3.x (Box3.min b) <= Vector3.x (Box3.max b) ->
  Vector3.y (Box3.min b) <= Vector3.y (Box3.max b) ->
  Vector3.z (Box3.min b) <= Vector3.z (Box3.max b) ->
  Ray.intersectsBox r b = true
  <-> exists t : R, 0 <= t /\ insideBox b (Ray.at_ r t).
Proof.
  intros Hdx Hdy Hdz Hbx Hby Hbz.
  unfold Ray.intersectsBox. rewrite intersectBox_slabResult. cbv zeta.
  destruct (slabInterval_spec _ _ (Vector3.x (Ray.origin r)) _ Hdx Hbx)
    as [Hx Hxt].
  destruct (slabInterval_spec _ _ (Vector3.y (Ray.origin r)) _ Hdy Hby)
    as [Hy Hyt].
  destruct (slabInterval_spec _ _ (Vector3.z (Ray.origin r)) _ Hdz Hbz)
    as [Hz Hzt].
  destruct (slabResult_spec _ _ _ _ _ _ (Ray.at_ r) Hx Hy Hz)
    as [tmin [tmax [Hiff [Hnone [Hentry Hexit]]]]].
  assert (Hin : forall t : R, insideBox b (Ray.at_ r t) <-> tmin <= t <= tmax).
  { intros t. rewrite insideBox_at, <- Hiff, <- Hxt, <- Hyt, <- Hzt.
    change (@num RNum) with R. reflexivity. }
  destruct (Rlt_dec tmax tmin) as [Hempty|Hne].
  - rewrite Hnone by (now left). split; [discriminate|].
    intros [t [_ Ht]]. apply Hin in Ht. lra.
  - destruct (Rlt_dec tmax 0) as [Hbehind|Hahead].
    + rewrite Hnone by (now right). split; [discriminate|].
      intros [t [Ht0 Ht]]. apply Hin in Ht. lra.
    + destruct (Rle_dec 0 tmin) as [Hpos|Hneg].
      * rewrite Hentry by lra. split; [|reflexivity].
        intros _. exists tmin. split; [exact Hpos|]. apply Hin. lra.
      * rewrite Hexit by lra. split; [|reflexivity].
        intros _. exists tmax. split; [lra|]. apply Hin. lra.
Qed.

Lemma intersectsBox_iff_ray_meets_box_witness :
  Vector3.x (Ray.direction ray_through_box) <> 0
  /\ Vector3.y (Ray.direction ray_through_box) <> 0
  /\ Vector3.z (Ray.direction ray_through_box) <> 0
  /\ Vector3.x (Box3.min box_pm1) <= Vector3.x (Box3.max box_pm1)
  /\ Vector3.y (Box3.min box_pm1) <= Vector3.y (Box3.max box_pm1)
  /\ Vector3.z (Box3.min box_pm1) <= Vector3.z (Box3.max box_pm1)
  /\ (Ray.intersectsBox ray_through_box box_pm1 = true
      <-> exists t : R, 0 <= t /\ insideBox box_pm1 (Ray.at_ ray_through_box t)).
Proof.
  assert (H1 : Vector3.x (Ray.direction ray_through_box) <> 0) by (cbn; lra).
  assert (H2 : Vector3.y (Ray.direction ray_through_box) <> 0) by (cbn; lra).
  assert (H3 : Vector3.z (Ray.direction ray_through_box) <> 0) by (cbn; lra).
  assert (H4 : Vector3.x (Box3.min box_pm1) <= Vector3.x (Box3.max box_pm1))
    by (cbn; lra).
  assert (H5 : Vector3.y (Box3.min box_pm1) <= Vector3.y (Box3.max box_pm1))
    by (cbn; lra).
  assert (H6 : Vector3.z (Box3.min box_pm1) <= Vector3.z (Box3.max box_pm1))
    by (cbn; lra).
  repeat (split; [assumption|]).
  exact (intersectsBox_iff_ray_meets_box ray_through_box box_pm1
           H1 H2 H3 H4 H5 H6).
Defined.

(** ** Ray and triangle: the barycentric solve finds the triangle *)

(** The closed triangle [a b c]: the points [a + u (b - a) + v (c - a)]
    with [u, v >= 0] and [u + v <= 1]. *)
Definition inTriangle (a b c q : Vector3.t) : Prop :=
  exists u v : R,
    0 <= u /\ 0 <= v /\ u + v <= 1
    /\ q = Vector3.add
             (Vector3.add a (Vector3.multiplyScalar (Vector3.sub b a) u))
             (Vector3.multiplyScalar (Vector3.sub c a) v).

(** Cramer's rule for [o + t d = a + u e1 + v e2]: the three numerators the
    source computes, over the common denominator [D = dot d (cross e1 e2)]. *)
Lemma triangle_cramer_solves (o d a b c : Vector3.t) :
  let e1 := Vector3.sub b a in
  let e2 := Vector3.sub c a in
  let n := Vector3.crossVectors e1 e2 in
  let q := Vector3.sub o a in
  let D := Vector3.dot d n in
  D <> 0 ->
  Vector3.add (Vector3.multiplyScalar d (- Vector3.dot q n / D)) o
  = Vector3.add
      (Vector3.add a
         (Vector3.multiplyScalar e1
            (Vector3.dot d (Vector3.crossVectors q e2) / D)))
      (Vector3.multiplyScalar e2
         (Vector3.dot d (Vector3.crossVectors e1 q) / D)).
Proof.
  destruct o as [ox oy oz], d as [dx dy dz], a as [ax ay az],
    b as [bx by_ bz], c as [cx cy cz].
  vsimpl. intros HD. apply vector_eq; field; exact HD.
Qed.

Lemma triangle_cramer_unique (o d a b c : Vector3.t) (t u v : R) :
  let e1 := Vector3.sub b a in
  let e2 := Vector3.sub c a in
  let n := Vector3.crossVectors e1 e2 in
  let q := Vector3.sub o a in
  let D := Vector3.dot d n in
  Vector3.add (Vector3.multiplyScalar d t) o
  = Vector3.add (Vector3.add a (Vector3.multiplyScalar e1 u))
      (Vector3.multiplyScalar e2 v) ->
  Vector3.dot d (Vector3.crossVectors q e2) = u * D
  /\ Vector3.dot d (Vector3.crossVectors e1 q) = v * D
  /\ - Vector3.dot q n = t * D.
Proof.
  destruct o as [ox oy oz], d as [dx dy dz], a as [ax ay az],
    b as [bx by_ bz], c as [cx cy cz].
  vsimpl. intros [= Hx Hy Hz].
  assert (Ex : ox - ax = (bx - ax) * u + (cx - ax) * v - dx * t) by lra.
  assert (Ey : oy - ay = (by_ - ay) * u + (cy - ay) * v - dy * t) by lra.
  assert (Ez : oz - az = (bz - az) * u + (cz - az) * v - dz * t) by lra.
  rewrite Ex, Ey, Ez. repeat split; ring.
Qed.

(** The value [intersectTriangle] computes once the sign of [DdN] is
    known, with the numerators of Cramer's rule. *)
Lemma intersectTriangle_exact (r : Ray.t) (a b c : Vector3.t)
    (backfaceCulling : bool) :
  let e1 := Vector3.sub b a in
  let e2 := Vector3.sub c a in
  let n := Vector3.crossVectors e1 e2 in
  let q := Vector3.sub (Ray.origin r) a in
  let D := Vector3.dot (Ray.direction r) n in
  let N1 := Vector3.dot (Ray.direction r) (Vector3.crossVectors q e2) in
  let N2 := Vector3.dot (Ray.direction r) (Vector3.crossVectors e1 q) in
  let Nt := Vector3.dot q n in
  Ray.intersectTriangle r a b c backfaceCulling
  = if Rltb 0 D then
      if backfaceCulling then None
      else if Rltb (1 * N1) 0 then None
      else if Rltb (1 * N2) 0 then None
      else if Rltb D (1 * N1 + 1 * N2) then None
      else if Rltb (- (1) * Nt) 0 then None
      else Some (Ray.at_ r (- (1) * Nt / D))
    else if Rltb D 0 then
      if Rltb (- (1) * N1) 0 then None
      else if Rltb (- (1) * N2) 0 then None
      else if Rltb (- D) (- (1) * N1 + - (1) * N2) then None
      else if Rltb (- - (1) * Nt) 0 then None
      else Some (Ray.at_ r (- - (1) * Nt / - D))
    else None.
Proof. reflexivity. Qed.

Lemma div_nonneg (a d : R) : 0 <= a -> 0 < d -> 0 <= a / d.
Proof.
  intros Ha Hd. unfold Rdiv. apply Rmult_le_pos; [exact Ha|].
  left. now apply Rinv_0_lt_compat.
Qed.

(** The point Cramer's rule yields is in the triangle and ahead of the
    origin when the three numerators, taken with the sign of [D], pass the
    tests of the source. *)
Lemma triangle_hit (r : Ray.t) (a b c : Vector3.t) (sg : R) :
  let e1 := Vector3.sub b a in
  let e2 := Vector3.sub c a in
  let n := Vector3.crossVectors e1 e2 in
  let q := Vector3.sub (Ray.origin r) a in
  let D := Vector3.dot (Ray.direction r) n in
  let N1 := Vector3.dot (Ray.direction r) (Vector3.crossVectors q e2) in
  let N2 := Vector3.dot (Ray.direction r) (Vector3.crossVectors e1 q) in
  let Nt := Vector3.dot q n in
  sg * sg = 1 -> 0 < sg * D ->
  0 <= sg * N1 -> 0 <= sg * N2 -> sg * N1 + sg * N2 <= sg * D ->
  0 <= - sg * Nt ->
  0 <= - sg * Nt / (sg * D)
  /\ inTriangle a b c (Ray.at_ r (- sg * Nt / (sg * D))).
Proof.
  intros e1 e2 n q D N1 N2 Nt Hsg HD H1 H2 H12 Ht.
  assert (HD0 : D <> 0) by (intros E; rewrite E in HD; lra).
  assert (Hsg0 : sg <> 0) by (intros E; rewrite E in Hsg; lra).
  split; [now apply div_nonneg|].
  exists (N1 / D), (N2 / D).
  assert (E1 : N1 / D = sg * N1 / (sg * D)) by (field; split; assumption).
  assert (E2 : N2 / D = sg * N2 / (sg * D)) by (field; split; assumption).
  assert (E12 : 1 - (N1 / D + N2 / D)
                = (sg * D - (sg * N1 + sg * N2)) / (sg * D))
    by (field; split; assumption).
  split; [rewrite E1; now apply div_nonneg|].
  split; [rewrite E2; now apply div_nonneg|].
  split.
  { assert (0 <= (sg * D - (sg * N1 + sg * N2)) / (sg * D))
      by (apply div_nonneg; lra).
    lra. }
  replace (- sg * Nt / (sg * D)) with (- Nt / D) by (field; split; assumption).
  unfold Ray.at_.
  exact (triangle_cramer_solves (Ray.origin r) (Ray.direction r) a b c HD0).
Qed.

Lemma triangle_miss (r : Ray.t) (a b c : Vector3.t) (sg t : R) :
  let e1 := Vector3.sub b a in
  let e2 := Vector3.sub c a in
  let n := Vector3.crossVectors e1 e2 in
  let q := Vector3.sub (Ray.origin r) a in
  let D := Vector3.dot (Ray.direction r) n in
  let N1 := Vector3.dot (Ray.direction r) (Vector3.crossVectors q e2) in
  let N2 := Vector3.dot (Ray.direction r) (Vector3.crossVectors e1 q) in
  let Nt := Vector3.dot q n in
  0 < sg * D -> 0 <= t ->
  inTriangle a b c (Ray.at_ r t) ->
  0 <= sg * N1 /\ 0 <= sg * N2 /\ sg * N1 + sg * N2 <= sg * D
  /\ 0 <= - sg * Nt.
Proof.
  intros e1 e2 n q D N1 N2 Nt HD Ht [u [v [Hu [Hv [Huv Hq]]]]].
  unfold Ray.at_ in Hq.
  destruct (triangle_cramer_unique (Ray.origin r) (Ray.direction r) a b c
              t u v Hq) as [E1 [E2 Et]].
  fold e1 e2 in E1, E2, Et. fold n in Et, E1, E2. fold q in E1, E2, Et.
  fold D in E1, E2, Et. fold N1 in E1. fold N2 in E2. fold Nt in Et.
  change (@num RNum) with R in *.
  assert (Hs1 : sg * N1 = u * (sg * D)) by (rewrite E1; ring).
  assert (Hs2 : sg * N2 = v * (sg * D)) by (rewrite E2; ring).
  assert (Hst : - sg * Nt = t * (sg * D))
    by (replace (- sg * Nt) with (sg * - Nt) by ring; rewrite Et; ring).
  assert (0 <= u * (sg * D)) by (apply Rmult_le_pos; lra).
  assert (0 <= v * (sg * D)) by (apply Rmult_le_pos; lra).
  assert (0 <= t * (sg * D)) by (apply Rmult_le_pos; lra).
  assert (0 <= (1 - (u + v)) * (sg * D)) by (apply Rmult_le_pos; lra).
  repeat split; lra.
Qed.

(** X20: [intersectTriangle] finds the point where the ray pierces the
    triangle.  A returned point is [at t] with [t >= 0] and lies in the
    closed triangle, and under backface culling the ray then meets the
    face from the front ([DdN < 0]).  When null is returned although the
    ray is not parallel to the plane of the triangle and the face is not
    culled, no point of the ray lies in the triangle. *)
Theorem intersectTriangle_hits_triangle (r : Ray.t) (a b c : Vector3.t)
    (backfaceCulling : bool) :
  let n := Vector3.cross (Vector3.sub b a) (Vector3.sub c a) in
  let DdN := Vector3.dot (Ray.direction r) n in
  (forall q : Vector3.t,
     Ray.intersectTriangle r a b c backfaceCulling = Some q ->
     (exists t : R, 0 <= t /\ q = Ray.at_ r t)
     /\ inTriangle a b c q
     /\ (backfaceCulling = true -> DdN < 0))
  /\ (Ray.intersectTriangle r a b c backfaceCulling = None ->
      DdN <> 0 ->
      ~ (backfaceCulling = true /\ 0 < DdN) ->
      forall t : R, 0 <= t -> ~ inTriangle a b c (Ray.at_ r t)).
Proof.
  intros n DdN. rewrite intersectTriangle_exact. cbv zeta.
  pose proof (triangle_hit r a b c 1) as Hhit1.
  pose proof (triangle_hit r a b c (- (1))) as Hhitm.
  pose proof (triangle_miss r a b c 1) as Hmiss1.
  pose proof (triangle_miss r a b c (- (1))) as Hmissm.
  cbv zeta in Hhit1, Hhitm, Hmiss1, Hmissm.
  change (Vector3.cross (Vector3.sub b a) (Vector3.sub c a))
    with (Vector3.crossVectors (Vector3.sub b a) (Vector3.sub c a)) in n.
  fold n in Hhit1, Hhitm, Hmiss1, Hmissm |- *.
  fold DdN in Hhit1, Hhitm, Hmiss1, Hmissm |- *.
  set (q := Vector3.sub (Ray.origin r) a) in *.
  set (N1 := Vector3.dot (Ray.direction r)
               (Vector3.crossVectors q (Vector3.sub c a))) in *.
  set (N2 := Vector3.dot (Ray.direction r)
               (Vector3.crossVectors (Vector3.sub b a) q)) in *.
  set (Nt := Vector3.dot q n) in *.
  change (@num RNum) with R in *.
  destruct (Rltb 0 DdN) eqn:Epos; rprop.
  - destruct backfaceCulling.
    + split; [discriminate|]. intros _ _ Hc. exfalso. apply Hc. now split.
    + assert (HD : 0 < 1 * DdN) by lra.
      destruct (Rltb (1 * N1) 0) eqn:E1; rprop;
        [split; [discriminate|]; intros _ _ _ t Ht Hin;
         destruct (Hmiss1 t HD Ht Hin) as [? [? [? ?]]]; lra|].
      destruct (Rltb (1 * N2) 0) eqn:E2; rprop;
        [split; [discriminate|]; intros _ _ _ t Ht Hin;
         destruct (Hmiss1 t HD Ht Hin) as [? [? [? ?]]]; lra|].
      destruct (Rltb DdN (1 * N1 + 1 * N2)) eqn:E3; rprop;
        [split; [discriminate|]; intros _ _ _ t Ht Hin;
         destruct (Hmiss1 t HD Ht Hin) as [? [? [? ?]]]; lra|].
      destruct (Rltb (- (1) * Nt) 0) eqn:E4; rprop;
        [split; [discriminate|]; intros _ _ _ t Ht Hin;
         destruct (Hmiss1 t HD Ht Hin) as [? [? [? ?]]]; lra|].
      split; [|discriminate]. intros p [= <-].
      assert (Hs : 1 * 1 = 1) by ring.
      destruct (Hhit1 Hs HD E1 E2 ltac:(lra) E4) as [Ht Hin].
      replace (- (1) * Nt / (1 * DdN)) with (- (1) * Nt / DdN) in Ht, Hin
        by (field; lra).
      split; [eexists; split; [exact Ht|reflexivity]|].
      split; [exact Hin|discriminate].
  - destruct (Rltb DdN 0) eqn:Eneg; rprop.
    + assert (HD : 0 < - (1) * DdN) by lra.
      destruct (Rltb (- (1) * N1) 0) eqn:E1; rprop;
        [split; [discriminate|]; intros _ _ _ t Ht Hin;
         destruct (Hmissm t HD Ht Hin) as [? [? [? ?]]]; lra|].
      destruct (Rltb (- (1) * N2) 0) eqn:E2; rprop;
        [split; [discriminate|]; intros _ _ _ t Ht Hin;
         destruct (Hmissm t HD Ht Hin) as [? [? [? ?]]]; lra|].
      destruct (Rltb (- DdN) (- (1) * N1 + - (1) * N2)) eqn:E3; rprop;
        [split; [discriminate|]; intros _ _ _ t Ht Hin;
         destruct (Hmissm t HD Ht Hin) as [? [? [? ?]]]; lra|].
      destruct (Rltb (- - (1) * Nt) 0) eqn:E4; rprop;
        [split; [discriminate|]; intros _ _ _ t Ht Hin;
         destruct (Hmissm t HD Ht Hin) as [? [? [? ?]]]; lra|].
      split; [|discriminate]. intros p [= <-].
      assert (Hs : - (1) * - (1) = 1) by ring.
      destruct (Hhitm Hs HD E1 E2 ltac:(lra) E4) as [Ht Hin].
      replace (- - (1) * Nt / (- (1) * DdN)) with (- - (1) * Nt / - DdN)
        in Ht, Hin by (field; lra).
      split; [eexists; split; [exact Ht|reflexivity]|].
      split; [exact Hin|intros _; exact Eneg].
    + split; [discriminate|]. intros _ Hne. exfalso. lra.
Qed.

(** ** Ray and segment: the distance returned is the least *)

(** The quadratic form that [distanceSqToSegment] minimises over
    [x >= 0] and [- ext <= y <= ext]. *)
Definition Qform (a01 b0 b1 c x y : R) : R :=
  x * x + y * y + 2 * a01 * x * y + 2 * b0 * x + 2 * b1 * y + c.

(** The form is convex when [a01^2 <= 1]: a point at which the two partial
    derivatives point into the feasible region is a minimum. *)
Lemma convex_min (a01 b0 b1 c s t x y : R) :
  a01 * a01 <= 1 ->
  0 <= (s + a01 * t + b0) * (x - s) ->
  0 <= (a01 * s + t + b1) * (y - t) ->
  Qform a01 b0 b1 c s t <= Qform a01 b0 b1 c x y.
Proof.
  intros A H0 H1. unfold Qform.
  pose proof (Rle_0_sqr ((x - s) + a01 * (y - t))) as Hsq1.
  pose proof (Rle_0_sqr (y - t)) as Hsq2. unfold Rsqr in *.
  assert (Hsq3 : 0 <= (1 - a01 * a01) * ((y - t) * (y - t)))
    by (apply Rmult_le_pos; lra).
  assert (E : x * x + y * y + 2 * a01 * x * y + 2 * b0 * x + 2 * b1 * y + c
              - (s * s + t * t + 2 * a01 * s * t + 2 * b0 * s + 2 * b1 * t + c)
              = 2 * ((s + a01 * t + b0) * (x - s))
                + 2 * ((a01 * s + t + b1) * (y - t))
                + ((x - s) + a01 * (y - t)) * ((x - s) + a01 * (y - t))
                + (1 - a01 * a01) * ((y - t) * (y - t))) by ring.
  lra.
Qed.

Lemma nonpos_product (a b : R) : a <= 0 -> b <= 0 -> 0 <= a * b.
Proof.
  intros Ha Hb. replace (a * b) with (- a * - b) by ring.
  apply Rmult_le_pos; lra.
Qed.

(** The derivative in the ray parameter, at the clamped minimiser for a
    given segment parameter [e], points into [x >= 0]. *)
Lemma ray_clamp_gradient (a01 b0 e x : R) :
  0 <= x ->
  0 <= (Rmax 0 (- (a01 * e + b0)) + a01 * e + b0)
       * (x - Rmax 0 (- (a01 * e + b0))).
Proof.
  intros Hx. unfold Rmax. destruct (Rle_dec 0 (- (a01 * e + b0))).
  - match goal with |- 0 <= ?p => replace p with 0 by ring end. lra.
  - apply Rmult_le_pos; lra.
Qed.

(** The derivative in the segment parameter, at the clamped minimiser for
    the ray parameter 0, points into [- ext <= y <= ext]. *)
Lemma clamp_gradient (b1 ext y : R) :
  0 <= ext -> - ext <= y <= ext ->
  0 <= (Rmin (Rmax (- ext) (- b1)) ext + b1)
       * (y - Rmin (Rmax (- ext) (- b1)) ext).
Proof.
  intros He Hy. unfold Rmin, Rmax.
  destruct (Rle_dec (- ext) (- b1)); destruct (Rle_dec _ ext).
  - match goal with |- 0 <= ?p => replace p with 0 by ring end. lra.
  - apply nonpos_product; lra.
  - apply Rmult_le_pos; lra.
  - lra.
Qed.

Lemma clamp_cases (b1 ext : R) :
  0 <= ext ->
  let t := Rmin (Rmax (- ext) (- b1)) ext in
  (t = - b1 /\ - ext <= - b1 <= ext)
  \/ (t = ext /\ ext < - b1)
  \/ (t = - ext /\ - b1 < - ext).
Proof.
  intros He. cbv zeta. unfold Rmin, Rmax.
  destruct (Rle_dec (- ext) (- b1)); destruct (Rle_dec _ ext); lra.
Qed.

Lemma sign_strict (a g u : R) :
  a * a <= 1 -> u <= a * g -> g < a * u -> 0 < u -> g < 0.
Proof.
  intros A H1 H2 Hu. destruct (Rlt_dec g 0) as [|Hg]; [assumption|].
  exfalso. assert (Hg0 : 0 <= g) by lra.
  assert (Ha : 0 < a).
  { destruct (Rlt_dec 0 a) as [|Hn]; [assumption|]. exfalso.
    assert (0 <= - a * g) by (apply Rmult_le_pos; lra). lra. }
  assert (H3 : a * u <= a * (a * g)) by (apply Rmult_le_compat_l; lra).
  assert (H4 : a * a * g <= 1 * g) by (apply Rmult_le_compat_r; lra).
  lra.
Qed.

Lemma sign_weak (a g u : R) :
  a * a <= 1 -> a * g < u -> a * u <= g -> g <= 0 -> 0 <= u.
Proof.
  intros A H1 H2 Hg. destruct (Rle_dec 0 u) as [|Hu]; [assumption|].
  exfalso. assert (Hu0 : u < 0) by lra.
  assert (Ha : 0 <= a).
  { destruct (Rle_dec 0 a) as [|Hn]; [assumption|]. exfalso.
    assert (0 < - a * - u) by (apply Rmult_lt_0_compat; lra). lra. }
  destruct (Req_dec a 0) as [E|Hne].
  - rewrite E in H1. lra.
  - assert (H3 : a * (a * g) < a * u) by (apply Rmult_lt_compat_l; lra).
    assert (H4 : 0 <= - g * (1 - a * a)) by (apply Rmult_le_pos; lra).
    lra.
Qed.

Lemma region0_minimal (a01 b0 b1 c det x y : R) :
  a01 * a01 <= 1 -> det = 1 - a01 * a01 -> 0 < det ->
  Qform a01 b0 b1 c
    ((a01 * b1 - b0) * (1 / det)) ((a01 * b0 - b1) * (1 / det))
  <= Qform a01 b0 b1 c x y.
Proof.
  intros A Hdet Hpos. apply convex_min; [exact A| |].
  - replace ((a01 * b1 - b0) * (1 / det)
             + a01 * ((a01 * b0 - b1) * (1 / det)) + b0)
      with 0 by (rewrite Hdet; field; lra).
    lra.
  - replace (a01 * ((a01 * b1 - b0) * (1 / det))
             + (a01 * b0 - b1) * (1 / det) + b1)
      with 0 by (rewrite Hdet; field; lra).
    lra.
Qed.

Lemma region1_minimal (a01 b0 b1 c ext x y : R) :
  a01 * a01 <= 1 ->
  0 <= a01 * b1 - b0 ->
  ext * (1 - a01 * a01) < a01 * b0 - b1 ->
  0 <= x -> y <= ext ->
  Qform a01 b0 b1 c (Rmax 0 (- (a01 * ext + b0))) ext
  <= Qform a01 b0 b1 c x y.
Proof.
  intros A HS0 HS1 Hx Hy.
  apply convex_min; [exact A | now apply ray_clamp_gradient |].
  apply nonpos_product; [|lra].
  unfold Rmax. destruct (Rle_dec 0 (- (a01 * ext + b0))) as [Hle|Hn].
  - replace (a01 * - (a01 * ext + b0) + ext + b1)
      with (ext * (1 - a01 * a01) - (a01 * b0 - b1)) by ring.
    lra.
  - assert (Hg : ext + b1 < 0).
    { apply (sign_strict a01 (ext + b1) (a01 * ext + b0));
        [exact A | lra | lra | lra]. }
    lra.
Qed.

Lemma region2_minimal (a01 b0 b1 c ext x y : R) :
  a01 * a01 <= 1 -> 0 <= ext ->
  a01 * b1 - b0 < 0 ->
  ext * (1 - a01 * a01) <= a01 * b0 - b1 ->
  0 <= x -> - ext <= y <= ext ->
  let s := Rmax 0 (- (a01 * ext + b0)) in
  let t := if Rltb 0 s then ext else Rmin (Rmax (- ext) (- b1)) ext in
  Qform a01 b0 b1 c s t <= Qform a01 b0 b1 c x y.
Proof.
  intros A He HS0 HS1 Hx Hy. cbv zeta.
  pose proof (ray_clamp_gradient a01 b0 ext x Hx) as Hg0.
  assert (Hs : Rmax 0 (- (a01 * ext + b0))
               = if Rle_dec 0 (- (a01 * ext + b0))
                 then - (a01 * ext + b0) else 0) by reflexivity.
  destruct (Rltb 0 (Rmax 0 (- (a01 * ext + b0)))) eqn:Es; rprop.
  - (* the ray parameter is positive: the endpoint [ext] *)
    apply convex_min; [exact A | exact Hg0 |].
    apply nonpos_product; [|lra].
    rewrite Hs in *. destruct (Rle_dec 0 (- (a01 * ext + b0))); [|lra].
    replace (a01 * - (a01 * ext + b0) + ext + b1)
      with (ext * (1 - a01 * a01) - (a01 * b0 - b1)) by ring.
    lra.
  - (* the ray parameter is clamped to zero *)
    assert (Hs0 : Rmax 0 (- (a01 * ext + b0)) = 0).
    { rewrite Hs in *. destruct (Rle_dec 0 (- (a01 * ext + b0))); lra. }
    assert (Hu : 0 <= a01 * ext + b0).
    { rewrite Hs in Hs0. destruct (Rle_dec 0 (- (a01 * ext + b0))); lra. }
    rewrite Hs0.
    pose proof (clamp_gradient b1 ext y He Hy) as Hg1.
    destruct (clamp_cases b1 ext He) as [[Et Hr]|[[Et Hr]|[Et Hr]]];
      cbv zeta in Et; rewrite Et in *;
      (apply convex_min; [exact A | |
        replace (a01 * 0) with 0 by ring;
        match goal with |- 0 <= (0 + ?a + ?b) * _ =>
          replace (0 + a + b) with (a + b) by ring end; exact Hg1]).
    + apply Rmult_le_pos; lra.
    + apply Rmult_le_pos; lra.
    + apply Rmult_le_pos; [|lra].
      assert (Hg : 0 < ext + b1) by lra.
      assert (Hau : ext + b1 <= a01 * (a01 * ext + b0)).
      { replace (a01 * (a01 * ext + b0))
          with (a01 * b0 + a01 * a01 * ext) by ring.
        lra. }
      assert (Ha : 0 < a01).
      { destruct (Rlt_dec 0 a01) as [|Hn]; [assumption|]. exfalso.
        assert (0 <= - a01 * (a01 * ext + b0))
          by (apply Rmult_le_pos; lra).
        lra. }
      assert (Hab : a01 * ext < a01 * b1)
        by (apply Rmult_lt_compat_l; lra).
      lra.
Qed.

Lemma region3_minimal (a01 b0 b1 c ext x y : R) :
  a01 * a01 <= 1 -> 0 <= ext ->
  a01 * b1 - b0 < 0 ->
  - (ext * (1 - a01 * a01)) <= a01 * b0 - b1 ->
  a01 * b0 - b1 <= ext * (1 - a01 * a01) ->
  0 <= x -> - ext <= y <= ext ->
  Qform a01 b0 b1 c 0 (Rmin (Rmax (- ext) (- b1)) ext)
  <= Qform a01 b0 b1 c x y.
Proof.
  intros A He HS0 HS1lo HS1hi Hx Hy.
  pose proof (clamp_gradient b1 ext y He Hy) as Hg1.
  destruct (clamp_cases b1 ext He) as [[Et Hr]|[[Et Hr]|[Et Hr]]];
    cbv zeta in Et; rewrite Et in *;
    (apply convex_min; [exact A | |
      replace (a01 * 0) with 0 by ring;
      match goal with |- 0 <= (0 + ?a + ?b) * _ =>
        replace (0 + a + b) with (a + b) by ring end; exact Hg1]).
  - apply Rmult_le_pos; lra.
  - apply Rmult_le_pos; [|lra].
    assert (0 <= a01 * ext + b0); [|lra].
    apply (sign_weak a01 (ext + b1) (a01 * ext + b0)); [exact A| | |lra].
    + replace (a01 * (ext + b1)) with (a01 * ext + a01 * b1) by ring. lra.
    + replace (a01 * (a01 * ext + b0))
        with (a01 * b0 + a01 * a01 * ext) by ring.
      lra.
  - apply Rmult_le_pos; [|lra].
    assert (0 <= - a01 * ext + b0); [|lra].
    apply (sign_weak (- a01) (ext - b1) (- a01 * ext + b0)); [| | |lra].
    + replace (- a01 * - a01) with (a01 * a01) by ring. exact A.
    + replace (- a01 * (ext - b1)) with (- a01 * ext + a01 * b1) by ring.
      lra.
    + replace (- a01 * (- a01 * ext + b0))
        with (- (a01 * b0) + a01 * a01 * ext) by ring.
      lra.
Qed.

(** Reflecting the segment, [s1] to [- s1], swaps regions 1 and 5 and
    regions 2 and 4. *)
Lemma Qform_mirror (a01 b0 b1 c x y : R) :
  Qform a01 b0 b1 c x y = Qform (- a01) b0 (- b1) c x (- y).
Proof. unfold Qform. ring. Qed.

Lemma clamp_mirror (b1 ext : R) :
  0 <= ext ->
  Rmin (Rmax (- ext) (- b1)) ext = - Rmin (Rmax (- ext) (- - b1)) ext.
Proof.
  intros He. unfold Rmin, Rmax.
  destruct (Rle_dec (- ext) (- b1)); destruct (Rle_dec (- ext) (- - b1));
    repeat match goal with |- context [Rle_dec ?a ?b] =>
      destruct (Rle_dec a b) end; lra.
Qed.

Lemma region5_minimal (a01 b0 b1 c ext x y : R) :
  a01 * a01 <= 1 ->
  0 <= a01 * b1 - b0 ->
  a01 * b0 - b1 < - (ext * (1 - a01 * a01)) ->
  0 <= x -> - ext <= y ->
  Qform a01 b0 b1 c (Rmax 0 (- (a01 * - ext + b0))) (- ext)
  <= Qform a01 b0 b1 c x y.
Proof.
  intros A HS0 HS1 Hx Hy.
  rewrite (Qform_mirror a01 b0 b1 c x y).
  rewrite (Qform_mirror a01 b0 b1 c _ (- ext)).
  replace (- - ext) with ext by ring.
  replace (- (a01 * - ext + b0)) with (- (- a01 * ext + b0)) by ring.
  apply region1_minimal; lra.
Qed.

Lemma region4_minimal (a01 b0 b1 c ext x y : R) :
  a01 * a01 <= 1 -> 0 <= ext ->
  a01 * b1 - b0 < 0 ->
  a01 * b0 - b1 <= - (ext * (1 - a01 * a01)) ->
  0 <= x -> - ext <= y <= ext ->
  let s := Rmax 0 (- (- a01 * ext + b0)) in
  let t := if Rltb 0 s then - ext else Rmin (Rmax (- ext) (- b1)) ext in
  Qform a01 b0 b1 c s t <= Qform a01 b0 b1 c x y.
Proof.
  intros A He HS0 HS1 Hx Hy. cbv zeta.
  assert (A' : - a01 * - a01 <= 1)
    by (replace (- a01 * - a01) with (a01 * a01) by ring; exact A).
  assert (HS0' : - a01 * - b1 - b0 < 0) by lra.
  assert (HS1' : ext * (1 - - a01 * - a01) <= - a01 * b0 - - b1) by lra.
  assert (Hy' : - ext <= - y <= ext) by lra.
  pose proof (region2_minimal (- a01) b0 (- b1) c ext x (- y)
                A' He HS0' HS1' Hx Hy') as H.
  cbv zeta in H.
  rewrite (Qform_mirror a01 b0 b1 c x y).
  rewrite (Qform_mirror a01 b0 b1 c _ _).
  destruct (Rltb 0 (Rmax 0 (- (- a01 * ext + b0)))).
  - replace (- - ext) with ext by ring. exact H.
  - rewrite (clamp_mirror b1 ext He).
    replace (- - Rmin (Rmax (- ext) (- - b1)) ext)
      with (Rmin (Rmax (- ext) (- - b1)) ext) by ring.
    exact H.
Qed.

(** The parallel case: the quadratic form is degenerate, [a01] is [1] or
    [-1] and [b1 = a01 * b0]. *)
Lemma parallel_minimal (a01 b0 b1 c ext x y : R) :
  a01 * a01 = 1 -> b1 = a01 * b0 -> 0 <= ext ->
  0 <= x -> - ext <= y <= ext ->
  let t := if Rltb 0 a01 then - ext else ext in
  let s := Rmax 0 (- (a01 * t + b0)) in
  Qform a01 b0 b1 c s t <= Qform a01 b0 b1 c x y.
Proof.
  intros A Hb He Hx Hy. cbv zeta.
  assert (Ha : a01 = 1 \/ a01 = -1).
  { assert (Hz : (a01 - 1) * (a01 + 1) = 0) by (ring_simplify; lra).
    apply Rmult_integral in Hz. destruct Hz; [left|right]; lra. }
  apply convex_min; [lra | now apply ray_clamp_gradient |].
  destruct Ha as [-> | ->]; subst b1.
  - assert (E : Rltb 0 1 = true) by (rprop; lra). rewrite E.
    unfold Rmax. destruct (Rle_dec 0 (- (1 * - ext + b0)));
      apply Rmult_le_pos; lra.
  - assert (E : Rltb 0 (-1) = false) by (rprop; lra). rewrite E.
    apply nonpos_product; [|lra].
    unfold Rmax. destruct (Rle_dec 0 (- (-1 * ext + b0))); lra.
Qed.

(** When the unit vectors [d] and [e] are parallel, [e = - a01 * d]. *)
Lemma parallel_dot (d e v : Vector3.t) :
  unitLength d -> unitLength e ->
  let a01 := - Vector3.dot d e in
  a01 * a01 = 1 ->
  - Vector3.dot v e = a01 * Vector3.dot v d.
Proof.
  destruct d as [dx dy dz], e as [ex ey ez], v as [vx vy vz].
  unfold unitLength. vsimpl. intros U V.
  remember (- (dx * ex + dy * ey + dz * ez)) as a eqn:Ea.
  intros A.
  assert (E : (ex + a * dx) * (ex + a * dx) + (ey + a * dy) * (ey + a * dy)
              + (ez + a * dz) * (ez + a * dz) = 0).
  { replace ((ex + a * dx) * (ex + a * dx) + (ey + a * dy) * (ey + a * dy)
             + (ez + a * dz) * (ez + a * dz))
      with ((ex * ex + ey * ey + ez * ez)
            + a * a * (dx * dx + dy * dy + dz * dz)
            - 2 * a * (- (dx * ex + dy * ey + dz * ez))) by ring.
    rewrite U, V, <- Ea. lra. }
  apply sum_squares_zero in E. destruct E as [Ex [Ey Ez]].
  clear Ea U V A.
  replace ex with (- a * dx) by lra.
  replace ey with (- a * dy) by lra.
  replace ez with (- a * dz) by lra.
  ring.
Qed.

(** Every point between the endpoints is at an offset of at most the half
    length from the midpoint. *)
Lemma between_offset (v0 v1 : Vector3.t) (lam : R) :
  v0 <> v1 -> 0 <= lam <= 1 ->
  exists y : R,
    - (Vector3.distanceTo v0 v1 * (1 / 2)) <= y
      <= Vector3.distanceTo v0 v1 * (1 / 2)
    /\ Vector3.add v0 (Vector3.multiplyScalar (Vector3.sub v1 v0) lam)
       = Vector3.add
           (Vector3.multiplyScalar (Vector3.normalize (Vector3.sub v1 v0)) y)
           (Vector3.multiplyScalar (Vector3.add v0 v1) (1 / 2)).
Proof.
  intros Hne Hlam.
  pose proof (normalize_times_length _ (distinct_lengthSq v0 v1 Hne)) as E.
  assert (Esq : Vector3.distanceToSquared v0 v1
                = Vector3.lengthSq (Vector3.sub v1 v0)).
  { destruct v0 as [a b c], v1 as [a' b' c']. vsimpl. ring. }
  unfold Vector3.distanceTo. unfold Vector3.length in E.
  cbn [nsqrt RNum] in *. rewrite Esq.
  pose proof (sqrt_pos (Vector3.lengthSq (Vector3.sub v1 v0))) as HL.
  remember (sqrt (Vector3.lengthSq (Vector3.sub v1 v0))) as l eqn:El.
  remember (Vector3.normalize (Vector3.sub v1 v0)) as n eqn:En.
  clear El En Esq Hne.
  exists ((lam - 1 / 2) * l). split.
  - assert (0 <= lam * l) by (apply Rmult_le_pos; lra).
    assert (0 <= (1 - lam) * l) by (apply Rmult_le_pos; lra).
    lra.
  - destruct v0 as [a b c], v1 as [a' b' c'], n as [nx ny nz].
    vsimpl. injection E as Ex Ey Ez.
    change (@num RNum) with R in *.
    f_equal.
    + replace a' with (a + nx * l)%R by lra. field.
    + replace b' with (b + ny * l)%R by lra. field.
    + replace c' with (c + nz * l)%R by lra. field.
Qed.

(** The number returned is the least value of the quadratic form over
    the ray parameters [x >= 0] and the segment offsets [y] within the
    half length. *)
Lemma distanceSqToSegment_Qform_min (r : Ray.t) (v0 v1 : Vector3.t)
    (o1 o2 : option Vector3.t) (x y : R) :
  unitLength (Ray.direction r) ->
  v0 <> v1 ->
  let segCenter := Vector3.multiplyScalar (Vector3.add v0 v1) (1 / 2) in
  let segDir := Vector3.normalize (Vector3.sub v1 v0) in
  let segExtent := Vector3.distanceTo v0 v1 * (1 / 2) in
  let diff := Vector3.sub (Ray.origin r) segCenter in
  let a01 := - Vector3.dot (Ray.direction r) segDir in
  let b0 := Vector3.dot diff (Ray.direction r) in
  let b1 := - Vector3.dot diff segDir in
  let c := Vector3.lengthSq diff in
  0 <= x -> - segExtent <= y <= segExtent ->
  Ray.sqrDist (Ray.distanceSqToSegment r v0 v1 o1 o2)
  <= Qform a01 b0 b1 c x y.
Proof.
  intros U Hne segCenter segDir segExtent diff a01 b0 b1 c Hx Hy.
  unfold Ray.distanceSqToSegment.
  cbv zeta. change (@num RNum) with R in *.
  cbn [nltb nleb nsub nadd nmul ndiv nneg nabs nmax nmin zero one two half RNum].
  fold segCenter segDir segExtent diff. fold a01 b0 b1 c.
  assert (V : unitLength segDir)
    by (apply normalize_unit; now apply distinct_lengthSq).
  assert (A : a01 * a01 <= 1).
  { pose proof (d2_nonneg (Ray.direction r) segDir V) as H.
    unfold unitLength in U. rewrite U in H.
    change (@num RNum) with R in *. fold a01 in H.
    replace (a01 * a01)
      with (Vector3.dot (Ray.direction r) segDir
            * Vector3.dot (Ray.direction r) segDir)
      by (unfold a01; change (@num RNum) with R; ring).
    lra. }
  assert (Hext : 0 <= segExtent).
  { unfold segExtent, Vector3.distanceTo. cbn [nsqrt RNum].
    pose proof (sqrt_pos (Vector3.distanceToSquared v0 v1)). lra. }
  rewrite (Rabs_pos_eq (1 - a01 * a01)) by lra.
  destruct (Rltb 0 (1 - a01 * a01)) eqn:Edet; rprop.
  - destruct (Rleb 0 (a01 * b1 - b0)) eqn:Es0; rprop.
    + destruct (Rleb (- (segExtent * (1 - a01 * a01))) (a01 * b0 - b1))
        eqn:Elo; rprop.
      * destruct (Rleb (a01 * b0 - b1) (segExtent * (1 - a01 * a01)))
          eqn:Ehi; rprop.
        -- (* region 0 *)
           cbv beta iota. cbn [Ray.sqrDist].
           eapply Rle_trans;
             [|apply (region0_minimal a01 b0 b1 c (1 - a01 * a01) x y A
                        eq_refl Edet)].
           right. unfold Qform. ring.
        -- (* region 1 *)
           cbv beta iota. cbn [Ray.sqrDist].
           destruct (endpoint_region a01 b0 b1 c segExtent) as [_ G3].
           eapply Rle_trans; [right; exact G3|].
           apply (region1_minimal a01 b0 b1 c segExtent x y); lra.
      * (* region 5 *)
        cbv beta iota. cbn [Ray.sqrDist].
        destruct (endpoint_region a01 b0 b1 c (- segExtent)) as [_ G3].
        eapply Rle_trans; [right; exact G3|].
        apply (region5_minimal a01 b0 b1 c segExtent x y); lra.
    + destruct (Rleb (a01 * b0 - b1) (- (segExtent * (1 - a01 * a01))))
        eqn:Elo; rprop.
      * (* region 4 *)
        cbv beta iota. cbn [Ray.sqrDist].
        assert (HX : - (- a01 * segExtent + b0)
                     = - (a01 * - segExtent + b0)) by ring.
        destruct (corner_region a01 b0 b1 c segExtent (- segExtent)
                    (- (- a01 * segExtent + b0)) HX
                    (or_intror eq_refl) Hext) as [_ [_ G3]].
        eapply Rle_trans; [right; exact G3|].
        apply (region4_minimal a01 b0 b1 c segExtent x y); lra.
      * destruct (Rleb (a01 * b0 - b1) (segExtent * (1 - a01 * a01)))
          eqn:Ehi; rprop.
        -- (* region 3 *)
           cbv beta iota. cbn [Ray.sqrDist].
           eapply Rle_trans;
             [|apply (region3_minimal a01 b0 b1 c segExtent x y); lra].
           right. unfold Qform. ring.
        -- (* region 2 *)
           cbv beta iota. cbn [Ray.sqrDist].
           destruct (corner_region a01 b0 b1 c segExtent segExtent
                       (- (a01 * segExtent + b0)) eq_refl
                       (or_introl eq_refl) Hext) as [_ [_ G3]].
           eapply Rle_trans; [right; exact G3|].
           apply (region2_minimal a01 b0 b1 c segExtent x y); lra.
  - (* parallel *)
    cbv beta iota. cbn [Ray.sqrDist].
    destruct (endpoint_region a01 b0 b1 c
                (if Rltb 0 a01 then - segExtent else segExtent))
      as [_ G3].
    eapply Rle_trans; [right; exact G3|].
    assert (A1 : a01 * a01 = 1) by lra.
    apply (parallel_minimal a01 b0 b1 c segExtent x y); try lra.
    exact (parallel_dot (Ray.direction r) segDir diff U V A1).
Qed.

(** X21: for a ray of unit direction and a segment with distinct
    endpoints, the number [distanceSqToSegment] returns is at most the
    squared distance between any point of the ray, [origin + s *
    direction] with [s >= 0], and any point of the segment, [v0 + lam *
    (v1 - v0)] with [0 <= lam <= 1]: no point of the ray and point of the
    segment are nearer to each other than the distance returned. *)
Theorem distanceSqToSegment_least (r : Ray.t) (v0 v1 : Vector3.t)
    (o1 o2 : option Vector3.t) (s lam : R) :
  unitLength (Ray.direction r) ->
  v0 <> v1 ->
  0 <= s -> 0 <= lam <= 1 ->
  Ray.sqrDist (Ray.distanceSqToSegment r v0 v1 o1 o2)
  <= Vector3.distanceToSquared (Ray.at_ r s)
       (Vector3.add v0 (Vector3.multiplyScalar (Vector3.sub v1 v0) lam)).
Proof.
  intros U Hne Hs Hlam.
  destruct (between_offset v0 v1 lam Hne Hlam) as [y [Hy ->]].
  unfold Ray.at_.
  rewrite (quadratic_form (Ray.origin r) (Ray.direction r) _ _ s y U)
    by (apply normalize_unit; now apply distinct_lengthSq).
  exact (distanceSqToSegment_Qform_min r v0 v1 o1 o2 s y U Hne Hs Hy).
Qed.

Lemma distanceSqToSegment_least_witness :
  unitLength (Ray.direction ray_down_exact)
  /\ seg_start <> seg_end
  /\ Ray.sqrDist
       (Ray.distanceSqToSegment ray_down_exact seg_start seg_end None None)
     <= Vector3.distanceToSquared (Ray.at_ ray_down_exact 3)
          (Vector3.add seg_start
             (Vector3.multiplyScalar (Vector3.sub seg_end seg_start) (1 / 4))).
Proof.
  assert (Hne : seg_start <> seg_end).
  { intros [= E]. lra. }
  split; [exact ray_down_exact_unit|]. split; [exact Hne|].
  apply (distanceSqToSegment_least ray_down_exact seg_start seg_end
           None None 3 (1 / 4) ray_down_exact_unit Hne); lra.
Defined.

(** ** Winding order, distances and comparisons *)

Lemma normalize_negate (v : Vector3.t) :
  Vector3.normalize (Vector3.negate v) = Vector3.negate (Vector3.normalize v).
Proof.
  unfold Vector3.normalize, Vector3.length. cbv zeta.
  assert (E : Vector3.lengthSq (Vector3.negate v) = Vector3.lengthSq v).
  { destruct v as [a b c]. vsimpl. ring. }
  rewrite E.
  match goal with |- context [Vector3.multiplyScalar _ ?e] =>
    set (k := e) end.
  clearbody k.
  destruct v as [a b c]. vsimpl. apply vector_eq; ring.
Qed.

Lemma cross_swap (u v : Vector3.t) :
  Vector3.cross u v = Vector3.negate (Vector3.cross v u).
Proof.
  destruct u as [a b c], v as [a' b' c']. vsimpl. apply vector_eq; ring.
Qed.

(** X22: the order of the three points fixes the side the normal points
    to: [setFromCoplanarPoints] with the points in reverse order gives
    the negated plane, whatever the points are. *)
Theorem setFromCoplanarPoints_reversed (this : Plane.t) (a b c : Vector3.t) :
  Plane.setFromCoplanarPoints this c b a
  = Plane.negate (Plane.setFromCoplanarPoints this a b c).
Proof.
  unfold Plane.setFromCoplanarPoints, Plane.setFromNormalAndCoplanarPoint,
    Plane.negate.
  cbv zeta. cbn [Plane.normal Plane.constant].
  rewrite (cross_swap (Vector3.subVectors a b) (Vector3.subVectors c b)).
  rewrite normalize_negate.
  destruct (normalize_scale
              (Vector3.cross (Vector3.subVectors c b) (Vector3.subVectors a b)))
    as [k [-> _]].
  f_equal.
  destruct a as [ax ay az], b as [bx by_ bz], c as [cx cy cz]. vsimpl. ring.
Qed.

(** X23: for a ray of unit direction, [distanceToPoint] is the distance
    from the point to [closestPointToPoint], and no point of the ray is
    nearer to the point than that. *)
Theorem distanceToPoint_least (r : Ray.t) (q : Vector3.t) :
  unitLength (Ray.direction r) ->
  Ray.distanceToPoint r q
  = Vector3.distanceTo (Ray.closestPointToPoint r q) q
  /\ 0 <= Ray.distanceToPoint r q
  /\ forall t : R,
       0 <= t ->
       Ray.distanceToPoint r q <= Vector3.distanceTo (Ray.at_ r t) q.
Proof.
  intros U. unfold Ray.distanceToPoint, Vector3.distanceTo.
  cbn [nsqrt RNum]. split; [|split].
  - now rewrite distanceSqToPoint_closest.
  - apply sqrt_pos.
  - intros t Ht. apply sqrt_le_1_alt. now apply closest_minimal.
Qed.

Lemma distanceToPoint_least_witness :
  unitLength (Ray.direction ray_down_exact)
  /\ forall t : R,
       0 <= t ->
       Ray.distanceToPoint ray_down_exact pt_100
       <= Vector3.distanceTo (Ray.at_ ray_down_exact t) pt_100.
Proof.
  split; [exact ray_down_exact_unit|].
  exact (proj2 (proj2
    (distanceToPoint_least ray_down_exact pt_100 ray_down_exact_unit))).
Defined.

Lemma vector_equals_iff (u v : Vector3.t) :
  Vector3.equals u v = true <-> u = v.
Proof.
  destruct u as [a b c], v as [a' b' c']. unfold Vector3.equals.
  cbn [Vector3.x Vector3.y Vector3.z neqb RNum].
  rewrite !andb_true_iff, !Reqb_true. split.
  - intros [[-> ->] ->]. reflexivity.
  - intros [= -> -> ->]. auto.
Qed.

(** X24: in exact arithmetic [equals] holds of two rays exactly when
    they have the same origin and the same direction, and [clone],
    [copy] and [set] give a ray that is equal, in that sense, to the one
    they were given. *)
Theorem ray_equals_iff_same (r r' this : Ray.t) :
  (Ray.equals r r' = true <-> r = r')
  /\ Ray.equals (Ray.clone r) r = true
  /\ Ray.equals (Ray.copy this r) r = true
  /\ Ray.equals (Ray.set this (Ray.origin r) (Ray.direction r)) r = true.
Proof.
  assert (Hiff : forall a b : Ray.t, Ray.equals a b = true <-> a = b).
  { intros [o d] [o' d']. unfold Ray.equals. cbn [Ray.origin Ray.direction].
    rewrite andb_true_iff, !vector_equals_iff. split.
    - intros [-> ->]. reflexivity.
    - intros [= -> ->]. auto. }
  split; [apply Hiff|].
  destruct r as [[ox oy oz] [dx dy dz]], this as [to td].
  repeat split; apply Hiff; reflexivity.
Qed.

(** X27: in exact arithmetic [equals] holds of two planes exactly when
    they have the same normal and the same constant, and [clone] and
    [copy] give a plane that is equal, in that sense, to the one they
    were given. *)
Theorem plane_equals_iff_same (p p' this : Plane.t) :
  (Plane.equals p p' = true <-> p = p')
  /\ Plane.equals (Plane.clone p) p = true
  /\ Plane.equals (Plane.copy this p) p = true.
Proof.
  assert (Hiff : forall a b : Plane.t, Plane.equals a b = true <-> a = b).
  { intros [n c] [n' c']. unfold Plane.equals.
    cbn [Plane.normal Plane.constant neqb RNum].
    rewrite andb_true_iff, vector_equals_iff, Reqb_true. split.
    - intros [-> ->]. reflexivity.
    - intros [= -> ->]. auto. }
  split; [apply Hiff|].
  destruct p as [[nx ny nz] c].
  split; apply Hiff; reflexivity.
Qed.

(** ** Spheres on the axis of a ray *)

(** For the ray from the world origin along (0, 0, -1): a sphere whose
    center has a positive [z] larger than the radius is entirely behind
    the origin, one whose center has a negative [z] below minus the
    radius is entirely ahead of it. *)
Lemma axis_sphere_behind (cz rad : R) :
  0 <= rad < cz ->
  entirelyBehind (Ray.mk (Vector3.mk 0 0 0) (Vector3.mk 0 0 (-1)))
    (Sphere.mk (Vector3.mk 0 0 cz) rad).
Proof.
  intros Hr [px py pz]. unfold Sphere.containsPoint. vsimpl. intros H. rprop.
  destruct (Rlt_dec 0 pz) as [|Hn]; [lra|]. exfalso.
  pose proof (Rle_0_sqr (px - 0)) as H1. pose proof (Rle_0_sqr (py - 0)) as H2.
  unfold Rsqr in *.
  assert (0 < (cz - pz - rad) * (cz - pz + rad))
    by (apply Rmult_lt_0_compat; lra).
  lra.
Qed.

Lemma axis_sphere_ahead (cx cy cz rad : R) :
  0 <= rad -> cz + rad < 0 ->
  entirelyAhead (Ray.mk (Vector3.mk 0 0 0) (Vector3.mk 0 0 (-1)))
    (Sphere.mk (Vector3.mk cx cy cz) rad).
Proof.
  intros Hr Hc [px py pz]. unfold Sphere.containsPoint. vsimpl. intros H. rprop.
  destruct (Rlt_dec pz 0) as [|Hn]; [lra|]. exfalso.
  pose proof (Rle_0_sqr (px - cx)) as H1.
  pose proof (Rle_0_sqr (py - cy)) as H2.
  unfold Rsqr in *.
  assert (0 < (pz - cz - rad) * (pz - cz + rad))
    by (apply Rmult_lt_0_compat; lra).
  lra.
Qed.

End ExactArithmetic.

(** * Doubles and the real numbers they stand for *)

Section Doubles.
Local Existing Instance FloatNum.
Local Open Scope num_scope.

(** The real number a finite double stands for, [(-1)^s * m * 2^e];
    infinities and NaN stand for no number and are sent to 0. *)
Definition SF2R (f : spec_float) : R :=
  match f with
  | S754_finite s m e =>
      let v :=
        match e with
        | Z0 => IZR (Z.pos m)
        | Z.pos p => IZR (Z.pos m * 2 ^ Z.pos p)
        | Z.neg p => (IZR (Z.pos m) / IZR (2 ^ Z.pos p))%R
        end in
      if s then (- v)%R else v
  | _ => 0%R
  end.

Definition exactValue (a : float) : R := SF2R (Prim2SF a).

Definition isFinite (a : float) : bool :=
  match Prim2SF a with
  | S754_zero _ | S754_finite _ _ _ => true
  | _ => false
  end.

Definition exactVector (v : Vector3.t) : Vector3.t (N := RNum) :=
  Vector3.mk (N := RNum) (exactValue (Vector3.x v)) (exactValue (Vector3.y v))
    (exactValue (Vector3.z v)).

Definition finiteVector (v : Vector3.t) : bool :=
  isFinite (Vector3.x v) && isFinite (Vector3.y v) && isFinite (Vector3.z v).

Definition exactRay (r : Ray.t) : Ray.t (N := RNum) :=
  Ray.mk (N := RNum) (exactVector (Ray.origin r))
    (exactVector (Ray.direction r)).

Definition finiteRay (r : Ray.t) : bool :=
  finiteVector (Ray.origin r) && finiteVector (Ray.direction r).

Definition exactSphere (s : Sphere.t) : Sphere.t (N := RNum) :=
  Sphere.mk (N := RNum) (exactVector (Sphere.center s))
    (exactValue (Sphere.radius s)).

Definition finiteSphere (s : Sphere.t) : bool :=
  finiteVector (Sphere.center s) && isFinite (Sphere.radius s).

(** Unfold the exact value of the doubles written out in the goal. *)
Ltac exact_values :=
  unfold exactValue;
  repeat match goal with
  | |- context [Prim2SF ?a] =>
      let v := eval vm_compute in (Prim2SF a) in change (Prim2SF a) with v
  end;
  unfold SF2R;
  repeat match goal with
  | |- context [(2 ^ Z.pos ?p)%Z] =>
      let v := eval vm_compute in (2 ^ Z.pos p)%Z in
      change (2 ^ Z.pos p)%Z with v
  end.

Lemma exactValue_zero : exactValue 0 = 0%R.
Proof. reflexivity. Qed.

Lemma exactValue_minus_one : exactValue (-1) = (-1)%R.
Proof. exact_values. lra. Qed.

Example exactValue_examples :
  exactValue 3 = 3%R
  /\ exactValue (-0.75) = (- (3 / 4))%R
  /\ exactValue 1000000000 = 1000000000%R
  /\ exactValue 0x1p60 = IZR (2 ^ 60)
  /\ isFinite (1 / 0) = false
  /\ isFinite (0 / 0) = false.
Proof.
  repeat split; try reflexivity; exact_values; lra.
Qed.

Lemma exactRay_ray_down :
  exactRay ray_down
  = Ray.mk (N := RNum) (Vector3.mk (N := RNum) 0%R 0%R 0%R)
      (Vector3.mk (N := RNum) 0%R 0%R (-1)%R).
Proof.
  unfold exactRay, exactVector, ray_down, vec.
  cbn [Ray.origin Ray.direction Vector3.x Vector3.y Vector3.z].
  now rewrite exactValue_zero, exactValue_minus_one.
Qed.

Lemma ray_down_unit : unitLength (exactVector (Ray.direction ray_down)).
Proof.
  unfold unitLength, exactVector, ray_down, vec, Vector3.dot.
  cbn [Ray.direction Vector3.x Vector3.y Vector3.z nadd nmul RNum].
  rewrite exactValue_zero, exactValue_minus_one. lra.
Qed.

Lemma exactValue_tiny :
  (0 < exactValue 0x1p-601)%R
  /\ exactValue 0x1p-600 = (2 * exactValue 0x1p-601)%R.
Proof.
  unfold exactValue.
  change (Prim2SF 0x1p-600) with (S754_finite false 4503599627370496 (-652)).
  change (Prim2SF 0x1p-601) with (S754_finite false 4503599627370496 (-653)).
  unfold SF2R.
  assert (Hp : (0 < IZR (2 ^ 652))%R) by (apply IZR_lt; reflexivity).
  assert (E : IZR (2 ^ 653) = (2 * IZR (2 ^ 652))%R).
  { rewrite <- mult_IZR. apply IZR_eq. reflexivity. }
  rewrite E. set (b := IZR (2 ^ 652)) in *. clearbody b. split.
  - apply Rdiv_lt_0_compat; lra.
  - field. lra.
Qed.

(** C1: on binary64, [intersectsSphere] is the test
    [distanceSqToPoint(center) <= radius^2] of the distance clamped at the
    origin, whereas [intersectSphere] returns null exactly when
    [d2 > radius^2] or the unclamped parameters [t0] and [t1] are both
    negative; and some ray of unit direction and some sphere entirely
    behind its origin make the two disagree.  For the ray from the world
    origin along (0, 0, -1) and the sphere of center (0, 0, 2^-600) and
    radius 2^-601, every point of the sphere, taken with the exact values
    of these doubles, has a negative coordinate along the ray.  The
    clamped distance is the one from the origin to the center; its square
    and the square of the radius both underflow to zero, and
    [intersectsSphere] answers true.  [intersectSphere] passes its own
    distance test likewise, finds [t0] and [t1] both negative and returns
    null. *)
Theorem sphere_behind_tests_disagree :
  (forall (r : Ray.t) (s : Sphere.t),
     let v := Vector3.subVectors (Sphere.center s) (Ray.origin r) in
     let tca := Vector3.dot v (Ray.direction r) in
     let d2 := Vector3.dot v v - tca * tca in
     let radius2 := Sphere.radius s * Sphere.radius s in
     let thc := nsqrt (radius2 - d2) in
     Ray.intersectsSphere r s
     = (Ray.distanceSqToPoint r (Sphere.center s) <=? radius2)
     /\ (Ray.intersectSphere r s = None
         <-> (d2 >? radius2) = true
             \/ ((tca - thc <? zero) = true /\ (tca + thc <? zero) = true)))
  /\ exists (r : Ray.t) (s : Sphere.t),
       finiteRay r = true /\ finiteSphere s = true
       /\ Vector3.dot (Ray.direction r) (Ray.direction r) = one
       /\ unitLength (exactVector (Ray.direction r))
       /\ entirelyBehind (exactRay r) (exactSphere s)
       /\ Ray.intersectsSphere r s = true
       /\ Ray.intersectSphere r s = None
       /\ (let v := Vector3.subVectors (Sphere.center s) (Ray.origin r) in
           let tca := Vector3.dot v (Ray.direction r) in
           let d2 := Vector3.dot v v - tca * tca in
           let radius2 := Sphere.radius s * Sphere.radius s in
           let thc := nsqrt (radius2 - d2) in
           Ray.distanceSqToPoint r (Sphere.center s)
           = Vector3.distanceToSquared (Ray.origin r) (Sphere.center s)
           /\ (Ray.distanceSqToPoint r (Sphere.center s) <=? radius2) = true
           /\ (d2 >? radius2) = false
           /\ (tca - thc <? zero) = true
           /\ (tca + thc <? zero) = true).
Proof.
  split.
  - intros r s v tca d2 radius2 thc. split; [reflexivity|].
    unfold Ray.intersectSphere. fold v. cbv zeta. fold tca.
    fold d2 radius2. fold thc.
    destruct (radius2 <? d2); [split; auto|].
    destruct (tca - thc <? zero), (tca + thc <? zero); cbn [andb];
      split; auto; try discriminate;
      intros [H | [H1 H2]]; discriminate.
  - exists ray_down, sphere_tiny_behind.
    split; [reflexivity|]. split; [reflexivity|]. split; [reflexivity|].
    split; [exact ray_down_unit|]. split.
    + rewrite exactRay_ray_down.
      unfold exactSphere, exactVector, sphere_tiny_behind, vec.
      cbn [Sphere.center Sphere.radius Vector3.x Vector3.y Vector3.z].
      rewrite exactValue_zero.
      destruct exactValue_tiny as [Hpos Hdouble].
      apply axis_sphere_behind. lra.
    + repeat split; reflexivity.
Qed.

(** Two spheres entirely ahead of the origin of [ray_down]: one far away
    and off the axis by seven radii, one that touches the axis. *)
Definition sphere_far_ahead : Sphere.t :=
  Sphere.mk (vec 7 0 (-1000000000)) 1%float.
Definition sphere_touching : Sphere.t :=
  Sphere.mk (vec 0x1.999999999999ap-4 0 (-5)) 0x1.999999999999ap-4%float.

(** C2, as stated, fails on binary64, in both directions.  For the
    sphere of center (7, 0, -10^9) and radius 1 the squared distance
    [10^18 + 49] rounds to [10^18], so [intersectSphere] finds [d2 = 0]
    and returns a point, while [intersectsSphere] compares 49 with 1 and
    answers false.  For the sphere of center (0.1, 0, -5) and radius 0.1
    (the double nearest to 0.1), [intersectsSphere] compares two equal
    squares and answers true, while [intersectSphere] finds a [d2] that
    exceeds the squared radius by a rounding error and returns null. *)
Lemma sphere_ahead_tests_disagree :
  finiteRay ray_down = true
  /\ Vector3.dot (Ray.direction ray_down) (Ray.direction ray_down) = one
  /\ unitLength (exactVector (Ray.direction ray_down))
  /\ (finiteSphere sphere_far_ahead = true
      /\ entirelyAhead (exactRay ray_down) (exactSphere sphere_far_ahead)
      /\ Ray.intersectsSphere ray_down sphere_far_ahead = false
      /\ Ray.intersectSphere ray_down sphere_far_ahead
         = Some (vec 0 0 (-999999999)))
  /\ (finiteSphere sphere_touching = true
      /\ entirelyAhead (exactRay ray_down) (exactSphere sphere_touching)
      /\ Ray.intersectsSphere ray_down sphere_touching = true
      /\ Ray.intersectSphere ray_down sphere_touching = None).
Proof.
  split; [reflexivity|]. split; [reflexivity|].
  split; [exact ray_down_unit|]. split.
  - split; [reflexivity|]. split; [|split; reflexivity].
    rewrite exactRay_ray_down.
    unfold exactSphere, exactVector, sphere_far_ahead, vec.
    cbn [Sphere.center Sphere.radius Vector3.x Vector3.y Vector3.z].
    apply axis_sphere_ahead; exact_values; lra.
  - split; [reflexivity|]. split; [|split; reflexivity].
    rewrite exactRay_ray_down.
    unfold exactSphere, exactVector, sphere_touching, vec.
    cbn [Sphere.center Sphere.radius Vector3.x Vector3.y Vector3.z].
    apply axis_sphere_ahead; exact_values; lra.
Qed.

(** A ray that starts just behind the plane of a slightly tilted
    triangle and looks away from it, and a triangle so large that its
    normal overflows. *)
Definition ray_just_behind : Ray.t :=
  Ray.mk (vec 0.5 0x1p-475 0) (vec 0 0 (-1)).
Definition tilted_a : Vector3.t := vec 0 0 0.
Definition tilted_b : Vector3.t := vec 2 0 0.
Definition tilted_c : Vector3.t := vec 0 1 0x1p-600.
Definition huge_b : Vector3.t := vec 0x1p600 0x1p600 0.
Definition huge_c : Vector3.t := vec 0x1p601 0x1p600 0.

(** C5, as stated, fails on binary64 in two ways.  For
    [ray_just_behind] and the tilted triangle none of the conditions
    under which the claim lets [intersectTriangle] return null holds: the
    numerator [QdN = - 2^-1074] is negative, but the quotient
    [t = QdN / |DdN|] underflows to [-0], which is not negative; yet null
    is returned, since the source tests [QdN < 0] and not [t < 0].  For
    [ray_down] and the huge triangle [DdN] is NaN, which is neither
    positive nor zero, and null is returned as well. *)
Lemma intersectTriangle_null_outside_cases :
  unitLength (exactVector (Ray.direction ray_just_behind))
  /\ finiteRay ray_just_behind = true
  /\ finiteVector tilted_a = true
  /\ finiteVector tilted_b = true
  /\ finiteVector tilted_c = true
  /\ (let r := ray_just_behind in
      let e1 := Vector3.subVectors tilted_b tilted_a in
      let e2 := Vector3.subVectors tilted_c tilted_a in
      let n := Vector3.cross e1 e2 in
      let DdN := Vector3.dot (Ray.direction r) n in
      let sign := if zero <? DdN then one else - one in
      let q := Vector3.subVectors (Ray.origin r) tilted_a in
      let DdQxE2 :=
        sign * Vector3.dot (Ray.direction r) (Vector3.cross q e2) in
      let DdE1xQ :=
        sign * Vector3.dot (Ray.direction r) (Vector3.cross e1 q) in
      let QdN := - sign * Vector3.dot q n in
      let t := QdN / nabs DdN in
      (DdN >? zero) = false
      /\ (DdN =? zero) = false
      /\ (DdQxE2 <? zero) = false
      /\ (DdE1xQ <? zero) = false
      /\ (DdQxE2 + DdE1xQ >? nabs DdN) = false
      /\ (t <? zero) = false
      /\ t = (-0)%float
      /\ QdN = (-0x1p-1074)%float
      /\ Ray.intersectTriangle r tilted_a tilted_b tilted_c false = None
      /\ Ray.intersectTriangle r tilted_a tilted_b tilted_c true = None)
  /\ unitLength (exactVector (Ray.direction ray_down))
  /\ finiteRay ray_down = true
  /\ finiteVector huge_b = true
  /\ finiteVector huge_c = true
  /\ (let r := ray_down in
      let e1 := Vector3.subVectors huge_b tilted_a in
      let e2 := Vector3.subVectors huge_c tilted_a in
      let n := Vector3.cross e1 e2 in
      let DdN := Vector3.dot (Ray.direction r) n in
      let sign := if zero <? DdN then one else - one in
      let q := Vector3.subVectors (Ray.origin r) tilted_a in
      let DdQxE2 :=
        sign * Vector3.dot (Ray.direction r) (Vector3.cross q e2) in
      let DdE1xQ :=
        sign * Vector3.dot (Ray.direction r) (Vector3.cross e1 q) in
      let QdN := - sign * Vector3.dot q n in
      let t := QdN / nabs DdN in
      isNaN DdN
      /\ (DdN >? zero) = false
      /\ (DdN =? zero) = false
      /\ (DdQxE2 <? zero) = false
      /\ (DdE1xQ <? zero) = false
      /\ (DdQxE2 + DdE1xQ >? nabs DdN) = false
      /\ (t <? zero) = false
      /\ Ray.intersectTriangle r tilted_a huge_b huge_c false = None).
Proof.
  split; [exact ray_down_unit|].
  do 4 (split; [reflexivity|]). split; [repeat split; reflexivity|].
  split; [exact ray_down_unit|]. repeat split; reflexivity.
Qed.

End Doubles.

(** * The case analyses, in every reading *)

Section EveryReading.
Context {N : Num} {L : NumLaws N} {S : SignLaws N}.
Local Open Scope num_scope.

(** C3: with [tca = dot (center - origin) direction],
    [d2 = |center - origin|^2 - tca^2], [thc = sqrt (radius^2 - d2)],
    [t0 = tca - thc] and [t1 = tca + thc], as the code computes them in
    whatever arithmetic it runs on, [intersectSphere] returns null when
    [d2 > radius^2] or when [t0] and [t1] are both negative; otherwise it
    returns [at t1] when [t0 < 0] and [t1 >= 0] (more precisely, whenever
    [t0 < 0] and [t1 < 0] fails), and [at t0] when [t0 < 0] fails.  From
    the world origin along (0, 0, -1), the unit sphere centered at
    (0, 0, -5) is hit at (0, 0, -4) and the one centered at (0, 0, 5) is
    missed, on binary64 and in exact arithmetic alike. *)
Theorem intersectSphere_cases (r : Ray.t) (s : Sphere.t) :
  let v := Vector3.subVectors (Sphere.center s) (Ray.origin r) in
  let tca := Vector3.dot v (Ray.direction r) in
  let d2 := Vector3.dot v v - tca * tca in
  let radius2 := Sphere.radius s * Sphere.radius s in
  let thc := nsqrt (radius2 - d2) in
  let t0 := tca - thc in
  let t1 := tca + thc in
  ((d2 >? radius2) = true -> Ray.intersectSphere r s = None)
  /\ ((t0 <? zero) = true -> (t1 <? zero) = true ->
      Ray.intersectSphere r s = None)
  /\ ((d2 >? radius2) = false -> (t0 <? zero) = true ->
      (t1 >=? zero) = true ->
      Ray.intersectSphere r s = Some (Ray.at_ r t1))
  /\ ((d2 >? radius2) = false -> (t0 <? zero) = true ->
      (t1 <? zero) = false ->
      Ray.intersectSphere r s = Some (Ray.at_ r t1))
  /\ ((d2 >? radius2) = false -> (t0 <? zero) = false ->
      Ray.intersectSphere r s = Some (Ray.at_ r t0))
  /\ Ray.intersectSphere (N := FloatNum) ray_down sphere_ahead
     = Some (vec 0 0 (-4))
  /\ Ray.intersectSphere (N := FloatNum) ray_down sphere_behind = None
  /\ Ray.intersectSphere (N := RNum) ray_down_exact sphere_ahead_exact
     = Some (Vector3.mk (N := RNum) 0%R 0%R (-4)%R)
  /\ Ray.intersectSphere (N := RNum) ray_down_exact sphere_behind_exact
     = None.
Proof.
  intros v tca d2 radius2 thc t0 t1.
  unfold Ray.intersectSphere. fold v. cbv zeta. fold tca.
  fold d2 radius2. fold thc. fold t0 t1.
  split; [now intros ->|].
  split; [intros -> ->; now destruct (radius2 <? d2)|].
  split; [intros -> -> H; now rewrite (nleb_nltb_false _ _ H)|].
  split; [now intros -> -> ->|].
  split; [now intros -> ->|].
  split; [reflexivity|]. split; [reflexivity|].
  split; [exact intersectSphere_ahead_exact|exact intersectSphere_behind_exact].
Qed.

(** C5 (as amended): with [e1 = b - a], [e2 = c - a], [n = cross e1 e2],
    [DdN = dot direction n], [sign] the sign of [DdN], [q = origin - a]
    and [QdN = - sign * dot q n], [intersectTriangle] returns null when
    [DdN > 0] under backface culling; when [DdN] is neither positive nor
    negative, as when [DdN = 0]; when one of the numerators
    [sign * dot direction (cross q e2)] and
    [sign * dot direction (cross e1 q)] is negative; when their sum
    exceeds [|DdN|]; and when [QdN] is negative, as it is whenever
    [t = QdN / |DdN|] is negative; in every other case it returns
    [at t]. *)
Theorem intersectTriangle_cases (r : Ray.t) (a b c : Vector3.t)
    (backfaceCulling : bool) :
  let e1 := Vector3.subVectors b a in
  let e2 := Vector3.subVectors c a in
  let n := Vector3.cross e1 e2 in
  let DdN := Vector3.dot (Ray.direction r) n in
  let sign := if zero <? DdN then one else - one in
  let q := Vector3.subVectors (Ray.origin r) a in
  let DdQxE2 := sign * Vector3.dot (Ray.direction r) (Vector3.cross q e2) in
  let DdE1xQ := sign * Vector3.dot (Ray.direction r) (Vector3.cross e1 q) in
  let QdN := - sign * Vector3.dot q n in
  let t := QdN / nabs DdN in
  let result := Ray.intersectTriangle r a b c backfaceCulling in
  ((DdN >? zero) = true -> backfaceCulling = true -> result = None)
  /\ ((DdN >? zero) = false -> (DdN <? zero) = false -> result = None)
  /\ ((DdN =? zero) = true -> result = None)
  /\ ((DdQxE2 <? zero) = true \/ (DdE1xQ <? zero) = true -> result = None)
  /\ ((DdQxE2 + DdE1xQ >? nabs DdN) = true -> result = None)
  /\ ((QdN <? zero) = true -> result = None)
  /\ ((t <? zero) = true -> result = None)
  /\ (((DdN >? zero) = true /\ backfaceCulling = false)
      \/ ((DdN >? zero) = false /\ (DdN <? zero) = true) ->
      (DdQxE2 <? zero) = false -> (DdE1xQ <? zero) = false ->
      (DdQxE2 + DdE1xQ >? nabs DdN) = false ->
      (QdN <? zero) = false ->
      result = Some (Ray.at_ r t)).
Proof.
  intros e1 e2 n DdN sign q DdQxE2 DdE1xQ QdN t result.
  assert (Hcode :
    result
    = if zero <? DdN then
        if backfaceCulling then None
        else if DdQxE2 <? zero then None
        else if DdE1xQ <? zero then None
        else if nabs DdN <? DdQxE2 + DdE1xQ then None
        else if QdN <? zero then None
        else Some (Ray.at_ r t)
      else if DdN <? zero then
        if DdQxE2 <? zero then None
        else if DdE1xQ <? zero then None
        else if nabs DdN <? DdQxE2 + DdE1xQ then None
        else if QdN <? zero then None
        else Some (Ray.at_ r t)
      else None).
  { subst result. unfold Ray.intersectTriangle.
    fold e1 e2. change (Vector3.crossVectors e1 e2) with n.
    cbv zeta. fold DdN q.
    change (Vector3.crossVectors q e2) with (Vector3.cross q e2).
    subst t QdN DdQxE2 DdE1xQ sign.
    destruct (zero <? DdN) eqn:Epos.
    - rewrite (nabs_positive _ Epos). reflexivity.
    - destruct (DdN <? zero) eqn:Eneg; [|reflexivity].
      rewrite (nabs_negative _ Eneg). reflexivity. }
  assert (Ht : (t <? zero) = true -> (QdN <? zero) = true
               \/ ((zero <? DdN) = false /\ (DdN <? zero) = false)).
  { intros H. subst t.
    destruct (zero <? DdN) eqn:Epos.
    - left. rewrite (nabs_positive _ Epos) in H.
      exact (ndiv_negative _ _ Epos H).
    - destruct (DdN <? zero) eqn:Eneg; [|now right].
      left. rewrite (nabs_negative _ Eneg) in H.
      exact (ndiv_negative _ _ (nneg_negative _ Eneg) H). }
  rewrite Hcode. clear Hcode.
  split; [now intros -> ->|].
  split; [now intros -> ->|].
  split.
  { intros H. destruct (neqb_nltb_false _ _ H) as [H1 H2]. now rewrite H1, H2. }
  split.
  { intros [H|H]; rewrite H;
      destruct (zero <? DdN), backfaceCulling, (DdN <? zero); try reflexivity;
      destruct (DdQxE2 <? zero); reflexivity. }
  split.
  { intros ->.
    destruct (zero <? DdN), backfaceCulling, (DdN <? zero); try reflexivity;
      destruct (DdQxE2 <? zero), (DdE1xQ <? zero); reflexivity. }
  assert (Hq : (QdN <? zero) = true ->
    (if zero <? DdN then
        if backfaceCulling then None
        else if DdQxE2 <? zero then None
        else if DdE1xQ <? zero then None
        else if nabs DdN <? DdQxE2 + DdE1xQ then None
        else if QdN <? zero then None
        else Some (Ray.at_ r t)
      else if DdN <? zero then
        if DdQxE2 <? zero then None
        else if DdE1xQ <? zero then None
        else if nabs DdN <? DdQxE2 + DdE1xQ then None
        else if QdN <? zero then None
        else Some (Ray.at_ r t)
      else None) = None).
  { intros ->.
    destruct (zero <? DdN), backfaceCulling, (DdN <? zero); try reflexivity;
      destruct (DdQxE2 <? zero), (DdE1xQ <? zero),
        (nabs DdN <? DdQxE2 + DdE1xQ); reflexivity. }
  split; [exact Hq|].
  split.
  { intros H. destruct (Ht H) as [H1|[H1 H2]]; [now apply Hq|].
    now rewrite H1, H2. }
  intros [[-> ->]|[-> ->]] -> -> -> ->; reflexivity.
Qed.

End EveryReading.

Section WitnessesOnDoubles.
Local Existing Instance FloatNum.
Local Open Scope num_scope.

Lemma intersectSphere_cases_witness :
  NumLaws FloatNum
  /\ Ray.intersectSphere ray_down sphere_ahead = Some (vec 0 0 (-4)).
Proof.
  split; [exact FloatNumLaws|].
  exact (proj1 (proj2 (proj2 (proj2 (proj2
    (intersectSphere_cases (L := FloatNumLaws) ray_down sphere_ahead)))))
    eq_refl eq_refl).
Defined.

Lemma intersectTriangle_cases_witness :
  SignLaws FloatNum
  /\ Ray.intersectTriangle ray_down
       (vec (-1) (-1) (-3)) (vec 1 (-1) (-3)) (vec 0 1 (-3)) true
     = Some (vec 0 0 (-3)).
Proof.
  split; [exact FloatSignLaws|].
  exact (proj2 (proj2 (proj2 (proj2 (proj2 (proj2 (proj2
    (intersectTriangle_cases (S := FloatSignLaws) ray_down
       (vec (-1) (-1) (-3)) (vec 1 (-1) (-3)) (vec 0 1 (-3)) true)))))))
    (or_intror (conj eq_refl eq_refl)) eq_refl eq_refl eq_refl eq_refl).
Defined.

End WitnessesOnDoubles.
